(** * slang: the Compilation manager and the Scope / lookup engine

    A shallow embedding of [source/symbols/Scope.cpp] and
    [source/compilation/Compilation.cpp].

    Symbols live in an arena and point at each other; the embedding keeps
    them in a store indexed by handles, and every C++ pointer becomes an
    [option handle] ([None] is [nullptr]).  A scope is a base class of the
    symbol that owns it, so a scope and its symbol share one handle.
    32-bit indices are integers with the wrap-around written out.
    Operations that can fail (a failed [ASSERT], a null dereference,
    [THROW_UNREACHABLE]) return a [Res]. *)

From Stdlib Require Import ZArith String List Lia.
From stdpp Require Import base option list gmap sets strings sorting fin_maps.

Local Open Scope Z_scope.

(** ** Machine integers *)

Definition UINT32_MAX : Z := 4294967295.
Definition UINT_MAX : Z := 4294967295.
Definition SIZE_MAX : Z := 18446744073709551615.

(** Arithmetic on [uint32_t] wraps modulo 2^32, on [size_t] modulo 2^64. *)
Definition u32 (z : Z) : Z := z mod 4294967296.
Definition usize (z : Z) : Z := z mod 18446744073709551616.

(** ** Outcomes *)

Inductive Fault :=
  | NullDeref       (* [*p] or [p->m] with [p == nullptr] *)
  | AssertFailed    (* a failed [ASSERT] *)
  | Unreachable     (* [THROW_UNREACHABLE] *)
  | BadCast         (* [as<T>()] on a symbol of another kind *)
  | BadHandle       (* a handle that denotes no object of the store *)
  | OutOfRange      (* [front()] or [operator[]] outside a vector *)
  | OutOfFuel.      (* the loop did not finish within the given fuel *)

Inductive Res (A : Type) :=
  | Ok (a : A)
  | Err (f : Fault).
Arguments Ok {A} a.
Arguments Err {A} f.

#[global] Instance Res_ret : MRet Res := fun A a => Ok a.
#[global] Instance Res_bind : MBind Res := fun A B f m =>
  match m with
  | Ok a => f a
  | Err e => Err e
  end.

(** [*p] for a pointer that may be null. *)
Definition deref {A} (p : option A) : Res A :=
  match p with
  | Some a => Ok a
  | None => Err NullDeref
  end.

Definition ASSERT (cond : bool) : Res unit :=
  if cond then Ok tt else Err AssertFailed.

(** ** Kinds *)

Abbreviation handle := nat.

Inductive SymbolKind :=
  | SkUnknown | SkRoot | SkCompilationUnit | SkDefinition | SkPackage
  | SkModuleInstance | SkInterfaceInstance | SkProgramInstance
  | SkGenerateBlock | SkGenerateBlockArray
  | SkVariable | SkFormalArgument | SkSubroutine | SkParameter
  | SkEnumValue | SkEnumType
  | SkExplicitImport | SkWildcardImport | SkTransparentMember
  | SkPort | SkInterfacePort | SkContinuousAssign | SkProceduralBlock
  | SkAttribute | SkOther (n : nat).

#[global] Instance SymbolKind_eq_dec : EqDecision SymbolKind.
Proof. solve_decision. Defined.

Inductive DefinitionKind := DkModule | DkInterface | DkProgram.

#[global] Instance DefinitionKind_eq_dec : EqDecision DefinitionKind.
Proof. solve_decision. Defined.

Inductive SyntaxKind :=
  | SyUnknown | SyEnumType | SyHierarchyInstantiation | SyIfGenerate
  | SyLoopGenerate | SyOther (n : nat).

#[global] Instance SyntaxKind_eq_dec : EqDecision SyntaxKind.
Proof. solve_decision. Defined.

(** ** Token kinds and net types *)

Inductive TokenKind :=
  | TkUnknown
  | WireKeyword | WAndKeyword | WOrKeyword | TriKeyword | TriAndKeyword
  | TriOrKeyword | Tri0Keyword | Tri1Keyword | TriRegKeyword
  | Supply0Keyword | Supply1Keyword | UWireKeyword
  | Pull0Keyword | Pull1Keyword | Star
  | TkOther (n : nat).

#[global] Instance TokenKind_eq_dec : EqDecision TokenKind.
Proof. solve_decision. Defined.

Definition TokenKind_encode (t : TokenKind) : nat :=
  match t with
  | TkUnknown => 0 | WireKeyword => 1 | WAndKeyword => 2 | WOrKeyword => 3
  | TriKeyword => 4 | TriAndKeyword => 5 | TriOrKeyword => 6
  | Tri0Keyword => 7 | Tri1Keyword => 8 | TriRegKeyword => 9
  | Supply0Keyword => 10 | Supply1Keyword => 11 | UWireKeyword => 12
  | Pull0Keyword => 13 | Pull1Keyword => 14 | Star => 15
  | TkOther n => (16 + n)%nat
  end.

Definition TokenKind_decode (n : nat) : TokenKind :=
  match n with
  | 0 => TkUnknown | 1 => WireKeyword | 2 => WAndKeyword | 3 => WOrKeyword
  | 4 => TriKeyword | 5 => TriAndKeyword | 6 => TriOrKeyword
  | 7 => Tri0Keyword | 8 => Tri1Keyword | 9 => TriRegKeyword
  | 10 => Supply0Keyword | 11 => Supply1Keyword | 12 => UWireKeyword
  | 13 => Pull0Keyword | 14 => Pull1Keyword | 15 => Star
  | _ => TkOther (n - 16)
  end%nat.

Lemma TokenKind_decode_encode t : TokenKind_decode (TokenKind_encode t) = t.
Proof.
  destruct t as [| | | | | | | | | | | | | | | |n]; try reflexivity.
  unfold TokenKind_encode.
  replace (16 + n)%nat with (S (S (S (S (S (S (S (S (S (S (S (S (S (S (S (S n))))))))))))))))
    by lia.
  simpl. f_equal. lia.
Qed.

#[global] Instance TokenKind_countable : Countable TokenKind :=
  inj_countable' TokenKind_encode TokenKind_decode TokenKind_decode_encode.

Inductive NetKind :=
  | NkUnknown
  | Wire | WAnd | WOr | Tri | TriAnd | TriOr | Tri0 | Tri1 | TriReg
  | Supply0 | Supply1 | UWire.

(** The built-in types the net types refer to; only [logicType] is used. *)
Inductive BuiltinType := logicType.

Record NetType := mkNetType {
  netKind : NetKind;
  netName : string;
  netDataType : BuiltinType
}.

(** ** Symbols *)

Record SourceLocation := mkLoc {
  buffer : N;
  offset : N
}.

#[global] Instance SourceLocation_eq_dec : EqDecision SourceLocation.
Proof. solve_decision. Defined.

#[global] Instance SourceLocation_countable : Countable SourceLocation :=
  inj_countable' (fun l => (buffer l, offset l)) (fun p => mkLoc p.1 p.2)
    (fun l => match l with mkLoc _ _ => eq_refl end).

(** [explicit operator bool] of a location: the default location, whose
    buffer id is zero, is the invalid one. *)
Definition validLocation (l : SourceLocation) : bool :=
  negb (N.eqb (buffer l) 0).

(** A resolved type, as far as scopes look at it: an enum type with its
    values, or a type of some other kind. *)
Inductive Type_ :=
  | EnumType (values : list handle)
  | OtherType.

(** A lazily resolved declared type: the kind of the syntax it was
    declared with ([getSourceOrNull]) and what it resolves to ([get]). *)
Record LazyType := mkLazyType {
  getSourceOrNull : option SyntaxKind;
  get : option Type_
}.

Record ParameterDecl := mkParam {
  paramName : string;
  hasDefault : bool
}.

(** The kinds of the symbols whose class carries nothing the scopes, the
    lookup or the diagnostics read. *)
Inductive OtherKind :=
  | OkUnknown | OkEnumType | OkAttribute | OkOther (n : nat).

(** The part of a symbol that depends on its class. *)
Inductive SymbolData :=
  | RootSymbol
  | CompilationUnitSymbol
  | PackageSymbol
  | DefinitionSymbol (definitionKind : DefinitionKind)
                     (parameters : list ParameterDecl)
  | ModuleInstanceSymbol (definition : handle)
  | InterfaceInstanceSymbol (definition : handle)
  | ProgramInstanceSymbol (definition : handle)
  | GenerateBlockSymbol (isInstantiated : bool)
  | GenerateBlockArraySymbol
  | VariableSymbol (type : LazyType)
  | FormalArgumentSymbol (type : LazyType)
  | SubroutineSymbol (returnType : LazyType)
  | ParameterSymbol (lazyType : LazyType)
  | EnumValueSymbol
  | ExplicitImportSymbol (importedSymbol : option handle)
  | WildcardImportSymbol (package : option handle)
  | TransparentMemberSymbol (wrapped : handle)
  | PortSymbol
  | InterfacePortSymbol
  | ContinuousAssignSymbol
  | ProceduralBlockSymbol
  | OtherSymbol (k : OtherKind).

Definition kindOf (d : SymbolData) : SymbolKind :=
  match d with
  | RootSymbol => SkRoot
  | CompilationUnitSymbol => SkCompilationUnit
  | PackageSymbol => SkPackage
  | DefinitionSymbol _ _ => SkDefinition
  | ModuleInstanceSymbol _ => SkModuleInstance
  | InterfaceInstanceSymbol _ => SkInterfaceInstance
  | ProgramInstanceSymbol _ => SkProgramInstance
  | GenerateBlockSymbol _ => SkGenerateBlock
  | GenerateBlockArraySymbol => SkGenerateBlockArray
  | VariableSymbol _ => SkVariable
  | FormalArgumentSymbol _ => SkFormalArgument
  | SubroutineSymbol _ => SkSubroutine
  | ParameterSymbol _ => SkParameter
  | EnumValueSymbol => SkEnumValue
  | ExplicitImportSymbol _ => SkExplicitImport
  | WildcardImportSymbol _ => SkWildcardImport
  | TransparentMemberSymbol _ => SkTransparentMember
  | PortSymbol => SkPort
  | InterfacePortSymbol => SkInterfacePort
  | ContinuousAssignSymbol => SkContinuousAssign
  | ProceduralBlockSymbol => SkProceduralBlock
  | OtherSymbol OkUnknown => SkUnknown
  | OtherSymbol OkEnumType => SkEnumType
  | OtherSymbol OkAttribute => SkAttribute
  | OtherSymbol (OkOther n) => SkOther n
  end.

Record Symbol := mkSymbol {
  data : SymbolData;
  name : string;
  location : SourceLocation;
  parentScope : option handle;
  nextInScope : option handle;
  indexInScope : Z
}.

Definition kind (s : Symbol) : SymbolKind := kindOf (data s).

(** [InstanceSymbol::isKind] *)
Definition InstanceSymbol_isKind (k : SymbolKind) : bool :=
  match k with
  | SkModuleInstance | SkInterfaceInstance | SkProgramInstance => true
  | _ => false
  end.

(** A freshly constructed symbol: no parent, no sibling, index 0. *)
Definition newSymbol (d : SymbolData) (n : string) (l : SourceLocation) : Symbol :=
  {| data := d; name := n; location := l;
     parentScope := None; nextInScope := None; indexInScope := 0 |}.

(** ** Scopes *)

Record SyntaxNode := mkSyntax {
  syntaxKind : SyntaxKind;
  syntaxId : nat
}.

Record DeferredMemberData := mkDeferred {
  transparentTypes : list (option handle * LazyType);
  statement : option SyntaxNode;
  members : list (SyntaxNode * option handle)
}.

Definition emptyDeferred : DeferredMemberData :=
  {| transparentTypes := []; statement := None; members := [] |}.

Record Scope := mkScope {
  firstMember : option handle;
  lastMember : option handle;
  nameMap : gmap string handle;
  deferredMemberIndex : option nat;
  importDataIndex : option nat
}.

Definition emptyScope : Scope :=
  {| firstMember := None; lastMember := None; nameMap := ∅;
     deferredMemberIndex := None; importDataIndex := None |}.

(** ** Lookup reference points and results *)

Record LookupRefPoint := mkRefPoint {
  scope : option handle;
  index : Z
}.

Inductive LookupNameKind := Local | Scoped | Callable.

Inductive LookupResultKind := NotFound | Found | AmbiguousImport.

Record LookupResult := mkResult {
  nameKind : LookupNameKind;
  referencePoint : LookupRefPoint;
  resultKind : LookupResultKind;
  resultWasImported : bool;
  symbol : option handle;
  imports : list handle
}.

(** ** Diagnostics *)

Record Diagnostic := mkDiag {
  code : N;
  diagLocation : SourceLocation;
  diagSymbol : option handle;
  coalesceCount : option Z;
  isError : bool
}.

Abbreviation DiagKey := (N * SourceLocation)%type.
Abbreviation DiagGroup := (list Diagnostic * Z)%type.

(** ** The compilation *)

Record Compilation := mkCompilation {
  errorLimit : Z;
  symbols : gmap handle Symbol;
  scopes : gmap handle Scope;
  root : handle;
  compilationUnits : list handle;
  topInstances : list handle;
  definitionMap : gmap (string * handle) handle;
  packageMap : gmap string handle;
  globalInstantiations : gset string;
  deferredData : list DeferredMemberData;
  importData : list (list handle);
  knownNetTypes : gmap TokenKind NetType;
  attributeMap : gmap handle (list handle);
  diagMap : gmap DiagKey DiagGroup;
  numErrors : Z;
  tempDiag : Diagnostic;
  finalized : bool;
  finalizing : bool;
  sourceManager : option nat;
  cachedSemanticDiagnostics : option (list Diagnostic)
}.

Definition set_symbols (v : gmap handle Symbol) (c : Compilation) : Compilation :=
  mkCompilation (errorLimit c) v (scopes c) (root c) (compilationUnits c)
    (topInstances c) (definitionMap c) (packageMap c) (globalInstantiations c)
    (deferredData c) (importData c) (knownNetTypes c) (attributeMap c)
    (diagMap c) (numErrors c) (tempDiag c) (finalized c) (finalizing c)
    (sourceManager c) (cachedSemanticDiagnostics c).

Definition set_scopes (v : gmap handle Scope) (c : Compilation) : Compilation :=
  mkCompilation (errorLimit c) (symbols c) v (root c) (compilationUnits c)
    (topInstances c) (definitionMap c) (packageMap c) (globalInstantiations c)
    (deferredData c) (importData c) (knownNetTypes c) (attributeMap c)
    (diagMap c) (numErrors c) (tempDiag c) (finalized c) (finalizing c)
    (sourceManager c) (cachedSemanticDiagnostics c).

Definition set_topInstances (v : list handle) (c : Compilation) : Compilation :=
  mkCompilation (errorLimit c) (symbols c) (scopes c) (root c) (compilationUnits c)
    v (definitionMap c) (packageMap c) (globalInstantiations c)
    (deferredData c) (importData c) (knownNetTypes c) (attributeMap c)
    (diagMap c) (numErrors c) (tempDiag c) (finalized c) (finalizing c)
    (sourceManager c) (cachedSemanticDiagnostics c).

Definition set_definitionMap (v : gmap (string * handle) handle) (c : Compilation)
    : Compilation :=
  mkCompilation (errorLimit c) (symbols c) (scopes c) (root c) (compilationUnits c)
    (topInstances c) v (packageMap c) (globalInstantiations c)
    (deferredData c) (importData c) (knownNetTypes c) (attributeMap c)
    (diagMap c) (numErrors c) (tempDiag c) (finalized c) (finalizing c)
    (sourceManager c) (cachedSemanticDiagnostics c).

Definition set_globalInstantiations (v : gset string) (c : Compilation)
    : Compilation :=
  mkCompilation (errorLimit c) (symbols c) (scopes c) (root c) (compilationUnits c)
    (topInstances c) (definitionMap c) (packageMap c) v
    (deferredData c) (importData c) (knownNetTypes c) (attributeMap c)
    (diagMap c) (numErrors c) (tempDiag c) (finalized c) (finalizing c)
    (sourceManager c) (cachedSemanticDiagnostics c).

Definition set_deferredData (v : list DeferredMemberData) (c : Compilation) : Compilation :=
  mkCompilation (errorLimit c) (symbols c) (scopes c) (root c) (compilationUnits c)
    (topInstances c) (definitionMap c) (packageMap c) (globalInstantiations c)
    v (importData c) (knownNetTypes c) (attributeMap c)
    (diagMap c) (numErrors c) (tempDiag c) (finalized c) (finalizing c)
    (sourceManager c) (cachedSemanticDiagnostics c).

Definition set_importData (v : list (list handle)) (c : Compilation) : Compilation :=
  mkCompilation (errorLimit c) (symbols c) (scopes c) (root c) (compilationUnits c)
    (topInstances c) (definitionMap c) (packageMap c) (globalInstantiations c)
    (deferredData c) v (knownNetTypes c) (attributeMap c)
    (diagMap c) (numErrors c) (tempDiag c) (finalized c) (finalizing c)
    (sourceManager c) (cachedSemanticDiagnostics c).

Definition set_diagMap (v : gmap DiagKey DiagGroup) (c : Compilation) : Compilation :=
  mkCompilation (errorLimit c) (symbols c) (scopes c) (root c) (compilationUnits c)
    (topInstances c) (definitionMap c) (packageMap c) (globalInstantiations c)
    (deferredData c) (importData c) (knownNetTypes c) (attributeMap c)
    v (numErrors c) (tempDiag c) (finalized c) (finalizing c)
    (sourceManager c) (cachedSemanticDiagnostics c).

Definition set_numErrors (v : Z) (c : Compilation) : Compilation :=
  mkCompilation (errorLimit c) (symbols c) (scopes c) (root c) (compilationUnits c)
    (topInstances c) (definitionMap c) (packageMap c) (globalInstantiations c)
    (deferredData c) (importData c) (knownNetTypes c) (attributeMap c)
    (diagMap c) v (tempDiag c) (finalized c) (finalizing c)
    (sourceManager c) (cachedSemanticDiagnostics c).

Definition set_tempDiag (v : Diagnostic) (c : Compilation) : Compilation :=
  mkCompilation (errorLimit c) (symbols c) (scopes c) (root c) (compilationUnits c)
    (topInstances c) (definitionMap c) (packageMap c) (globalInstantiations c)
    (deferredData c) (importData c) (knownNetTypes c) (attributeMap c)
    (diagMap c) (numErrors c) v (finalized c) (finalizing c)
    (sourceManager c) (cachedSemanticDiagnostics c).

Definition set_finalized (v : bool) (c : Compilation) : Compilation :=
  mkCompilation (errorLimit c) (symbols c) (scopes c) (root c) (compilationUnits c)
    (topInstances c) (definitionMap c) (packageMap c) (globalInstantiations c)
    (deferredData c) (importData c) (knownNetTypes c) (attributeMap c)
    (diagMap c) (numErrors c) (tempDiag c) v (finalizing c)
    (sourceManager c) (cachedSemanticDiagnostics c).

Definition set_finalizing (v : bool) (c : Compilation) : Compilation :=
  mkCompilation (errorLimit c) (symbols c) (scopes c) (root c) (compilationUnits c)
    (topInstances c) (definitionMap c) (packageMap c) (globalInstantiations c)
    (deferredData c) (importData c) (knownNetTypes c) (attributeMap c)
    (diagMap c) (numErrors c) (tempDiag c) (finalized c) v
    (sourceManager c) (cachedSemanticDiagnostics c).

Definition set_cachedSemanticDiagnostics (v : option (list Diagnostic))
    (c : Compilation) : Compilation :=
  mkCompilation (errorLimit c) (symbols c) (scopes c) (root c) (compilationUnits c)
    (topInstances c) (definitionMap c) (packageMap c) (globalInstantiations c)
    (deferredData c) (importData c) (knownNetTypes c) (attributeMap c)
    (diagMap c) (numErrors c) (tempDiag c) (finalized c) (finalizing c)
    (sourceManager c) v.

(** Reading the store.  A handle always denotes its scope: a scope that was
    never written is the empty scope its constructor builds. *)
Definition readSymbol (syms : gmap handle Symbol) (h : handle) : Res Symbol :=
  match syms !! h with
  | Some s => Ok s
  | None => Err BadHandle
  end.

Definition getSymbol (c : Compilation) (h : handle) : Res Symbol :=
  readSymbol (symbols c) h.

Definition getScope (c : Compilation) (h : handle) : Scope :=
  default emptyScope (scopes c !! h).

Definition putSymbol (h : handle) (s : Symbol) (c : Compilation) : Compilation :=
  set_symbols (<[h := s]> (symbols c)) c.

Definition putScope (h : handle) (s : Scope) (c : Compilation) : Compilation :=
  set_scopes (<[h := s]> (scopes c)) c.

(** [compilation.emplace<T>(...)]: the arena hands out an object no live
    handle denotes. *)
Definition emplace (s : Symbol) (c : Compilation) : handle * Compilation :=
  let h := fresh (dom (symbols c)) in
  (h, putSymbol h s c).

(** ** LookupRefPoint (Scope.cpp, lines 14-35) *)

Module LookupRefPoint.

Definition max : LookupRefPoint := {| scope := None; index := UINT_MAX |}.
Definition min : LookupRefPoint := {| scope := None; index := 0 |}.

Definition before (symbol : Symbol) : LookupRefPoint :=
  {| scope := parentScope symbol; index := indexInScope symbol |}.

Definition after (symbol : Symbol) : LookupRefPoint :=
  {| scope := parentScope symbol; index := u32 (indexInScope symbol + 1) |}.

Definition startOfScope (s : handle) : LookupRefPoint :=
  {| scope := Some s; index := 0 |}.

Definition endOfScope (s : handle) : LookupRefPoint :=
  {| scope := Some s; index := UINT32_MAX |}.

(** [operator<] *)
Definition lt (p other : LookupRefPoint) : bool :=
  index p <? index other.

End LookupRefPoint.

(** ** LookupResult (Scope.cpp, lines 37-56) *)

Module LookupResult.

Definition clear (r : LookupResult) : LookupResult :=
  {| nameKind := Local; referencePoint := LookupRefPoint.max;
     resultKind := NotFound; resultWasImported := false;
     symbol := None; imports := [] |}.

Definition setSymbol (found : handle) (wasImported : bool)
    (r : LookupResult) : LookupResult :=
  {| nameKind := nameKind r; referencePoint := referencePoint r;
     resultKind := Found; resultWasImported := wasImported;
     symbol := Some found; imports := imports r |}.

Definition addPotentialImport (import : handle) (r : LookupResult) : LookupResult :=
  {| nameKind := nameKind r; referencePoint := referencePoint r;
     resultKind := match imports r with
                   | [] => resultKind r
                   | _ :: _ => AmbiguousImport
                   end;
     resultWasImported := resultWasImported r;
     symbol := symbol r; imports := imports r ++ [import] |}.

Definition set_referencePoint (p : LookupRefPoint) (r : LookupResult) : LookupResult :=
  {| nameKind := nameKind r; referencePoint := p;
     resultKind := resultKind r; resultWasImported := resultWasImported r;
     symbol := symbol r; imports := imports r |}.

(** Modelled from the spec: [referencePointMatters] is declared in Scope.h,
    which is not part of these sources: "Reference-point matters iff
    nameKind ∈ {Local, Scoped}". *)
Definition referencePointMatters (r : LookupResult) : bool :=
  match nameKind r with
  | Local | Scoped => true
  | Callable => false
  end.

End LookupResult.

(** ** External collaborators

    The symbol factories, the statement binder and the lazily evaluated
    members of symbols are outside these sources.  They are taken as
    parameters: each may read and change the whole compilation. *)

Inductive LazyField :=
  | DeclaredType_getType | DeclaredType_getInitializer | getValue
  | Attribute_getValue (attr : handle)
  | ExplicitImport_importedSymbol | WildcardImport_getPackage
  | ContinuousAssign_getAssignment | Port_getConnection
  | getBody_visit.

Record External := mkExternal {
  (* StatementBodiedScope::bindBody *)
  bindBody : handle -> SyntaxNode -> Compilation -> Res Compilation;
  (* InstanceSymbol::fromSyntax *)
  InstanceSymbol_fromSyntax :
    SyntaxNode -> handle -> Compilation -> Res (list handle * Compilation);
  (* GenerateBlockSymbol::fromSyntax *)
  GenerateBlockSymbol_fromSyntax :
    SyntaxNode -> handle -> Compilation -> Res (option handle * Compilation);
  (* GenerateBlockArraySymbol::fromSyntax *)
  GenerateBlockArraySymbol_fromSyntax :
    SyntaxNode -> handle -> Compilation -> Res (handle * Compilation);
  (* forcing a lazily evaluated member of a symbol *)
  forceLazy : LazyField -> handle -> Compilation -> Res Compilation;
  (* Symbol::getDeclaredType: does the symbol have a declared type *)
  getDeclaredType : Symbol -> bool;
  (* is_detected_v<getBody_t, T>: does the symbol's class have getBody *)
  hasGetBody : SymbolKind -> bool;
  (* PortSymbol::getConnectionAttributes, InterfacePortSymbol::connectionAttributes *)
  connectionAttributes : handle -> Compilation -> list handle;
  (* Diagnostics::sort *)
  sortDiagnostics : nat -> list Diagnostic -> list Diagnostic
}.

(** ** Compilation: the pools the scopes use (Compilation.cpp) *)

(** lines 459-464 *)
Definition getPackage (c : Compilation) (lookupName : string) : option handle :=
  packageMap c !! lookupName.

(** lines 466-468; [emplace] on a map keeps an existing binding. *)
Definition addPackage (package : handle) (c : Compilation) : Res Compilation :=
  p ← getSymbol c package;
  Ok (mkCompilation (errorLimit c) (symbols c) (scopes c) (root c)
        (compilationUnits c) (topInstances c) (definitionMap c)
        (match packageMap c !! name p with
         | Some _ => packageMap c
         | None => <[name p := package]> (packageMap c)
         end)
        (globalInstantiations c) (deferredData c) (importData c)
        (knownNetTypes c) (attributeMap c) (diagMap c) (numErrors c)
        (tempDiag c) (finalized c) (finalizing c) (sourceManager c)
        (cachedSemanticDiagnostics c)).

(** lines 774-778: the index is the scope's own field, passed by reference. *)
Definition getOrAddDeferredData (index : option nat) (c : Compilation)
    : option nat * Compilation :=
  match index with
  | Some i => (Some i, c)
  | None => (Some (length (deferredData c)),
             set_deferredData (deferredData c ++ [emptyDeferred]) c)
  end.

(** lines 780-785 *)
Definition trackImport (index : option nat) (import : handle) (c : Compilation)
    : option nat * Compilation :=
  match index with
  | Some i => (Some i, set_importData (alter (fun l => l ++ [import]) i (importData c)) c)
  | None => (Some (length (importData c)),
             set_importData (importData c ++ [[import]]) c)
  end.

(** lines 787-791 *)
Definition queryImports (c : Compilation) (index : option nat) : list handle :=
  match index with
  | None => []
  | Some i => default [] (importData c !! i)
  end.

(** lines 507-525 *)
Definition getAttributes (c : Compilation) (ptr : handle) : list handle :=
  match attributeMap c !! ptr with
  | None => []
  | Some l => l
  end.

(** ** Scope (Scope.cpp) *)

Definition set_link (idx : Z) (next : option handle) (s : Symbol) : Symbol :=
  {| data := data s; name := name s; location := location s;
     parentScope := parentScope s; nextInScope := next; indexInScope := idx |}.

Definition set_nextInScope (next : option handle) (s : Symbol) : Symbol :=
  set_link (indexInScope s) next s.

Definition set_parentScope (p : option handle) (s : Symbol) : Symbol :=
  {| data := data s; name := name s; location := location s;
     parentScope := p; nextInScope := nextInScope s;
     indexInScope := indexInScope s |}.

Definition set_members (first last : option handle) (s : Scope) : Scope :=
  {| firstMember := first; lastMember := last; nameMap := nameMap s;
     deferredMemberIndex := deferredMemberIndex s;
     importDataIndex := importDataIndex s |}.

Definition set_nameMap (m : gmap string handle) (s : Scope) : Scope :=
  {| firstMember := firstMember s; lastMember := lastMember s; nameMap := m;
     deferredMemberIndex := deferredMemberIndex s;
     importDataIndex := importDataIndex s |}.

Definition set_deferredMemberIndex (i : option nat) (s : Scope) : Scope :=
  {| firstMember := firstMember s; lastMember := lastMember s;
     nameMap := nameMap s; deferredMemberIndex := i;
     importDataIndex := importDataIndex s |}.

Definition set_importDataIndex (i : option nat) (s : Scope) : Scope :=
  {| firstMember := firstMember s; lastMember := lastMember s;
     nameMap := nameMap s; deferredMemberIndex := deferredMemberIndex s;
     importDataIndex := i |}.

(** [nameMap->emplace(name, member)]: an existing binding stays. *)
Definition emplaceName (n : string) (member : handle)
    (m : gmap string handle) : gmap string handle :=
  match m !! n with
  | Some _ => m
  | None => <[n := member]> m
  end.

Definition as_ExplicitImportSymbol (s : Symbol) : Res (option handle) :=
  match data s with
  | ExplicitImportSymbol i => Ok i
  | _ => Err BadCast
  end.

Definition as_TransparentMemberSymbol (s : Symbol) : Res handle :=
  match data s with
  | TransparentMemberSymbol w => Ok w
  | _ => Err BadCast
  end.

Definition as_WildcardImportSymbol (s : Symbol) : Res (option handle) :=
  match data s with
  | WildcardImportSymbol p => Ok p
  | _ => Err BadCast
  end.

Definition as_InstanceSymbol (s : Symbol) : Res handle :=
  match data s with
  | ModuleInstanceSymbol d | InterfaceInstanceSymbol d
  | ProgramInstanceSymbol d => Ok d
  | _ => Err BadCast
  end.

Module Scope.
Section WithExternal.
Context (ext : External).

(** lines 269-288.  The anchor is written before the member, as
    [std::exchange] does. *)
Definition insertMember (this member : handle) (at_ : option handle)
    (c : Compilation) : Res Compilation :=
  m ← getSymbol c member;
  _ ← ASSERT (bool_decide (parentScope m = None));
  _ ← ASSERT (bool_decide (nextInScope m = None));
  let sc := getScope c this in
  '(next, sc, c) ←
    match at_ with
    | None =>
        let m := set_link 1 (firstMember sc) m in
        Ok (nextInScope m,
            set_members (Some member) (lastMember sc) sc,
            putSymbol member m c)
    | Some a =>
        asym ← getSymbol c a;
        let idx := u32 (indexInScope asym +
                        (if bool_decide (Some a = lastMember sc) then 1 else 0)) in
        let m := set_link idx (nextInScope asym) m in
        Ok (nextInScope m, sc,
            putSymbol member m
              (putSymbol a (set_nextInScope (Some member) asym) c))
    end;
  let sc := match next with
            | None => set_members (firstMember sc) (Some member) sc
            | Some _ => sc
            end in
  m ← getSymbol c member;
  let c := putSymbol member (set_parentScope (Some this) m) c in
  let sc := if bool_decide (name m = EmptyString) then sc
            else set_nameMap (emplaceName (name m) member (nameMap sc)) sc in
  Ok (putScope this sc c).

(** [getOrAddDeferredData] of the scope (lines 265-267) followed by an
    update of the data it returns. *)
Definition updateDeferredData (this : handle)
    (f : DeferredMemberData -> DeferredMemberData) (c : Compilation)
    : Compilation :=
  let sc := getScope c this in
  let '(i, c) := getOrAddDeferredData (deferredMemberIndex sc) c in
  let c := putScope this (set_deferredMemberIndex i sc) c in
  match i with
  | Some i => set_deferredData (alter f i (deferredData c)) c
  | None => c
  end.

Definition registerTransparentType (insertion : option handle) (t : LazyType)
    (d : DeferredMemberData) : DeferredMemberData :=
  {| transparentTypes := transparentTypes d ++ [(insertion, t)];
     statement := statement d; members := members d |}.

Definition DeferredMemberData_addMember (node : SyntaxNode)
    (insertion : option handle) (d : DeferredMemberData) : DeferredMemberData :=
  {| transparentTypes := transparentTypes d; statement := statement d;
     members := members d ++ [(node, insertion)] |}.

(** lines 73-99 *)
Definition addMember (this symbol : handle) (c : Compilation) : Res Compilation :=
  s ← getSymbol c symbol;
  let lazyType :=
    match data s with
    | VariableSymbol t | FormalArgumentSymbol t => Some t
    | SubroutineSymbol t => Some t
    | ParameterSymbol t => Some t
    | _ => None
    end in
  let c :=
    match lazyType with
    | Some t =>
        match getSourceOrNull t with
        | Some SyEnumType =>
            updateDeferredData this
              (registerTransparentType (lastMember (getScope c this)) t) c
        | _ => c
        end
    | None => c
    end in
  insertMember this symbol (lastMember (getScope c this)) c.

(** lines 290-292 *)
Definition addDeferredMember (this : handle) (member : SyntaxNode)
    (c : Compilation) : Compilation :=
  updateDeferredData this
    (DeferredMemberData_addMember member (lastMember (getScope c this))) c.

(** lines 112-121, the branch of [addMembers] for [import p::*]: the
    import becomes a member and is tracked in the import pool. *)
Definition addWildcardImport (this import : handle) (c : Compilation)
    : Res Compilation :=
  c ← addMember this import c;
  let sc := getScope c this in
  let '(i, c) := trackImport (importDataIndex sc) import c in
  Ok (putScope this (set_importDataIndex i sc) c).

(** lines 304-308: the values of one enum type, spliced after the anchor
    in declaration order.  The wrapper takes the name and the location of
    the value it wraps. *)
Fixpoint spliceEnumValues (this : handle) (values : list handle)
    (insertAt : option handle) (c : Compilation) : Res Compilation :=
  match values with
  | [] => Ok c
  | value :: values =>
      v ← getSymbol c value;
      let '(wrapped, c) :=
        emplace (newSymbol (TransparentMemberSymbol value) (name v) (location v)) c in
      c ← insertMember this wrapped insertAt c;
      spliceEnumValues this values (Some wrapped) c
  end.

(** lines 299-310 *)
Fixpoint realizeTransparentTypes (this : handle)
    (types : list (option handle * LazyType)) (c : Compilation)
    : Res Compilation :=
  match types with
  | [] => Ok c
  | (insertAt, t) :: types =>
      c ← match get t with
          | Some (EnumType values) => spliceEnumValues this values insertAt c
          | _ => Ok c
          end;
      realizeTransparentTypes this types c
  end.

(** lines 329-333 *)
Fixpoint insertAll (this : handle) (syms : list handle) (last : option handle)
    (c : Compilation) : Res Compilation :=
  match syms with
  | [] => Ok c
  | s :: syms =>
      c ← insertMember this s last c;
      insertAll this syms (Some s) c
  end.

(** lines 322-353 *)
Fixpoint realizeMembers (this : handle)
    (nodes : list (SyntaxNode * option handle)) (c : Compilation)
    : Res Compilation :=
  match nodes with
  | [] => Ok c
  | (node, insertionPoint) :: nodes =>
      c ← match syntaxKind node with
          | SyHierarchyInstantiation =>
              '(syms, c) ← InstanceSymbol_fromSyntax ext node this c;
              insertAll this syms insertionPoint c
          | SyIfGenerate =>
              '(block, c) ← GenerateBlockSymbol_fromSyntax ext node this c;
              match block with
              | Some b => insertMember this b insertionPoint c
              | None => Ok c
              end
          | SyLoopGenerate =>
              '(block, c) ← GenerateBlockArraySymbol_fromSyntax ext node this c;
              insertMember this block insertionPoint c
          | _ => Err Unreachable
          end;
      realizeMembers this nodes c
  end.

(** lines 294-355 *)
Definition realizeDeferredMembers (this : handle) (c : Compilation)
    : Res Compilation :=
  let sc := getScope c this in
  _ ← ASSERT (bool_decide (deferredMemberIndex sc ≠ None));
  i ← deref (deferredMemberIndex sc);
  deferred ← match deferredData c !! i with
             | Some d => Ok d
             | None => Err BadHandle
             end;
  let c := putScope this (set_deferredMemberIndex None sc) c in
  c ← realizeTransparentTypes this (transparentTypes deferred) c;
  match statement deferred with
  | Some syntax => bindBody ext this syntax c
  | None => realizeMembers this (members deferred) c
  end.

(** Modelled from the spec: [ensureMembers] is declared in Scope.h, which
    is not part of these sources: "invoked at the top of every lookup;
    triggers realization once". *)
Definition ensureMembers (this : handle) (c : Compilation) : Res Compilation :=
  match deferredMemberIndex (getScope c this) with
  | Some _ => realizeDeferredMembers this c
  | None => Ok c
  end.

(** lines 249-263 *)
Definition lookupDirect (this : handle) (searchName : string)
    (c : Compilation) : Res (option handle * Compilation) :=
  if bool_decide (searchName = EmptyString) then Ok (None, c)
  else
    c ← ensureMembers this c;
    match nameMap (getScope c this) !! searchName with
    | Some h =>
        s ← getSymbol c h;
        if bool_decide (kind s ≠ SkExplicitImport) then Ok (Some h, c)
        else Ok (None, c)
    | None => Ok (None, c)
    end.

(** lines 198-209: the symbol found is unwrapped and set as the result *)
Definition setFound (h : handle) (sym : Symbol) (result : LookupResult)
    : Res LookupResult :=
  match kind sym with
  | SkExplicitImport =>
      imported ← as_ExplicitImportSymbol sym;
      target ← deref imported;
      Ok (LookupResult.setSymbol target true result)
  | SkTransparentMember =>
      w ← as_TransparentMemberSymbol sym;
      Ok (LookupResult.setSymbol w false result)
  | _ => Ok (LookupResult.setSymbol h false result)
  end.

(** lines 186-212, the direct search: [Some] is the result the search
    returns with, [None] means that the lookup goes on. *)
Definition lookupLocal (this : handle) (searchName : string)
    (result : LookupResult) (c : Compilation) : Res (option LookupResult) :=
  match nameMap (getScope c this) !! searchName with
  | Some h =>
      sym ← getSymbol c h;
      let locationGood :=
        if LookupResult.referencePointMatters result
        then LookupRefPoint.lt (LookupRefPoint.before sym) (referencePoint result)
        else true in
      if locationGood then
        r ← setFound h sym result;
        Ok (Some r)
      else Ok None
  | None => Ok None
  end.

(** lines 216-227, the loop over the wildcard imports *)
Fixpoint lookupImports (imports_ : list handle) (searchName : string)
    (importResults : list (handle * handle)) (result : LookupResult)
    (c : Compilation)
    : Res (list (handle * handle) * LookupResult * Compilation) :=
  match imports_ with
  | [] => Ok (importResults, result, c)
  | import :: rest =>
      isym ← getSymbol c import;
      if LookupRefPoint.lt (referencePoint result) (LookupRefPoint.after isym)
      then Ok (importResults, result, c)
      else
        p ← as_WildcardImportSymbol isym;
        pkg ← deref p;
        '(found, c) ← lookupDirect pkg searchName c;
        match found with
        | Some s =>
            lookupImports rest searchName (importResults ++ [(import, s)])
              (LookupResult.addPotentialImport s result) c
        | None => lookupImports rest searchName importResults result c
        end
  end.

(** lines 183-247 *)
Fixpoint lookup (fuel : nat) (this : handle) (searchName : string)
    (result : LookupResult) (c : Compilation)
    : Res (LookupResult * Compilation) :=
  match fuel with
  | O => Err OutOfFuel
  | S fuel =>
      c ← ensureMembers this c;
      local ← lookupLocal this searchName result c;
      match local with
      | Some r => Ok (r, c)
      | None =>
          '(importResults, result, c) ←
            lookupImports (queryImports c (importDataIndex (getScope c this)))
              searchName [] result c;
          match importResults with
          | [(_, s)] => Ok (LookupResult.setSymbol s true result, c)
          | _ :: _ => Ok (result, c)
          | [] =>
              thisSym ← getSymbol c this;
              if bool_decide (kind thisSym = SkRoot) then
                match nameKind result with
                | Scoped =>
                    pkg ← deref (getPackage c searchName);
                    Ok (LookupResult.setSymbol pkg false result, c)
                | _ => Ok (result, c)
                end
              else
                let result :=
                  LookupResult.set_referencePoint
                    (LookupRefPoint.after thisSym) result in
                parent ← deref (parentScope thisSym);
                lookup fuel parent searchName result c
          end
      end
  end.

End WithExternal.
End Scope.

(** ** Compilation: construction and net types *)

(** The text of a net-type keyword ([LexerFacts::getTokenKindText], which is
    not part of these sources): the keyword as it is written. *)
Definition makeNetType (k : NetKind) (text : string) : NetType :=
  {| netKind := k; netName := text; netDataType := logicType |}.

(** lines 203-221: the net-type table the constructor builds *)
Definition initialNetTypes : gmap TokenKind NetType :=
  <[TkUnknown := makeNetType NkUnknown "<error>"]>
  (<[UWireKeyword := makeNetType UWire "uwire"]>
  (<[Supply1Keyword := makeNetType Supply1 "supply1"]>
  (<[Supply0Keyword := makeNetType Supply0 "supply0"]>
  (<[TriRegKeyword := makeNetType TriReg "trireg"]>
  (<[Tri1Keyword := makeNetType Tri1 "tri1"]>
  (<[Tri0Keyword := makeNetType Tri0 "tri0"]>
  (<[TriOrKeyword := makeNetType TriOr "trior"]>
  (<[TriAndKeyword := makeNetType TriAnd "triand"]>
  (<[TriKeyword := makeNetType Tri "tri"]>
  (<[WOrKeyword := makeNetType WOr "wor"]>
  (<[WAndKeyword := makeNetType WAnd "wand"]>
  (<[WireKeyword := makeNetType Wire "wire"]> ∅)))))))))))).

Definition noDiagnostic : Diagnostic :=
  {| code := 0%N; diagLocation := mkLoc 0 0; diagSymbol := None;
     coalesceCount := None; isError := false |}.

(** lines 158-252: the constructor, as far as the state modelled here goes.
    The root symbol is the first object of the store. *)
Definition newCompilation (optErrorLimit : Z) : Compilation :=
  {| errorLimit := optErrorLimit;
     symbols := {[ 0%nat := newSymbol RootSymbol EmptyString (mkLoc 0 0) ]};
     scopes := ∅;
     root := 0%nat;
     compilationUnits := [];
     topInstances := [];
     definitionMap := ∅;
     packageMap := ∅;
     globalInstantiations := ∅;
     deferredData := [];
     importData := [];
     knownNetTypes := initialNetTypes;
     attributeMap := ∅;
     diagMap := ∅;
     numErrors := 0;
     tempDiag := noDiagnostic;
     finalized := false;
     finalizing := false;
     sourceManager := None;
     cachedSemanticDiagnostics := None |}.

(** lines 764-768.  [*knownNetTypes.find(TokenKind::Unknown)->second]
    dereferences the iterator [find] returns. *)
Definition getNetType (c : Compilation) (k : TokenKind) : Res NetType :=
  match knownNetTypes c !! k with
  | Some t => Ok t
  | None => deref (knownNetTypes c !! TkUnknown)
  end.

(** ** Compilation: definitions and the root *)

(** lines 432-442 *)
Definition addDefinition (definition : handle) (c : Compilation) : Res Compilation :=
  d ← getSymbol c definition;
  _ ← ASSERT (bool_decide (parentScope d ≠ None));
  sc ← deref (parentScope d);
  ssym ← getSymbol c sc;
  let key := if bool_decide (kind ssym = SkCompilationUnit)
             then (name d, root c) else (name d, sc) in
  Ok (set_definitionMap
        (match definitionMap c !! key with
         | Some _ => definitionMap c
         | None => <[key := definition]> (definitionMap c)
         end) c).

(** lines 299-300: a name a syntax tree instantiates somewhere *)
Definition addGlobalInstantiation (n : string) (c : Compilation) : Compilation :=
  set_globalInstantiations ({[ n ]} ∪ globalInstantiations c) c.

(** lines 340-358: is this entry of the definition map a top-level
    definition.  The scope of the key is tested before the definition is
    looked at. *)
Definition isTopDefinition (c : Compilation)
    (entry : (string * handle) * handle) : Res bool :=
  let '((_, keyScope), definition) := entry in
  if bool_decide (keyScope ≠ root c) then Ok false
  else
    d ← getSymbol c definition;
    match data d with
    | DefinitionSymbol dk params =>
        if bool_decide (dk ≠ DkModule) then Ok false
        else if bool_decide (name d ∈ globalInstantiations c) then Ok false
        else Ok (forallb hasDefault params)
    | _ => Err BadCast
    end.

(** lines 333-359 *)
Fixpoint collectTopDefinitions (c : Compilation)
    (entries : list ((string * handle) * handle)) (topDefinitions : list handle)
    : Res (list handle) :=
  match entries with
  | [] => Ok topDefinitions
  | e :: es =>
      isTopDefinition c e ≫= fun top : bool =>
      collectTopDefinitions c es
        (if top then topDefinitions ++ [e.2] else topDefinitions)
  end.

Definition symbolName (c : Compilation) (h : handle) : string :=
  match symbols c !! h with
  | Some s => name s
  | None => EmptyString
  end.

(** The order [std::sort] leaves the definitions in (lines 363-364): the
    comparison is [a->name < b->name] on [string_view], byte by byte. *)
Definition nameLe (c : Compilation) (a b : handle) : Prop :=
  Is_true (String.leb (symbolName c a) (symbolName c b)).

#[global] Instance nameLe_dec c a b : Decision (nameLe c a b).
Proof. unfold nameLe. apply _. Defined.

(** Modelled from the spec: [ModuleInstanceSymbol::instantiate] is not part
    of these sources: "Instantiates each as a top-level module instance".
    The instance is a new symbol that refers to its definition. *)
Definition ModuleInstanceSymbol_instantiate (c : Compilation) (n : string)
    (l : SourceLocation) (definition : handle) : handle * Compilation :=
  emplace (newSymbol (ModuleInstanceSymbol definition) n l) c.

(** lines 366-371 *)
Fixpoint instantiateTop (defs : list handle) (topList : list handle)
    (c : Compilation) : Res (list handle * Compilation) :=
  match defs with
  | [] => Ok (topList, c)
  | def :: defs =>
      d ← getSymbol c def;
      let '(instance, c) :=
        ModuleInstanceSymbol_instantiate c (name d) (location d) def in
      c ← Scope.addMember (root c) instance c;
      instantiateTop defs (topList ++ [instance]) c
  end.

(** lines 322-377.  The scope guard clears [finalizing] on the way out. *)
Definition getRoot (c : Compilation) : Res Compilation :=
  if finalized c then Ok c
  else
    _ ← ASSERT (negb (finalizing c));
    let c := set_finalizing true c in
    topDefinitions ← collectTopDefinitions c (map_to_list (definitionMap c)) [];
    let topDefinitions := merge_sort (nameLe c) topDefinitions in
    '(topList, c) ← instantiateTop topDefinitions [] c;
    Ok (set_finalizing false (set_finalized true (set_topInstances topList c))).

(** ** Compilation: the diagnostic store *)

(** lines 131-138.  [&scope->asSymbol()] is the handle of the scope. *)
Fixpoint getInstanceOrDef (fuel : nat) (syms : gmap handle Symbol)
    (sym : option handle) : Res (option handle) :=
  match fuel with
  | O => Err OutOfFuel
  | S fuel =>
      match sym with
      | None => Ok None
      | Some h =>
          s ← readSymbol syms h;
          if bool_decide (kind s ≠ SkDefinition) && negb (InstanceSymbol_isKind (kind s))
          then getInstanceOrDef fuel syms (parentScope s)
          else Ok (Some h)
      end
  end.

(** lines 660-670 *)
Fixpoint isSuppressed (fuel : nat) (syms : gmap handle Symbol)
    (sym : option handle) : Res bool :=
  match fuel with
  | O => Err OutOfFuel
  | S fuel =>
      match sym with
      | None => Ok false
      | Some h =>
          s ← readSymbol syms h;
          match data s with
          | GenerateBlockSymbol false => Ok true
          | _ => isSuppressed fuel syms (parentScope s)
          end
      end
  end.

(** lines 573-584 *)
Fixpoint isInsideDef (fuel : nat) (syms : gmap handle Symbol)
    (sym : handle) : Res bool :=
  match fuel with
  | O => Err OutOfFuel
  | S fuel =>
      s ← readSymbol syms sym;
      if bool_decide (kind s = SkDefinition) then Ok true
      else
        match parentScope s with
        | None => Ok false
        | Some p => isInsideDef fuel syms p
        end
  end.

(** What the reference [addDiag] returns refers to. *)
Inductive DiagRef :=
  | RefTempDiag
  | RefDiagList (key : DiagKey) (i : nat).

Definition readDiagRef (c : Compilation) (r : DiagRef) : option Diagnostic :=
  match r with
  | RefTempDiag => Some (tempDiag c)
  | RefDiagList key i => diagMap c !! key ≫= fun g : DiagGroup => g.1 !! i
  end.

Definition isDefinitionHandle (syms : gmap handle Symbol) (inst : option handle) : bool :=
  match inst with
  | Some i =>
      match syms !! i with
      | Some s => bool_decide (kind s = SkDefinition)
      | None => false
      end
  | None => false
  end.

(** lines 659-705 *)
Definition addDiag (fuel : nat) (diag : Diagnostic) (c : Compilation)
    : Res (DiagRef * Compilation) :=
  _ ← ASSERT (bool_decide (diagSymbol diag ≠ None));
  _ ← ASSERT (validLocation (diagLocation diag));
  isSuppressed fuel (symbols c) (diagSymbol diag) ≫= fun suppressed : bool =>
  if suppressed then Ok (RefTempDiag, set_tempDiag diag c)
  else
    inst ← getInstanceOrDef fuel (symbols c) (diagSymbol diag);
    let key := (code diag, diagLocation diag) in
    match diagMap c !! key with
    | Some (diagList, defIndex) =>
        let diagList := diagList ++ [diag] in
        let defIndex := if isDefinitionHandle (symbols c) inst
                        then usize (Z.of_nat (length diagList) - 1)
                        else defIndex in
        Ok (RefDiagList key (length diagList - 1)%nat,
            set_diagMap (<[key := (diagList, defIndex)]> (diagMap c)) c)
    | None =>
        let c := if isError diag then set_numErrors (usize (numErrors c + 1)) c
                 else c in
        let newEntry := ([diag], if isDefinitionHandle (symbols c) inst
                                 then 0 else SIZE_MAX) in
        Ok (RefDiagList key 0%nat,
            set_diagMap (<[key := newEntry]> (diagMap c)) c)
    end.

(** lines 654-657 *)
Fixpoint addDiagnostics (fuel : nat) (diagnostics : list Diagnostic)
    (c : Compilation) : Res Compilation :=
  match diagnostics with
  | [] => Ok c
  | d :: ds =>
      '(_, c) ← addDiag fuel d c;
      addDiagnostics fuel ds c
  end.

Definition set_coalesced (sym : option handle) (count : Z) (d : Diagnostic)
    : Diagnostic :=
  {| code := code d; diagLocation := diagLocation d; diagSymbol := sym;
     coalesceCount := Some count; isError := isError d |}.

(** lines 600-619: the walk over the occurrences of one group.  [count]
    counts elements of the vector, so it stays below its size. *)
Fixpoint scanOccurrences (fuel : nat) (syms : gmap handle Symbol)
    (diagList : list Diagnostic) (found : option Diagnostic)
    (inst : option handle) (count : Z)
    : Res (option Diagnostic * option handle * Z) :=
  match diagList with
  | [] => Ok (found, inst, count)
  | diag :: rest =>
      sym ← getInstanceOrDef fuel syms (diagSymbol diag);
      match sym with
      | None => scanOccurrences fuel syms rest found inst count
      | Some sh =>
          s ← readSymbol syms sh;
          match parentScope s with
          | None => scanOccurrences fuel syms rest found inst count
          | Some ph =>
              isInsideDef fuel syms sh ≫= fun inside : bool =>
              if inside then scanOccurrences fuel syms rest found inst count
              else
                let count := count + 1 in
                parent ← readSymbol syms ph;
                if bool_decide (kind parent ≠ SkRoot)
                   && bool_decide (kind parent ≠ SkCompilationUnit)
                then scanOccurrences fuel syms rest (Some diag) (Some sh) count
                else scanOccurrences fuel syms rest found inst count
          end
      end
  end.

Definition front (diagList : list Diagnostic) : Res Diagnostic :=
  match diagList with
  | d :: _ => Ok d
  | [] => Err OutOfRange
  end.

(** [visitor.instanceCount[def]]: a missing key reads as zero. *)
Definition countOf (instanceCount : gmap handle Z) (def : handle) : Z :=
  default 0 (instanceCount !! def).

(** lines 588-631: the diagnostic issued for one group *)
Definition coalesceGroup (fuel : nat) (syms : gmap handle Symbol)
    (instanceCount : gmap handle Z) (group : DiagGroup) : Res Diagnostic :=
  let '(diagList, definitionIndex) := group in
  if definitionIndex <? Z.of_nat (length diagList) then
    match diagList !! Z.to_nat definitionIndex with
    | Some d => Ok d
    | None => Err OutOfRange
    end
  else
    '(found, inst, count) ← scanOccurrences fuel syms diagList None None 0;
    match found, inst with
    | Some f, Some i =>
        isym ← readSymbol syms i;
        def ← as_InstanceSymbol isym;
        if count <? countOf instanceCount def then
          sym ← getInstanceOrDef fuel syms (Some i);
          Ok (set_coalesced sym count f)
        else front diagList
    | _, _ => front diagList
    end.

(** lines 586-632 *)
Fixpoint coalesceGroups (fuel : nat) (syms : gmap handle Symbol)
    (instanceCount : gmap handle Z) (groups : list DiagGroup)
    : Res (list Diagnostic) :=
  match groups with
  | [] => Ok []
  | g :: gs =>
      d ← coalesceGroup fuel syms instanceCount g;
      ds ← coalesceGroups fuel syms instanceCount gs;
      Ok (d :: ds)
  end.

Definition coalesceDiagnostics (fuel : nat) (c : Compilation)
    (instanceCount : gmap handle Z) : Res (list Diagnostic) :=
  coalesceGroups fuel (symbols c) instanceCount
    (snd <$> map_to_list (diagMap c)).

(** ** The diagnostic visitor (Compilation.cpp, lines 23-129) *)

Record VisitorState := mkVisitor {
  compilation : Compilation;
  instanceCount : gmap handle Z;
  inDef : bool
}.

Definition set_compilation (c : Compilation) (v : VisitorState) : VisitorState :=
  {| compilation := c; instanceCount := instanceCount v; inDef := inDef v |}.

Definition set_inDef (b : bool) (v : VisitorState) : VisitorState :=
  {| compilation := compilation v; instanceCount := instanceCount v; inDef := b |}.

Definition countInstance (def : handle) (v : VisitorState) : VisitorState :=
  {| compilation := compilation v;
     instanceCount := <[def := usize (countOf (instanceCount v) def + 1)]>
                        (instanceCount v);
     inDef := inDef v |}.

(** lines 569-570: the limit the visitor is built with *)
Definition effectiveErrorLimit (optErrorLimit : Z) : Z :=
  if optErrorLimit =? 0 then UINT32_MAX else optErrorLimit.

Module DiagnosticVisitor.
Section WithExternal.
Context (ext : External) (limit : Z).

Definition overLimit (v : VisitorState) : bool :=
  numErrors (compilation v) >? limit.

Definition force (f : LazyField) (h : handle) (v : VisitorState)
    : Res VisitorState :=
  c ← forceLazy ext f h (compilation v);
  Ok (set_compilation c v).

Fixpoint forceAttributes (attrs : list handle) (h : handle) (v : VisitorState)
    : Res VisitorState :=
  match attrs with
  | [] => Ok v
  | a :: attrs =>
      v ← force (Attribute_getValue a) h v;
      forceAttributes attrs h v
  end.

(** lines 37-51: the lazy members of a symbol *)
Definition forceSymbol (h : handle) (v : VisitorState) : Res VisitorState :=
  sym ← getSymbol (compilation v) h;
  v ← (if getDeclaredType ext sym then
         v ← force DeclaredType_getType h v;
         force DeclaredType_getInitializer h v
       else Ok v);
  v ← (match kind sym with
       | SkParameter | SkEnumValue => force getValue h v
       | _ => Ok v
       end);
  forceAttributes (getAttributes (compilation v) h) h v.

(** lines 53-54 *)
Definition visitBody (h : handle) (v : VisitorState) : Res VisitorState :=
  sym ← getSymbol (compilation v) h;
  if hasGetBody ext (kind sym) then force getBody_visit h v else Ok v.

(** Modelled from the spec: [visitDefault] is declared in ASTVisitor.h,
    which is not part of these sources: "Visits children via the default
    traversal".  The children of a scope are its members, in chain order. *)
Fixpoint visitMembers (fuel : nat)
    (visitChild : handle -> VisitorState -> Res VisitorState)
    (cur : option handle) (v : VisitorState) : Res VisitorState :=
  match fuel with
  | O => Err OutOfFuel
  | S fuel =>
      match cur with
      | None => Ok v
      | Some m =>
          v ← visitChild m v;
          s ← getSymbol (compilation v) m;
          visitMembers fuel visitChild (nextInScope s) v
      end
  end.

Definition visitDefault (fuel : nat)
    (visitChild : handle -> VisitorState -> Res VisitorState)
    (h : handle) (v : VisitorState) : Res VisitorState :=
  c ← Scope.ensureMembers ext h (compilation v);
  visitMembers fuel visitChild (firstMember (getScope c h))
    (set_compilation c v).

(** lines 32-58 *)
Definition handleDefault (fuel : nat)
    (visitChild : handle -> VisitorState -> Res VisitorState)
    (h : handle) (v : VisitorState) : Res (bool * VisitorState) :=
  if overLimit v then Ok (false, v)
  else
    v ← forceSymbol h v;
    v ← visitBody h v;
    v ← visitDefault fuel visitChild h v;
    Ok (true, v).

(** the body of the handlers that force one more member after
    [handleDefault] (lines 60-76) *)
Definition handleThen (fuel : nat)
    (visitChild : handle -> VisitorState -> Res VisitorState)
    (after : handle -> VisitorState -> Res VisitorState)
    (h : handle) (v : VisitorState) : Res VisitorState :=
  handleDefault fuel visitChild h v ≫= fun r : bool * VisitorState =>
  if r.1 then after h r.2 else Ok r.2.

(** lines 87-94 *)
Definition handleInstance (fuel : nat)
    (visitChild : handle -> VisitorState -> Res VisitorState)
    (def : handle) (h : handle) (v : VisitorState) : Res VisitorState :=
  if overLimit v then Ok v
  else
    let v := if inDef v then v else countInstance def v in
    r ← handleDefault fuel visitChild h v;
    Ok r.2.

(** [symbol.visit(visitor)]: the handler of the symbol's class *)
Fixpoint visit (fuel : nat) (h : handle) (v : VisitorState) : Res VisitorState :=
  match fuel with
  | O => Err OutOfFuel
  | S fuel =>
      sym ← getSymbol (compilation v) h;
      match data sym with
      | ExplicitImportSymbol _ =>
          handleThen fuel (visit fuel) (force ExplicitImport_importedSymbol) h v
      | WildcardImportSymbol _ =>
          handleThen fuel (visit fuel) (force WildcardImport_getPackage) h v
      | ContinuousAssignSymbol =>
          handleThen fuel (visit fuel) (force ContinuousAssign_getAssignment) h v
      | DefinitionSymbol _ _ =>
          if overLimit v then Ok v
          else
            let saved := inDef v in
            r ← handleDefault fuel (visit fuel) h (set_inDef true v);
            Ok (set_inDef saved r.2)
      | ModuleInstanceSymbol def | ProgramInstanceSymbol def
      | InterfaceInstanceSymbol def =>
          handleInstance fuel (visit fuel) def h v
      | PortSymbol =>
          handleThen fuel (visit fuel)
            (fun h v =>
               v ← force Port_getConnection h v;
               forceAttributes (connectionAttributes ext h (compilation v)) h v)
            h v
      | InterfacePortSymbol =>
          handleThen fuel (visit fuel)
            (fun h v =>
               forceAttributes (connectionAttributes ext h (compilation v)) h v)
            h v
      | GenerateBlockSymbol isInstantiated =>
          if negb isInstantiated then Ok v
          else
            r ← handleDefault fuel (visit fuel) h v;
            Ok r.2
      | _ =>
          r ← handleDefault fuel (visit fuel) h v;
          Ok r.2
      end
  end.

End WithExternal.
End DiagnosticVisitor.

(** lines 563-639 *)
Definition getSemanticDiagnostics (ext : External) (fuel : nat) (c : Compilation)
    : Res (list Diagnostic * Compilation) :=
  match cachedSemanticDiagnostics c with
  | Some cached => Ok (cached, c)
  | None =>
      let limit := effectiveErrorLimit (errorLimit c) in
      c ← getRoot c;
      v ← DiagnosticVisitor.visit ext limit fuel (root c)
            {| compilation := c; instanceCount := ∅; inDef := false |};
      let c := compilation v in
      results ← coalesceDiagnostics fuel c (instanceCount v);
      let results := match sourceManager c with
                     | Some sm => sortDiagnostics ext sm results
                     | None => results
                     end in
      Ok (results, set_cachedSemanticDiagnostics (Some results) c)
  end.

(** ** Compilation: attributes, definitions by name, script scopes *)

Definition set_attributeMap (v : gmap handle (list handle)) (c : Compilation)
    : Compilation :=
  mkCompilation (errorLimit c) (symbols c) (scopes c) (root c) (compilationUnits c)
    (topInstances c) (definitionMap c) (packageMap c) (globalInstantiations c)
    (deferredData c) (importData c) (knownNetTypes c) v
    (diagMap c) (numErrors c) (tempDiag c) (finalized c) (finalizing c)
    (sourceManager c) (cachedSemanticDiagnostics c).

(** lines 492-505.  The three overloads store under the address of the
    symbol, statement or expression: [attributeMap[ptr] = attributes]
    replaces what was stored. *)
Definition setAttributes (ptr : handle) (attributes : list handle)
    (c : Compilation) : Compilation :=
  set_attributeMap (<[ptr := attributes]> (attributeMap c)) c.

(** [Symbol::getLexicalScope] is outside these sources: it is a parameter,
    which may read the whole compilation. *)
Section LexicalScope.
Context (getLexicalScope : Compilation -> Symbol -> option handle).

(** lines 389-405.  [searchScope->asSymbol()] is the symbol that owns the
    scope. *)
Fixpoint getDefinition (fuel : nat) (c : Compilation) (lookupName : string)
    (searchScope : option handle) : Res (option handle) :=
  match fuel with
  | O => Err OutOfFuel
  | S fuel =>
      match searchScope with
      | None => Ok None
      | Some sc =>
          match definitionMap c !! (lookupName, sc) with
          | Some d => Ok (Some d)
          | None =>
              sym ← getSymbol c sc;
              if bool_decide (kind sym = SkRoot) then Ok None
              else getDefinition fuel c lookupName (getLexicalScope c sym)
          end
      end
  end.

(** lines 407-409 *)
Definition getDefinition_root (fuel : nat) (c : Compilation)
    (lookupName : string) : Res (option handle) :=
  getDefinition fuel c lookupName (Some (root c)).

End LexicalScope.

(** lines 544-548.  [unitSymbol] is the symbol the constructor of
    [CompilationUnitSymbol], which is outside these sources, builds. *)
Definition createScriptScope (unitSymbol : Symbol) (c : Compilation)
    : Res (handle * Compilation) :=
  let '(unit, c) := emplace unitSymbol c in
  c ← Scope.addMember (root c) unit c;
  Ok (unit, c).

(** ** Compilation: the registry of system subroutines (lines 470-490) *)

Definition SymbolKind_encode (k : SymbolKind) : nat :=
  match k with
  | SkUnknown => 0 | SkRoot => 1 | SkCompilationUnit => 2 | SkDefinition => 3
  | SkPackage => 4 | SkModuleInstance => 5 | SkInterfaceInstance => 6
  | SkProgramInstance => 7 | SkGenerateBlock => 8 | SkGenerateBlockArray => 9
  | SkVariable => 10 | SkFormalArgument => 11 | SkSubroutine => 12
  | SkParameter => 13 | SkEnumValue => 14 | SkEnumType => 15
  | SkExplicitImport => 16 | SkWildcardImport => 17
  | SkTransparentMember => 18 | SkPort => 19 | SkInterfacePort => 20
  | SkContinuousAssign => 21 | SkProceduralBlock => 22 | SkAttribute => 23
  | SkOther n => (24 + n)%nat
  end.

Definition SymbolKind_decode (n : nat) : SymbolKind :=
  match n with
  | 0 => SkUnknown | 1 => SkRoot | 2 => SkCompilationUnit | 3 => SkDefinition
  | 4 => SkPackage | 5 => SkModuleInstance | 6 => SkInterfaceInstance
  | 7 => SkProgramInstance | 8 => SkGenerateBlock | 9 => SkGenerateBlockArray
  | 10 => SkVariable | 11 => SkFormalArgument | 12 => SkSubroutine
  | 13 => SkParameter | 14 => SkEnumValue | 15 => SkEnumType
  | 16 => SkExplicitImport | 17 => SkWildcardImport
  | 18 => SkTransparentMember | 19 => SkPort | 20 => SkInterfacePort
  | 21 => SkContinuousAssign | 22 => SkProceduralBlock | 23 => SkAttribute
  | _ => SkOther (n - 24)
  end%nat.

Lemma SymbolKind_decode_encode k : SymbolKind_decode (SymbolKind_encode k) = k.
Proof.
  destruct k as [| | | | | | | | | | | | | | | | | | | | | | | |n];
    try reflexivity.
  unfold SymbolKind_encode, SymbolKind_decode.
  simpl. f_equal. apply Nat.sub_0_r.
Qed.

#[global] Instance SymbolKind_countable : Countable SymbolKind :=
  inj_countable' SymbolKind_encode SymbolKind_decode SymbolKind_decode_encode.

(** A system subroutine, as far as the registry looks at it: its name and
    the object itself. *)
Record SystemSubroutine := mkSubroutine {
  subroutineName : string;
  subroutineObject : nat
}.

(** The two maps of the compilation that hold the system subroutines;
    nothing else in these sources reads them. *)
Record SystemRegistry := mkRegistry {
  subroutineMap : gmap string SystemSubroutine;
  methodMap : gmap (string * SymbolKind) SystemSubroutine
}.

Definition emptyRegistry : SystemRegistry :=
  {| subroutineMap := ∅; methodMap := ∅ |}.

(** [map.emplace(key, value)]: an existing binding stays. *)
Definition emplaceKey `{Countable K} {V} (k : K) (v : V) (m : gmap K V)
    : gmap K V :=
  match m !! k with
  | Some _ => m
  | None => <[k := v]> m
  end.

(** lines 470-472 *)
Definition addSystemSubroutine (subroutine : SystemSubroutine)
    (r : SystemRegistry) : SystemRegistry :=
  {| subroutineMap := emplaceKey (subroutineName subroutine) subroutine
                        (subroutineMap r);
     methodMap := methodMap r |}.

(** lines 474-476 *)
Definition addSystemMethod (typeKind : SymbolKind) (method : SystemSubroutine)
    (r : SystemRegistry) : SystemRegistry :=
  {| subroutineMap := subroutineMap r;
     methodMap := emplaceKey (subroutineName method, typeKind) method
                    (methodMap r) |}.

(** lines 478-483 *)
Definition getSystemSubroutine (r : SystemRegistry) (n : string)
    : option SystemSubroutine :=
  subroutineMap r !! n.

(** lines 485-490 *)
Definition getSystemMethod (r : SystemRegistry) (typeKind : SymbolKind)
    (n : string) : option SystemSubroutine :=
  methodMap r !! (n, typeKind).

(** * Vocabulary of the properties *)

(** The twelve net-type keywords the constructor registers. *)
Definition isNetTypeKeyword (t : TokenKind) : bool :=
  match t with
  | WireKeyword | WAndKeyword | WOrKeyword | TriKeyword | TriAndKeyword
  | TriOrKeyword | Tri0Keyword | Tri1Keyword | TriRegKeyword
  | Supply0Keyword | Supply1Keyword | UWireKeyword => true
  | _ => false
  end.

(** The symbol [h] ([n = 0]), or the symbol [n] parent scopes up from it, is
    a generate block that was not instantiated. *)
Inductive InUninstantiatedBlock (syms : gmap handle Symbol)
    : nat -> handle -> Prop :=
  | uninst_here h s :
      syms !! h = Some s ->
      data s = GenerateBlockSymbol false ->
      InUninstantiatedBlock syms 0 h
  | uninst_parent n h s p :
      syms !! h = Some s ->
      parentScope s = Some p ->
      InUninstantiatedBlock syms n p ->
      InUninstantiatedBlock syms (S n) h.

(** ** Wildcard imports *)

(** The imports a lookup from [ref] consults: the leading imports of the
    list that are declared strictly before the reference point. *)
Fixpoint consultedImports (syms : gmap handle Symbol) (ref : LookupRefPoint)
    (imps : list handle) : list handle :=
  match imps with
  | [] => []
  | i :: rest =>
      match syms !! i with
      | Some s =>
          if indexInScope s <? index ref
          then i :: consultedImports syms ref rest
          else []
      | None => []
      end
  end.

(** The member a scope holds under a name, imports of the scope left out. *)
Definition directMember (c : Compilation) (pkg : handle) (searchName : string)
    : option handle :=
  if bool_decide (searchName = EmptyString) then None
  else
    h ← nameMap (getScope c pkg) !! searchName;
    s ← symbols c !! h;
    if bool_decide (kind s ≠ SkExplicitImport) then Some h else None.

(** The symbol the package of a wildcard import holds under a name. *)
Definition packageExport (c : Compilation) (searchName : string) (imp : handle)
    : option handle :=
  s ← symbols c !! imp;
  pkg ← match data s with
        | WildcardImportSymbol p => p
        | _ => None
        end;
  directMember c pkg searchName.

(** The imports of a scope can be consulted from [ref]: each is a symbol
    whose index is below [UINT32_MAX]; each one declared before [ref] has a
    package, the members of that package are realized, and what the package
    holds under the name is a symbol. *)
Definition ImportsReady (c : Compilation) (searchName : string)
    (ref : LookupRefPoint) (imps : list handle) : Prop :=
  Forall (fun imp =>
    exists s, symbols c !! imp = Some s /\
      0 <= indexInScope s < UINT32_MAX /\
      (indexInScope s < index ref ->
       exists pkg, data s = WildcardImportSymbol (Some pkg) /\
         deferredMemberIndex (getScope c pkg) = None /\
         forall h, nameMap (getScope c pkg) !! searchName = Some h ->
                   is_Some (symbols c !! h))) imps.

(** The result after the symbols [hits] were added as potential imports. *)
Definition addPotentialImports (hits : list handle) (r : LookupResult)
    : LookupResult :=
  foldl (fun r s => LookupResult.addPotentialImport s r) r hits.

(** ** Stores *)

(** The index [insertMember] gives a member spliced after [at_]. *)
Definition newIndex (c : Compilation) (this : handle) (at_ : option handle) : Z :=
  match at_ with
  | None => 1
  | Some a =>
      match symbols c !! a with
      | Some asym =>
          u32 (indexInScope asym +
               (if bool_decide (Some a = lastMember (getScope c this)) then 1 else 0))
      | None => 0
      end
  end.

(** The sibling that follows a member spliced after [at_]. *)
Definition newNext (c : Compilation) (this : handle) (at_ : option handle)
    : option handle :=
  match at_ with
  | None => firstMember (getScope c this)
  | Some a =>
      match symbols c !! a with
      | Some asym => nextInScope asym
      | None => None
      end
  end.

(** The scope after [member], a symbol named [n], was spliced after [at_]. *)
Definition newScope (c : Compilation) (this member : handle) (n : string)
    (at_ : option handle) : Scope :=
  let sc := getScope c this in
  {| firstMember := match at_ with
                    | None => Some member
                    | Some _ => firstMember sc
                    end;
     lastMember := match newNext c this at_ with
                   | None => Some member
                   | Some _ => lastMember sc
                   end;
     nameMap := if bool_decide (n = EmptyString) then nameMap sc
                else emplaceName n member (nameMap sc);
     deferredMemberIndex := deferredMemberIndex sc;
     importDataIndex := importDataIndex sc |}.

(** What a symbol is, whatever scope it is linked into. *)
Definition sameSymbol (s s' : Symbol) : Prop :=
  data s' = data s /\ name s' = name s /\ location s' = location s.

(** Every symbol of [c] is still there in [c'], with its data, name and
    location, and with its parent scope if it had one. *)
Definition preserved (c c' : Compilation) : Prop :=
  forall h s, symbols c !! h = Some s ->
    exists s', symbols c' !! h = Some s' /\ sameSymbol s s' /\
      (parentScope s <> None -> parentScope s' = parentScope s).

(** ** Top-level definitions *)

(** The definition [d] is a top-level one: the definition map has it under
    the root scope, it is a module, no instantiation anywhere names it, and
    each of its parameters has a default. *)
Definition TopLevel (c : Compilation) (d : handle) : Prop :=
  exists n s ps,
    definitionMap c !! (n, root c) = Some d /\
    symbols c !! d = Some s /\
    data s = DefinitionSymbol DkModule ps /\
    (name s ∉ globalInstantiations c) /\
    Forall (fun p => hasDefault p = true) ps.

(** The instance [i] of [c'] is a module instance of the definition [d] of
    [c], is named after it, and is a member of the root scope. *)
Definition TopInstanceOf (c c' : Compilation) (i d : handle) : Prop :=
  exists s,
    symbols c' !! i = Some s /\
    data s = ModuleInstanceSymbol d /\
    name s = symbolName c d /\
    parentScope s = Some (root c).

(** ** Sibling chains *)

(** The symbols [l] are linked one to the next from [first], and the link
    of the last one is [stop]. *)
Fixpoint chainSeg (syms : gmap handle Symbol) (first : option handle)
    (l : list handle) (stop : option handle) : Prop :=
  match l with
  | [] => first = stop
  | h :: t =>
      first = Some h /\
      exists s, syms !! h = Some s /\ chainSeg syms (nextInScope s) t stop
  end.

Definition indexOf (c : Compilation) (h : handle) : Z :=
  match symbols c !! h with
  | Some s => indexInScope s
  | None => 0
  end.

(** The scope [this] is well linked, with the members [l] in chain order:
    the chain from the first member runs through [l] and ends there, the
    last member is the last of [l], every member has the scope as its
    parent, the name map binds members only, and the in-scope indices lie
    between 1 and [UINT32_MAX] and never decrease along the chain. *)
Record WellLinked (c : Compilation) (this : handle) (l : list handle) : Prop := {
  wl_chain : chainSeg (symbols c) (firstMember (getScope c this)) l None;
  wl_last : lastMember (getScope c this) = last l;
  wl_parent : Forall (fun h => exists s, symbols c !! h = Some s /\
                                 parentScope s = Some this) l;
  wl_nodup : NoDup l;
  wl_names : forall n h, nameMap (getScope c this) !! n = Some h -> h ∈ l;
  wl_range : Forall (fun h => 1 <= indexOf c h <= UINT32_MAX) l;
  wl_sorted : StronglySorted (fun a b => indexOf c a <= indexOf c b) l
}.

(** The chain after [member] was spliced after [a]. *)
Fixpoint spliceAfter (a member : handle) (l : list handle) : list handle :=
  match l with
  | [] => []
  | h :: t =>
      if decide (h = a) then h :: member :: t
      else h :: spliceAfter a member t
  end.

Definition spliced (at_ : option handle) (member : handle) (l : list handle)
    : list handle :=
  match at_ with
  | None => member :: l
  | Some a => spliceAfter a member l
  end.

(** Every symbol of [c] is still there in [c'] with its index, data, name
    and parent, and every binding of the name map of [this] is kept. *)
Definition Unmoved (this : handle) (c c' : Compilation) : Prop :=
  (forall h s, symbols c !! h = Some s ->
     exists s', symbols c' !! h = Some s' /\
       indexInScope s' = indexInScope s /\ data s' = data s /\
       name s' = name s /\ parentScope s' = parentScope s) /\
  (forall n h, nameMap (getScope c this) !! n = Some h ->
     nameMap (getScope c' this) !! n = Some h).

(** ** Coalescing *)









(** ** Members that expose a type *)

(** The lazily resolved type a symbol exposes to the scope it is added to:
    the type of a variable or formal argument, the return type of a
    subroutine, the type of a parameter. *)
Definition exposedType (s : Symbol) : option LazyType :=
  match data s with
  | VariableSymbol t | FormalArgumentSymbol t => Some t
  | SubroutineSymbol t => Some t
  | ParameterSymbol t => Some t
  | _ => None
  end.

(** The symbol exposes a type that was written as an enum type. *)
Definition exposesEnum (s : Symbol) : bool :=
  match exposedType s with
  | Some t => bool_decide (getSourceOrNull t = Some SyEnumType)
  | None => false
  end.

(** The name map after the members [entries], each with its name, were
    entered in this order: a member without a name is not entered, and a
    name that is taken stays with the member that has it. *)
Fixpoint enterNames (entries : list (string * handle))
    (m : gmap string handle) : gmap string handle :=
  match entries with
  | [] => m
  | (n, w) :: rest =>
      enterNames rest
        (if bool_decide (n = EmptyString) then m else emplaceName n w m)
  end.

(** The index the wrappers of enum values get when they are spliced after
    [anchor]. *)
Definition anchorIndex (c : Compilation) (anchor : option handle) : Z :=
  match anchor with
  | Some a => indexOf c a
  | None => 1
  end.

(** ** Definitions by name *)

(** From the scope [start] the lexical scopes lead through [path] to
    [target]: no scope of [path] holds a definition named [n], none is the
    root, and the lexical scope of each is the next one, [target] after
    the last. *)
Fixpoint LexicalPath (getLexicalScope : Compilation -> Symbol -> option handle)
    (c : Compilation) (n : string) (start : handle) (path : list handle)
    (target : handle) : Prop :=
  match path with
  | [] => start = target
  | s :: rest =>
      start = s /\
      definitionMap c !! (n, s) = None /\
      exists sym next,
        symbols c !! s = Some sym /\ kind sym <> SkRoot /\
        getLexicalScope c sym = Some next /\
        LexicalPath getLexicalScope c n next rest target
  end.

(** ** The diagnostic store *)

(** A group of the diagnostic map is in order: it has an occurrence, each
    occurrence has the code and the location the group is stored under, a
    symbol and a valid location, and the definition index is [SIZE_MAX] or
    the position of an occurrence. *)
Definition GroupOk (key : DiagKey) (g : DiagGroup) : Prop :=
  g.1 <> [] /\
  Forall (fun d => (code d, diagLocation d) = key /\
                   diagSymbol d <> None /\
                   validLocation (diagLocation d) = true) g.1 /\
  (g.2 = SIZE_MAX \/ 0 <= g.2 < Z.of_nat (length g.1)).

Definition DiagMapOk (c : Compilation) : Prop :=
  forall key g, diagMap c !! key = Some g -> GroupOk key g.

(** The occurrences stored under a key, none if there is no group. *)
Definition occurrences (c : Compilation) (key : DiagKey) : list Diagnostic :=
  match diagMap c !! key with
  | Some g => g.1
  | None => []
  end.

(** The reference refers to a stored occurrence, not to the scratch slot. *)
Definition isStored (r : DiagRef) : bool :=
  match r with
  | RefTempDiag => false
  | RefDiagList _ _ => true
  end.

(** ** The diagnostic visitor *)

(** What a visit keeps of the state of the visitor: the flag [inDef] is as
    before, and inside a definition the instance counts are as before. *)
Definition KeepsDefinitionState (v v' : VisitorState) : Prop :=
  inDef v' = inDef v /\
  (inDef v = true -> instanceCount v' = instanceCount v).

(** ** The order of the wildcard imports *)

(** The wildcard imports of the scope [this], whose members are [l], are
    in order: each is a member of the scope, and along the list the
    indices strictly increase. *)
Definition ImportsOrdered (c : Compilation) (this : handle) (l : list handle)
    : Prop :=
  let imps := queryImports c (importDataIndex (getScope c this)) in
  Forall (fun i => i ∈ l) imps /\
  StronglySorted (fun a b => indexOf c a < indexOf c b) imps.

(** The imports that are declared before the reference point. *)
Definition importsBefore (c : Compilation) (ref : LookupRefPoint)
    (imps : list handle) : list handle :=
  filter (fun i => indexOf c i < index ref) imps.

(** ** Deferred members *)


(** ** Hierarchies *)

(** The symbol [h] has [n] scopes above it: following the parent scopes
    from [h] ends, after [n] steps, at a symbol without a parent. *)
Inductive Depth (syms : gmap handle Symbol) : nat -> handle -> Prop :=
  | depth_top h s :
      syms !! h = Some s ->
      parentScope s = None ->
      Depth syms 0 h
  | depth_up n h s p :
      syms !! h = Some s ->
      parentScope s = Some p ->
      Depth syms n p ->
      Depth syms (S n) h.

(** * Scenarios *)

(** External collaborators that do nothing: no statement bodies, no
    instances, no generate blocks, nothing to force. *)
Definition noExternal : External :=
  {| bindBody := fun _ _ c => Ok c;
     InstanceSymbol_fromSyntax := fun _ _ c => Ok ([], c);
     GenerateBlockSymbol_fromSyntax := fun _ _ c => Ok (None, c);
     GenerateBlockArraySymbol_fromSyntax := fun _ _ _ => Err Unreachable;
     forceLazy := fun _ _ c => Ok c;
     getDeclaredType := fun _ => false;
     hasGetBody := fun _ => false;
     connectionAttributes := fun _ _ => [];
     sortDiagnostics := fun _ l => l |}.

Definition noType : LazyType := {| getSourceOrNull := None; get := None |}.

Definition fromOk (r : Res Compilation) : Compilation :=
  match r with
  | Ok c => c
  | Err _ => newCompilation 0
  end.

(** A fresh result of the given kind that looks from the given point. *)
Definition lookupFrom (k : LookupNameKind) (p : LookupRefPoint) : LookupResult :=
  {| nameKind := k; referencePoint := p; resultKind := NotFound;
     resultWasImported := false; symbol := None; imports := [] |}.

(** Package [p] with [parameter x = 1; parameter y = x;].  The package is
    a member of the root scope. *)
Module DeclaredBeforeUse.

Definition p : handle := 1%nat.
Definition x : handle := 2%nat.
Definition y : handle := 3%nat.

Definition build : Res Compilation :=
  let c := newCompilation 0 in
  let '(p, c) := emplace (newSymbol PackageSymbol "p" (mkLoc 1 0)) c in
  c ← Scope.addMember (root c) p c;
  c ← addPackage p c;
  let '(x, c) := emplace (newSymbol (ParameterSymbol noType) "x" (mkLoc 1 10)) c in
  c ← Scope.addMember p x c;
  let '(y, c) := emplace (newSymbol (ParameterSymbol noType) "y" (mkLoc 1 20)) c in
  Scope.addMember p y c.

Definition state : Compilation := Eval vm_compute in fromOk build.

Definition symX : Symbol :=
  {| data := ParameterSymbol noType; name := "x"; location := mkLoc 1 10;
     parentScope := Some p; nextInScope := Some y; indexInScope := 1 |}.



End DeclaredBeforeUse.

(** Packages [p] and [q] each declare [foo]; a compilation unit imports
    [p::*] and then [q::*].  The packages and the unit are members of the
    root scope. *)
Module AmbiguousImports.

Definition p : handle := 1%nat.
Definition fooP : handle := 2%nat.
Definition q : handle := 3%nat.
Definition fooQ : handle := 4%nat.
Definition unit : handle := 5%nat.
Definition importP : handle := 6%nat.
Definition importQ : handle := 7%nat.

Definition build : Res Compilation :=
  let c := newCompilation 0 in
  let '(p, c) := emplace (newSymbol PackageSymbol "p" (mkLoc 1 0)) c in
  c ← Scope.addMember (root c) p c;
  c ← addPackage p c;
  let '(fooP, c) := emplace (newSymbol (ParameterSymbol noType) "foo" (mkLoc 1 10)) c in
  c ← Scope.addMember p fooP c;
  let '(q, c) := emplace (newSymbol PackageSymbol "q" (mkLoc 1 100)) c in
  c ← Scope.addMember (root c) q c;
  c ← addPackage q c;
  let '(fooQ, c) := emplace (newSymbol (ParameterSymbol noType) "foo" (mkLoc 1 110)) c in
  c ← Scope.addMember q fooQ c;
  let '(unit, c) := emplace (newSymbol CompilationUnitSymbol "" (mkLoc 2 0)) c in
  c ← Scope.addMember (root c) unit c;
  let '(importP, c) :=
    emplace (newSymbol (WildcardImportSymbol (Some p)) "" (mkLoc 2 10)) c in
  c ← Scope.addWildcardImport unit importP c;
  let '(importQ, c) :=
    emplace (newSymbol (WildcardImportSymbol (Some q)) "" (mkLoc 2 20)) c in
  Scope.addWildcardImport unit importQ c.

Definition state : Compilation := Eval vm_compute in fromOk build.

(** The end of the compilation unit, and the point between the imports. *)
Definition fromEnd : LookupResult :=
  lookupFrom Local (LookupRefPoint.endOfScope unit).
Definition fromBetween : LookupResult :=
  lookupFrom Local {| scope := Some unit; index := 2 |}.

End AmbiguousImports.

(** A module instance [top] with a generate block whose condition is false;
    the block declares a variable [v]. *)
Module UninstantiatedBlock.

Definition top : handle := 1%nat.
Definition block : handle := 2%nat.
Definition v : handle := 3%nat.

Definition build : Res Compilation :=
  let c := newCompilation 0 in
  let '(top, c) := emplace (newSymbol (ModuleInstanceSymbol 9%nat) "top" (mkLoc 1 0)) c in
  c ← Scope.addMember (root c) top c;
  let '(block, c) :=
    emplace (newSymbol (GenerateBlockSymbol false) "g" (mkLoc 1 10)) c in
  c ← Scope.addMember top block c;
  let '(v, c) := emplace (newSymbol (VariableSymbol noType) "v" (mkLoc 1 20)) c in
  Scope.addMember block v c.

Definition state : Compilation := Eval vm_compute in fromOk build.

(** An error reported for [v]. *)
Definition diag : Diagnostic :=
  {| code := 7%N; diagLocation := mkLoc 1 25; diagSymbol := Some v;
     coalesceCount := None; isError := true |}.

End UninstantiatedBlock.

(** A visitor state over a compilation with the given number of errors. *)
Definition visitorWithErrors (n : Z) : VisitorState :=
  {| compilation := set_numErrors n (newCompilation 1);
     instanceCount := ∅; inDef := false |}.

(** A compilation unit with the modules [B], [A #(parameter W = 8)],
    [D] (instantiated somewhere), [E #(parameter P)], the interface [I],
    and a module [N] nested in [A]. *)
Module TopModules.

Definition unit : handle := 1%nat.
Definition defB : handle := 2%nat.
Definition defA : handle := 3%nat.
Definition defD : handle := 4%nat.
Definition defE : handle := 5%nat.
Definition defI : handle := 6%nat.
Definition defN : handle := 7%nat.

Definition declare (sc : handle) (n : string) (k : DefinitionKind)
    (ps : list ParameterDecl) (c : Compilation) : Res Compilation :=
  let '(d, c) := emplace (newSymbol (DefinitionSymbol k ps) n (mkLoc 1 0)) c in
  c ← Scope.addMember sc d c;
  addDefinition d c.

Definition build : Res Compilation :=
  let c := addGlobalInstantiation "D" (newCompilation 0) in
  let '(unit, c) := emplace (newSymbol CompilationUnitSymbol "" (mkLoc 1 0)) c in
  c ← Scope.addMember (root c) unit c;
  c ← declare unit "B" DkModule [] c;
  c ← declare unit "A" DkModule [mkParam "W" true] c;
  c ← declare unit "D" DkModule [] c;
  c ← declare unit "E" DkModule [mkParam "P" false] c;
  c ← declare unit "I" DkInterface [] c;
  declare defA "N" DkModule [] c.

Definition state : Compilation := Eval vm_compute in fromOk build.

End TopModules.

(** A compilation unit whose first member is [enum { A, B } x;]. *)
Module EnumFirst.

Definition unit : handle := 1%nat.
Definition valueA : handle := 2%nat.
Definition valueB : handle := 3%nat.
Definition x : handle := 4%nat.
Definition wrappedA : handle := 5%nat.
Definition wrappedB : handle := 6%nat.

Definition enumType : LazyType :=
  {| getSourceOrNull := Some SyEnumType;
     get := Some (EnumType [valueA; valueB]) |}.

(** The unit after [x] was added: the enum values wait in the deferred
    data of the scope. *)
Definition declare : Res Compilation :=
  let c := newCompilation 0 in
  let '(unit, c) := emplace (newSymbol CompilationUnitSymbol "" (mkLoc 1 0)) c in
  c ← Scope.addMember (root c) unit c;
  let '(_, c) := emplace (newSymbol EnumValueSymbol "A" (mkLoc 1 7)) c in
  let '(_, c) := emplace (newSymbol EnumValueSymbol "B" (mkLoc 1 10)) c in
  let '(x, c) := emplace (newSymbol (VariableSymbol enumType) "x" (mkLoc 1 14)) c in
  Scope.addMember unit x c.

Definition declared : Compilation := Eval vm_compute in fromOk declare.

(** The unit after its members were realized. *)
Definition realize : Res Compilation :=
  Scope.ensureMembers noExternal unit declared.

Definition state : Compilation := Eval vm_compute in fromOk realize.

End EnumFirst.

(** A module [M] instantiated three times in the top instance; the same
    error is reported for a variable of the first and of the second
    instance. *)
Module Coalescing.

Definition top : handle := 1%nat.
Definition defM : handle := 2%nat.
Definition i1 : handle := 3%nat.
Definition i2 : handle := 4%nat.
Definition v1 : handle := 6%nat.
Definition v2 : handle := 7%nat.

Definition diagAt (h : handle) : Diagnostic :=
  {| code := 11%N; diagLocation := mkLoc 1 40; diagSymbol := Some h;
     coalesceCount := None; isError := true |}.

Definition instantiate (sc : handle) (n : string) (c : Compilation)
    : Res Compilation :=
  let '(i, c) := emplace (newSymbol (ModuleInstanceSymbol defM) n (mkLoc 1 0)) c in
  Scope.addMember sc i c.

Definition declareVariable (sc : handle) (c : Compilation) : Res Compilation :=
  let '(v, c) := emplace (newSymbol (VariableSymbol noType) "v" (mkLoc 1 40)) c in
  Scope.addMember sc v c.

Definition build : Res Compilation :=
  let c := newCompilation 0 in
  let '(top, c) :=
    emplace (newSymbol (ModuleInstanceSymbol 99%nat) "top" (mkLoc 1 0)) c in
  c ← Scope.addMember (root c) top c;
  let '(_, c) := emplace (newSymbol (DefinitionSymbol DkModule []) "M" (mkLoc 1 30)) c in
  c ← instantiate top "i1" c;
  c ← instantiate top "i2" c;
  c ← instantiate top "i3" c;
  c ← declareVariable i1 c;
  c ← declareVariable i2 c;
  '(_, c) ← addDiag 8 (diagAt v1) c;
  '(_, c) ← addDiag 8 (diagAt v2) c;
  Ok c.

Definition state : Compilation := Eval vm_compute in fromOk build.

(** The group of the error, and the instances the visitor counted. *)
Definition group : DiagGroup := ([diagAt v1; diagAt v2], SIZE_MAX).
Definition counts : gmap handle Z := {[ defM := 3 ]}.

End Coalescing.

(** A compilation unit with three variables whose declared types are each
    in error: forcing the type of a variable reports an error at the
    variable. *)
Module ErrorLimit.

Definition unit : handle := 1%nat.

Definition typeError (h : handle) : Diagnostic :=
  {| code := 5%N; diagLocation := mkLoc 1 (N.of_nat h); diagSymbol := Some h;
     coalesceCount := None; isError := true |}.

Definition failingTypes : External :=
  {| bindBody := bindBody noExternal;
     InstanceSymbol_fromSyntax := InstanceSymbol_fromSyntax noExternal;
     GenerateBlockSymbol_fromSyntax := GenerateBlockSymbol_fromSyntax noExternal;
     GenerateBlockArraySymbol_fromSyntax :=
       GenerateBlockArraySymbol_fromSyntax noExternal;
     forceLazy := fun f h c =>
       match f with
       | DeclaredType_getType =>
           addDiag 8 (typeError h) c ≫= fun r : DiagRef * Compilation => Ok r.2
       | _ => Ok c
       end;
     getDeclaredType := fun s => bool_decide (kind s = SkVariable);
     hasGetBody := hasGetBody noExternal;
     connectionAttributes := connectionAttributes noExternal;
     sortDiagnostics := sortDiagnostics noExternal |}.

Definition declareVariable (n : string) (c : Compilation) : Res Compilation :=
  let '(v, c) := emplace (newSymbol (VariableSymbol noType) n (mkLoc 1 0)) c in
  Scope.addMember unit v c.

Definition build (optErrorLimit : Z) : Res Compilation :=
  let c := newCompilation optErrorLimit in
  let '(unit, c) := emplace (newSymbol CompilationUnitSymbol "" (mkLoc 1 0)) c in
  c ← Scope.addMember (root c) unit c;
  c ← declareVariable "a" c;
  c ← declareVariable "b" c;
  declareVariable "c" c.

(** The codes and symbols of the semantic diagnostics, and the error count
    after they were collected. *)
Definition collect (optErrorLimit : Z) : Res (list (option handle) * Z) :=
  c ← build optErrorLimit;
  getSemanticDiagnostics failingTypes 8 c
    ≫= fun r : list Diagnostic * Compilation =>
  Ok (diagSymbol <$> r.1, numErrors r.2).

End ErrorLimit.

(** A compilation unit with [int y;], and the symbols of
    [enum { A, B } x;] before [x] is added to the unit. *)
Module EnumSecond.

Definition unit : handle := 1%nat.
Definition y : handle := 2%nat.
Definition valueA : handle := 3%nat.
Definition valueB : handle := 4%nat.
Definition x : handle := 5%nat.

Definition enumType : LazyType :=
  {| getSourceOrNull := Some SyEnumType;
     get := Some (EnumType [valueA; valueB]) |}.

Definition symX : Symbol :=
  newSymbol (VariableSymbol enumType) "x" (mkLoc 1 24).

Definition build : Res Compilation :=
  let c := newCompilation 0 in
  let '(unit, c) := emplace (newSymbol CompilationUnitSymbol "" (mkLoc 1 0)) c in
  c ← Scope.addMember (root c) unit c;
  let '(y, c) := emplace (newSymbol (VariableSymbol noType) "y" (mkLoc 1 4)) c in
  c ← Scope.addMember unit y c;
  let '(_, c) := emplace (newSymbol EnumValueSymbol "A" (mkLoc 1 14)) c in
  let '(_, c) := emplace (newSymbol EnumValueSymbol "B" (mkLoc 1 17)) c in
  let '(_, c) := emplace symX c in
  Ok c.

Definition before : Compilation := Eval vm_compute in fromOk build.

End EnumSecond.

(** The lexical scope of a symbol that is no instance is its parent
    scope. *)
Definition lexicalParent : Compilation -> Symbol -> option handle :=
  fun _ s => parentScope s.

(** The modules of [TopModules] and one more module [T], declared in the
    compilation unit but not yet recorded as a definition. *)
Module LateModule.

Definition defT : handle := 8%nat.

Definition symT : Symbol :=
  {| data := DefinitionSymbol DkModule [mkParam "W" true]; name := "T";
     location := mkLoc 1 90; parentScope := Some TopModules.unit;
     nextInScope := None; indexInScope := 6 |}.

Definition build : Res Compilation :=
  let '(d, c) :=
    emplace (newSymbol (DefinitionSymbol DkModule [mkParam "W" true]) "T"
               (mkLoc 1 90)) TopModules.state in
  Scope.addMember TopModules.unit d c.

Definition state : Compilation := Eval vm_compute in fromOk build.

End LateModule.

(** The error of [Coalescing], reported once more at the first variable. *)
Module Repeated.

Definition diag : Diagnostic := Coalescing.diagAt Coalescing.v1.

Definition again : Res (DiagRef * Compilation) :=
  addDiag 8 diag Coalescing.state.

Definition ref : DiagRef :=
  Eval vm_compute in
    match again with
    | Ok (r, _) => r
    | Err _ => RefTempDiag
    end.

Definition state : Compilation :=
  Eval vm_compute in
    match again with
    | Ok (_, c) => c
    | Err _ => newCompilation 0
    end.

End Repeated.

(** One error reported three times at the root of a fresh compilation. *)
Module Threefold.

Definition error : Diagnostic :=
  {| code := 7%N; diagLocation := mkLoc 1 3; diagSymbol := Some 0%nat;
     coalesceCount := None; isError := true |}.

Definition state : Compilation :=
  Eval vm_compute in
    fromOk (addDiagnostics 2 [error; error; error] (newCompilation 0)).

End Threefold.

(** The semantic diagnostics of [Coalescing], once they were collected. *)
Module Reported.

Definition collected : Res (list Diagnostic * Compilation) :=
  getSemanticDiagnostics noExternal 8 Coalescing.state.

Definition results : list Diagnostic :=
  Eval vm_compute in
    match collected with
    | Ok (r, _) => r
    | Err _ => []
    end.

Definition state : Compilation :=
  Eval vm_compute in
    match collected with
    | Ok (_, c) => c
    | Err _ => newCompilation 0
    end.

End Reported.

(** A definition [M] that holds an instance [u], and an instance [top] of
    [M] at the root. *)
Module NestedInstance.

Definition defM : handle := 1%nat.
Definition u : handle := 2%nat.
Definition top : handle := 3%nat.

Definition build : Res Compilation :=
  let c := newCompilation 0 in
  let '(defM, c) :=
    emplace (newSymbol (DefinitionSymbol DkModule []) "M" (mkLoc 1 0)) c in
  c ← Scope.addMember (root c) defM c;
  let '(u, c) :=
    emplace (newSymbol (ModuleInstanceSymbol 77%nat) "u" (mkLoc 1 10)) c in
  c ← Scope.addMember defM u c;
  let '(top, c) :=
    emplace (newSymbol (ModuleInstanceSymbol defM) "top" (mkLoc 1 20)) c in
  Scope.addMember (root c) top c.

Definition state : Compilation := Eval vm_compute in fromOk build.

Definition start : VisitorState :=
  {| compilation := state; instanceCount := ∅; inDef := false |}.

Definition visitFrom (h : handle) : Res VisitorState :=
  DiagnosticVisitor.visit noExternal UINT32_MAX 5 h start.

(** The visitor after the visit of the root, and after the visit of the
    definition alone. *)
Definition afterRoot : VisitorState :=
  Eval vm_compute in
    match visitFrom 0%nat with
    | Ok v => v
    | Err _ => start
    end.

Definition afterDefinition : VisitorState :=
  Eval vm_compute in
    match visitFrom defM with
    | Ok v => v
    | Err _ => start
    end.

End NestedInstance.

(** The unit of [AmbiguousImports] and one more import [p::*], not yet
    added to the unit. *)
Module ThirdImport.

Definition import : handle := 8%nat.

Definition symImport : Symbol :=
  newSymbol (WildcardImportSymbol (Some AmbiguousImports.p)) "" (mkLoc 2 30).

Definition state : Compilation :=
  Eval vm_compute in (emplace symImport AmbiguousImports.state).2.

End ThirdImport.

(** What the lookup of [foo] from the end of the unit of
    [AmbiguousImports] reports. *)
Module AmbiguousOutcome.

Definition result : LookupResult :=
  Eval vm_compute in
    match Scope.lookup noExternal 1 AmbiguousImports.unit "foo"
            AmbiguousImports.fromEnd AmbiguousImports.state with
    | Ok (r, _) => r
    | Err _ => AmbiguousImports.fromEnd
    end.

End AmbiguousOutcome.

(** Package [q] declares [bar]; package [p] holds [import q::bar;]. *)
Module Reexport.

Definition q : handle := 1%nat.
Definition bar : handle := 2%nat.
Definition p : handle := 3%nat.
Definition importBar : handle := 4%nat.

Definition symImport : Symbol :=
  {| data := ExplicitImportSymbol (Some bar); name := "bar";
     location := mkLoc 1 40; parentScope := Some p; nextInScope := None;
     indexInScope := 1 |}.

Definition build : Res Compilation :=
  let c := newCompilation 0 in
  let '(q, c) := emplace (newSymbol PackageSymbol "q" (mkLoc 1 0)) c in
  c ← Scope.addMember (root c) q c;
  c ← addPackage q c;
  let '(bar, c) := emplace (newSymbol (ParameterSymbol noType) "bar" (mkLoc 1 10)) c in
  c ← Scope.addMember q bar c;
  let '(p, c) := emplace (newSymbol PackageSymbol "p" (mkLoc 1 30)) c in
  c ← Scope.addMember (root c) p c;
  c ← addPackage p c;
  let '(e, c) :=
    emplace (newSymbol (ExplicitImportSymbol (Some bar)) "bar" (mkLoc 1 40)) c in
  Scope.addMember p e c.

Definition state : Compilation := Eval vm_compute in fromOk build.

End Reexport.

(** A compilation unit with [int a;], a conditional generate construct and
    [int z;].  The construct yields one block. *)
Module GenerateIf.

Definition unit : handle := 1%nat.
Definition a : handle := 2%nat.
Definition z : handle := 3%nat.
Definition block : handle := 4%nat.

Definition node : SyntaxNode := {| syntaxKind := SyIfGenerate; syntaxId := 1 |}.


Definition build : Res Compilation :=
  let c := newCompilation 0 in
  let '(unit, c) := emplace (newSymbol CompilationUnitSymbol "" (mkLoc 1 0)) c in
  c ← Scope.addMember (root c) unit c;
  let '(a, c) := emplace (newSymbol (VariableSymbol noType) "a" (mkLoc 1 4)) c in
  c ← Scope.addMember unit a c;
  let c := Scope.addDeferredMember unit node c in
  let '(z, c) := emplace (newSymbol (VariableSymbol noType) "z" (mkLoc 1 30)) c in
  Scope.addMember unit z c.

Definition state : Compilation := Eval vm_compute in fromOk build.


End GenerateIf.

(** The error of [Coalescing], reported once more at the definition [M]. *)
Module InDefinition.

Definition diag : Diagnostic := Coalescing.diagAt Coalescing.defM.

Definition added : Res (DiagRef * Compilation) :=
  addDiag 8 diag Coalescing.state.

Definition ref : DiagRef :=
  Eval vm_compute in
    match added with
    | Ok (r, _) => r
    | Err _ => RefTempDiag
    end.

Definition state : Compilation :=
  Eval vm_compute in
    match added with
    | Ok (_, c) => c
    | Err _ => newCompilation 0
    end.

End InDefinition.

(** Package [p] declares the function [f]; the root scope holds the
    package and then [import p::*;]. *)
Module RootImport.

Definition p : handle := 1%nat.
Definition f : handle := 2%nat.
Definition import : handle := 3%nat.

Definition build : Res Compilation :=
  let c := newCompilation 0 in
  let '(p, c) := emplace (newSymbol PackageSymbol "p" (mkLoc 1 0)) c in
  c ← Scope.addMember (root c) p c;
  c ← addPackage p c;
  let '(f, c) := emplace (newSymbol (SubroutineSymbol noType) "f" (mkLoc 1 10)) c in
  c ← Scope.addMember p f c;
  let '(i, c) :=
    emplace (newSymbol (WildcardImportSymbol (Some p)) "" (mkLoc 1 30)) c in
  Scope.addWildcardImport (root c) i c.

Definition state : Compilation := Eval vm_compute in fromOk build.

Definition symImport : Symbol :=
  {| data := WildcardImportSymbol (Some p); name := "";
     location := mkLoc 1 30; parentScope := Some 0%nat; nextInScope := None;
     indexInScope := 2 |}.

End RootImport.

(** * The scenarios are states the operations build *)

Example DeclaredBeforeUse_built :
  DeclaredBeforeUse.build = Ok DeclaredBeforeUse.state.
Proof. vm_compute. reflexivity. Qed.

Example AmbiguousImports_built :
  AmbiguousImports.build = Ok AmbiguousImports.state.
Proof. vm_compute. reflexivity. Qed.

Example UninstantiatedBlock_built :
  UninstantiatedBlock.build = Ok UninstantiatedBlock.state.
Proof. vm_compute. reflexivity. Qed.

Example TopModules_built : TopModules.build = Ok TopModules.state.
Proof. vm_compute. reflexivity. Qed.

Example EnumFirst_built :
  EnumFirst.declare = Ok EnumFirst.declared /\
  EnumFirst.realize = Ok EnumFirst.state.
Proof. split; vm_compute; reflexivity. Qed.

Example Coalescing_built : Coalescing.build = Ok Coalescing.state.
Proof. vm_compute. reflexivity. Qed.

(** * Properties *)

(** ** Reference points *)

(** C9: [p < q] holds exactly when [p.index < q.index].  The comparison
    never looks at the scope component: points into different scopes, and
    the [min] and [max] sentinels with their null scope, compare by index
    alone. *)
Theorem C9_refpoint_lt_by_index :
  (forall p q : LookupRefPoint,
      LookupRefPoint.lt p q = true <-> index p < index q) /\
  (forall (s1 s2 s1' s2' : option handle) (i j : Z),
      LookupRefPoint.lt (mkRefPoint s1 i) (mkRefPoint s2 j) =
      LookupRefPoint.lt (mkRefPoint s1' i) (mkRefPoint s2' j)) /\
  (forall p : LookupRefPoint,
      (LookupRefPoint.lt LookupRefPoint.min p = true <-> 0 < index p) /\
      (LookupRefPoint.lt p LookupRefPoint.max = true <-> index p < UINT_MAX)).
Proof.
  split; [|split].
  - intros p q. unfold LookupRefPoint.lt. apply Z.ltb_lt.
  - intros. reflexivity.
  - intros p. unfold LookupRefPoint.lt. simpl. split; apply Z.ltb_lt.
Qed.

(** ** Net types *)

Lemma initialNetTypes_other n : initialNetTypes !! TkOther n = None.
Proof.
  unfold initialNetTypes.
  repeat (rewrite lookup_insert_ne by discriminate).
  apply lookup_empty.
Qed.

(** C10: [getNetType] returns a net type for every token kind.  For a
    token that is not one of the twelve net-type keywords the net type is
    the Unknown one, named "<error>", that the constructor installed. *)
Theorem C10_getNetType_total (optErrorLimit : Z) (t : TokenKind) :
  exists nt : NetType,
    getNetType (newCompilation optErrorLimit) t = Ok nt /\
    (isNetTypeKeyword t = false -> nt = makeNetType NkUnknown "<error>") /\
    (isNetTypeKeyword t = true -> netKind nt <> NkUnknown).
Proof.
  unfold getNetType. simpl.
  destruct t as [| | | | | | | | | | | | | | | |n];
    try (eexists; split; [vm_compute; reflexivity|];
         split; [intros H; try discriminate H; reflexivity
                |intros H; try discriminate H; simpl; discriminate]).
  rewrite initialNetTypes_other.
  eexists. split; [vm_compute; reflexivity|].
  split; [reflexivity|discriminate].
Qed.

(** ** The error limit of the diagnostic visitor *)

Section Visitor.
Context (ext : External) (limit : Z).

Lemma handleDefault_over fuel visitChild h v :
  DiagnosticVisitor.overLimit limit v = true ->
  DiagnosticVisitor.handleDefault ext limit fuel visitChild h v = Ok (false, v).
Proof. intros H. unfold DiagnosticVisitor.handleDefault. rewrite H. reflexivity. Qed.

Lemma handleDefault_under fuel visitChild h v :
  DiagnosticVisitor.overLimit limit v = false ->
  DiagnosticVisitor.handleDefault ext limit fuel visitChild h v =
    (v1 ← DiagnosticVisitor.forceSymbol ext h v;
     v2 ← DiagnosticVisitor.visitBody ext h v1;
     v3 ← DiagnosticVisitor.visitDefault ext fuel visitChild h v2;
     Ok (true, v3)).
Proof. intros H. unfold DiagnosticVisitor.handleDefault. rewrite H. reflexivity. Qed.

Lemma handleDefault_true fuel visitChild h v r v' :
  DiagnosticVisitor.overLimit limit v = false ->
  DiagnosticVisitor.handleDefault ext limit fuel visitChild h v = Ok (r, v') ->
  r = true.
Proof.
  intros H. rewrite handleDefault_under by exact H.
  destruct (DiagnosticVisitor.forceSymbol ext h v) as [v1|]; simpl; [|discriminate].
  destruct (DiagnosticVisitor.visitBody ext h v1) as [v2|]; simpl; [|discriminate].
  destruct (DiagnosticVisitor.visitDefault ext fuel visitChild h v2) as [v3|];
    simpl; [|discriminate].
  intros E. injection E as <- _. reflexivity.
Qed.

Lemma visit_over fuel h v s :
  DiagnosticVisitor.overLimit limit v = true ->
  symbols (compilation v) !! h = Some s ->
  DiagnosticVisitor.visit ext limit (S fuel) h v = Ok v.
Proof.
  intros Hover Hs. simpl. unfold getSymbol, readSymbol. rewrite Hs. simpl.
  unfold DiagnosticVisitor.handleThen, DiagnosticVisitor.handleInstance.
  destruct (data s) as [| | | | | | |[]| | | | | | | | | | | | | |];
    rewrite ?Hover, ?handleDefault_over by exact Hover; reflexivity.
Qed.


End Visitor.

(** C8: the visitor that [getSemanticDiagnostics] builds has the limit
    [UINT32_MAX] when the [errorLimit] option is 0 and the option's value
    otherwise.  When the error count exceeds that limit, a visit returns
    false and leaves everything as it was: no lazy member is forced and no
    child is visited, whatever the class of the node.  When the count is at
    most the limit, the visit forces the lazy members, visits the body and
    the children, and returns true. *)
Theorem C8_error_limit (ext : External) (optErrorLimit : Z) (fuel : nat)
    (visitChild : handle -> VisitorState -> Res VisitorState)
    (h : handle) (v : VisitorState) :
  let limit := effectiveErrorLimit optErrorLimit in
  (optErrorLimit = 0 -> limit = UINT32_MAX) /\
  (optErrorLimit <> 0 -> limit = optErrorLimit) /\
  (numErrors (compilation v) > limit ->
     DiagnosticVisitor.handleDefault ext limit fuel visitChild h v = Ok (false, v) /\
     (forall s, symbols (compilation v) !! h = Some s ->
        DiagnosticVisitor.visit ext limit (S fuel) h v = Ok v)) /\
  (numErrors (compilation v) <= limit ->
     DiagnosticVisitor.handleDefault ext limit fuel visitChild h v =
       (v1 ← DiagnosticVisitor.forceSymbol ext h v;
        v2 ← DiagnosticVisitor.visitBody ext h v1;
        v3 ← DiagnosticVisitor.visitDefault ext fuel visitChild h v2;
        Ok (true, v3)) /\
     (forall r v',
        DiagnosticVisitor.handleDefault ext limit fuel visitChild h v = Ok (r, v') ->
        r = true)).
Proof.
  intros limit. repeat split.
  - intros ->. reflexivity.
  - intros Hne. unfold limit, effectiveErrorLimit.
    destruct (Z.eqb_spec optErrorLimit 0); [contradiction|reflexivity].
  - apply handleDefault_over. unfold DiagnosticVisitor.overLimit.
    apply Z.gtb_lt. lia.
  - intros s Hs. apply visit_over with (s := s); [|exact Hs].
    unfold DiagnosticVisitor.overLimit. apply Z.gtb_lt. lia.
  - apply handleDefault_under. unfold DiagnosticVisitor.overLimit.
    destruct (Z.gtb_spec (numErrors (compilation v)) limit); [lia|reflexivity].
  - intros r v'. apply handleDefault_true. unfold DiagnosticVisitor.overLimit.
    destruct (Z.gtb_spec (numErrors (compilation v)) limit); [lia|reflexivity].
Qed.

(** ** Diagnostics of uninstantiated generate blocks *)



Lemma C8_error_limit_witness :
  effectiveErrorLimit 0 = UINT32_MAX /\
  effectiveErrorLimit 1 = 1 /\
  DiagnosticVisitor.visit noExternal (effectiveErrorLimit 1) 1 0%nat
    (visitorWithErrors 2) = Ok (visitorWithErrors 2) /\
  (forall r v',
     DiagnosticVisitor.handleDefault noExternal (effectiveErrorLimit 1) 1
       (fun _ v => Ok v) 0%nat (visitorWithErrors 1) = Ok (r, v') ->
     r = true).
Proof.
  split; [|split; [|split]].
  - exact (proj1 (C8_error_limit noExternal 0 0 (fun _ v => Ok v) 0%nat
                    (visitorWithErrors 0)) eq_refl).
  - refine (proj1 (proj2 (C8_error_limit noExternal 1 0 (fun _ v => Ok v) 0%nat
                            (visitorWithErrors 0))) _).
    discriminate.
  - refine (proj2 (proj1 (proj2 (proj2
      (C8_error_limit noExternal 1 0 (fun _ v => Ok v) 0%nat
         (visitorWithErrors 2)))) _) _ _).
    + vm_compute. reflexivity.
    + vm_compute. reflexivity.
  - refine (proj2 (proj2 (proj2 (proj2
      (C8_error_limit noExternal 1 1 (fun _ v => Ok v) 0%nat
         (visitorWithErrors 1)))) _)).
    vm_compute. discriminate.
Defined.


(** With the limit 1 the visitor stops after the second error: the third
    variable is not looked at.  With the limit 0 (none) all three errors
    are reported. *)
Example error_limit_stops_the_visitor :
  ErrorLimit.collect 1 = Ok ([Some 2%nat; Some 3%nat], 2) /\
  ErrorLimit.collect 0 = Ok ([Some 4%nat; Some 2%nat; Some 3%nat], 3).
Proof. split; vm_compute; reflexivity. Qed.

(** ** Declared before use *)

Section Lookup.
Context (ext : External).

Lemma lookup_S fuel this searchName result c :
  Scope.lookup ext (S fuel) this searchName result c =
  (c ← Scope.ensureMembers ext this c;
   local ← Scope.lookupLocal this searchName result c;
   match local with
   | Some r => Ok (r, c)
   | None =>
       '(importResults, result, c) ←
         Scope.lookupImports ext
           (queryImports c (importDataIndex (getScope c this)))
           searchName [] result c;
       match importResults with
       | [(_, s)] => Ok (LookupResult.setSymbol s true result, c)
       | _ :: _ => Ok (result, c)
       | [] =>
           thisSym ← getSymbol c this;
           if bool_decide (kind thisSym = SkRoot) then
             match nameKind result with
             | Scoped =>
                 pkg ← deref (getPackage c searchName);
                 Ok (LookupResult.setSymbol pkg false result, c)
             | _ => Ok (result, c)
             end
           else
             let result :=
               LookupResult.set_referencePoint
                 (LookupRefPoint.after thisSym) result in
             parent ← deref (parentScope thisSym);
             Scope.lookup ext fuel parent searchName result c
       end
   end).
Proof. reflexivity. Qed.

Lemma lookup_local_returns fuel this searchName result c c1 r :
  Scope.ensureMembers ext this c = Ok c1 ->
  Scope.lookupLocal this searchName result c1 = Ok (Some r) ->
  Scope.lookup ext (S fuel) this searchName result c = Ok (r, c1).
Proof.
  intros He Hl. rewrite lookup_S, He. simpl. rewrite Hl. reflexivity.
Qed.

Lemma lookupLocal_entry this searchName result c h sym :
  nameMap (getScope c this) !! searchName = Some h ->
  symbols c !! h = Some sym ->
  Scope.lookupLocal this searchName result c =
    if (if LookupResult.referencePointMatters result
        then LookupRefPoint.lt (LookupRefPoint.before sym) (referencePoint result)
        else true)
    then r ← Scope.setFound h sym result; Ok (Some r)
    else Ok None.
Proof.
  intros Hn Hs. unfold Scope.lookupLocal, getSymbol, readSymbol.
  rewrite Hn, Hs. reflexivity.
Qed.


End Lookup.



(** ** Wildcard imports *)

Section Imports.
Context (ext : External).

Lemma ensureMembers_realized this c :
  deferredMemberIndex (getScope c this) = None ->
  Scope.ensureMembers ext this c = Ok c.
Proof. intros H. unfold Scope.ensureMembers. rewrite H. reflexivity. Qed.

Lemma lookupDirect_realized pkg searchName c :
  deferredMemberIndex (getScope c pkg) = None ->
  (forall h, nameMap (getScope c pkg) !! searchName = Some h ->
             is_Some (symbols c !! h)) ->
  Scope.lookupDirect ext pkg searchName c = Ok (directMember c pkg searchName, c).
Proof.
  intros Hd Hsym. unfold Scope.lookupDirect, directMember.
  case_bool_decide; [reflexivity|].
  rewrite ensureMembers_realized by exact Hd. simpl.
  destruct (nameMap (getScope c pkg) !! searchName) as [h|] eqn:Hn;
    [|reflexivity].
  destruct (Hsym h eq_refl) as [s Hs].
  unfold getSymbol, readSymbol. simpl. rewrite Hs. simpl.
  case_bool_decide; reflexivity.
Qed.

Lemma lookupImports_ready imps searchName acc result c :
  ImportsReady c searchName (referencePoint result) imps ->
  let consulted := consultedImports (symbols c) (referencePoint result) imps in
  Scope.lookupImports ext imps searchName acc result c =
    Ok (acc ++ omap (fun imp => pair imp <$> packageExport c searchName imp)
                 consulted,
        addPotentialImports (omap (packageExport c searchName) consulted) result,
        c).
Proof.
  revert acc result. induction imps as [|imp imps IH]; intros acc result Hr.
  - simpl. rewrite app_nil_r. reflexivity.
  - apply Forall_cons in Hr as [(s & Hs & Hidx & Hpkg) Hr].
    cbn [Scope.lookupImports consultedImports].
    unfold getSymbol, readSymbol. rewrite Hs. cbn [mbind Res_bind].
    unfold LookupRefPoint.lt, LookupRefPoint.after. cbn [index].
    assert (Hu : u32 (indexInScope s + 1) = indexInScope s + 1).
    { unfold u32. apply Z.mod_small. unfold UINT32_MAX in Hidx. lia. }
    rewrite Hu.
    destruct (Z.ltb_spec (indexInScope s) (index (referencePoint result)))
      as [Hlt|Hge].
    + destruct (Z.ltb_spec (index (referencePoint result)) (indexInScope s + 1))
        as [Hc|_]; [lia|].
      destruct (Hpkg Hlt) as (pkg & Hdata & Hreal & Hmem).
      unfold as_WildcardImportSymbol. rewrite Hdata. cbn [mbind Res_bind deref].
      rewrite (lookupDirect_realized pkg searchName c Hreal Hmem).
      cbn [mbind Res_bind].
      assert (Hexp : packageExport c searchName imp = directMember c pkg searchName).
      { unfold packageExport. rewrite Hs. simpl. rewrite Hdata. reflexivity. }
      cbn [omap list_omap]. rewrite Hexp.
      destruct (directMember c pkg searchName) as [hit|].
      * rewrite IH by exact Hr. cbn [fmap option_fmap option_map].
        rewrite <- app_assoc. reflexivity.
      * rewrite IH by exact Hr. reflexivity.
    + destruct (Z.ltb_spec (index (referencePoint result)) (indexInScope s + 1))
        as [_|Hc]; [|lia].
      simpl. rewrite app_nil_r. reflexivity.
Qed.

Lemma consultedImports_prefix syms ref imps :
  consultedImports syms ref imps `prefix_of` imps.
Proof.
  induction imps as [|i imps IH]; simpl.
  - reflexivity.
  - destruct (syms !! i) as [s|]; [|apply prefix_nil].
    destruct (indexInScope s <? index ref); [|apply prefix_nil].
    apply prefix_cons, IH.
Qed.

Lemma consultedImports_before syms ref imps :
  Forall (fun imp => exists s, syms !! imp = Some s /\ indexInScope s < index ref)
    (consultedImports syms ref imps).
Proof.
  induction imps as [|i imps IH]; simpl; [constructor|].
  destruct (syms !! i) as [s|] eqn:Hs; [|constructor].
  destruct (Z.ltb_spec (indexInScope s) (index ref)); [|constructor].
  constructor; [|exact IH]. exists s. split; [exact Hs|assumption].
Qed.

Lemma addPotentialImports_fields hits r :
  nameKind (addPotentialImports hits r) = nameKind r /\
  referencePoint (addPotentialImports hits r) = referencePoint r /\
  symbol (addPotentialImports hits r) = symbol r /\
  resultWasImported (addPotentialImports hits r) = resultWasImported r /\
  imports (addPotentialImports hits r) = imports r ++ hits.
Proof.
  revert r. induction hits as [|s hits IH]; intros r; simpl.
  - rewrite app_nil_r. repeat split.
  - destruct (IH (LookupResult.addPotentialImport s r)) as (H1 & H2 & H3 & H4 & H5).
    unfold addPotentialImports in *. simpl in *.
    rewrite H1, H2, H3, H4, H5. rewrite <- app_assoc. repeat split.
Qed.

Lemma addPotentialImports_ambiguous hits r :
  imports r <> [] -> hits <> [] ->
  resultKind (addPotentialImports hits r) = AmbiguousImport.
Proof.
  revert r. induction hits as [|s hits IH]; intros r Hi Hh; [congruence|].
  simpl. destruct hits as [|s' hits].
  - simpl. destruct (imports r); [congruence|reflexivity].
  - apply IH; [|discriminate]. simpl. destruct (imports r); discriminate.
Qed.

Lemma addPotentialImports_two s1 s2 hits r :
  resultKind (addPotentialImports (s1 :: s2 :: hits) r) = AmbiguousImport.
Proof.
  change (addPotentialImports (s1 :: s2 :: hits) r)
    with (addPotentialImports (s2 :: hits) (LookupResult.addPotentialImport s1 r)).
  apply addPotentialImports_ambiguous; [|discriminate].
  simpl. destruct (imports r); discriminate.
Qed.

Lemma omap_pair_snd (f : handle -> option handle) (l : list handle) :
  snd <$> omap (fun imp => pair imp <$> f imp) l = omap f l.
Proof.
  induction l as [|a l IH]; simpl; [reflexivity|].
  destruct (f a); simpl; [f_equal|]; exact IH.
Qed.

Lemma lookup_after_imports fuel this searchName result c :
  deferredMemberIndex (getScope c this) = None ->
  Scope.lookupLocal this searchName result c = Ok None ->
  ImportsReady c searchName (referencePoint result)
    (queryImports c (importDataIndex (getScope c this))) ->
  let consulted :=
    consultedImports (symbols c) (referencePoint result)
      (queryImports c (importDataIndex (getScope c this))) in
  let hits := omap (packageExport c searchName) consulted in
  Scope.lookup ext (S fuel) this searchName result c =
  match omap (fun imp => pair imp <$> packageExport c searchName imp) consulted with
  | [(_, s)] =>
      Ok (LookupResult.setSymbol s true (addPotentialImports hits result), c)
  | _ :: _ => Ok (addPotentialImports hits result, c)
  | [] =>
      thisSym ← getSymbol c this;
      if bool_decide (kind thisSym = SkRoot) then
        match nameKind (addPotentialImports hits result) with
        | Scoped =>
            pkg ← deref (getPackage c searchName);
            Ok (LookupResult.setSymbol pkg false
                  (addPotentialImports hits result), c)
        | _ => Ok (addPotentialImports hits result, c)
        end
      else
        parent ← deref (parentScope thisSym);
        Scope.lookup ext fuel parent searchName
          (LookupResult.set_referencePoint (LookupRefPoint.after thisSym)
             (addPotentialImports hits result)) c
  end.
Proof.
  intros Hreal Hlocal Hready consulted hits. rewrite lookup_S.
  rewrite ensureMembers_realized by exact Hreal. cbn [mbind Res_bind].
  rewrite Hlocal. cbn [mbind Res_bind].
  rewrite lookupImports_ready by exact Hready. reflexivity.
Qed.

End Imports.

(** C3: when the direct search of a lookup finds nothing to return, the
    wildcard imports of the scope are consulted: the leading imports that
    are declared strictly before the reference point, in declaration
    order.  With one hit the symbol is the result, flagged as imported.
    With two or more hits the result is AmbiguousImport, the symbol is left
    as it was, the hits are recorded as candidates, and the lookup returns
    without climbing.  With no hit the lookup goes on to the parent scope.
    (The scope and the packages have their members realized, and each
    import consulted has its package.) *)
Theorem C3_wildcard_imports (ext : External) (this : handle)
    (searchName : string) (result : LookupResult) (c : Compilation) :
  deferredMemberIndex (getScope c this) = None ->
  Scope.lookupLocal this searchName result c = Ok None ->
  ImportsReady c searchName (referencePoint result)
    (queryImports c (importDataIndex (getScope c this))) ->
  let imps := queryImports c (importDataIndex (getScope c this)) in
  let consulted := consultedImports (symbols c) (referencePoint result) imps in
  let hits := omap (packageExport c searchName) consulted in
  (consulted `prefix_of` imps /\
   Forall (fun imp => exists s, symbols c !! imp = Some s /\
                        indexInScope s < index (referencePoint result))
     consulted) /\
  (forall s, hits = [s] ->
     forall fuel, exists r,
       Scope.lookup ext (S fuel) this searchName result c = Ok (r, c) /\
       resultKind r = Found /\ symbol r = Some s /\
       resultWasImported r = true) /\
  ((2 <= length hits)%nat ->
     exists r,
       Scope.lookup ext 1 this searchName result c = Ok (r, c) /\
       (forall fuel,
          Scope.lookup ext (S fuel) this searchName result c = Ok (r, c)) /\
       resultKind r = AmbiguousImport /\
       symbol r = symbol result /\
       resultWasImported r = resultWasImported result /\
       imports r = imports result ++ hits) /\
  (hits = [] ->
     forall thisSym parent fuel,
       symbols c !! this = Some thisSym ->
       kind thisSym <> SkRoot ->
       parentScope thisSym = Some parent ->
       Scope.lookup ext (S fuel) this searchName result c =
       Scope.lookup ext fuel parent searchName
         (LookupResult.set_referencePoint (LookupRefPoint.after thisSym) result)
         c).
Proof.
  intros Hreal Hlocal Hready imps consulted hits.
  pose proof (fun fuel =>
    lookup_after_imports ext fuel this searchName result c Hreal Hlocal Hready)
    as Hstep.
  cbv zeta in Hstep. fold imps in Hstep. fold consulted in Hstep.
  fold hits in Hstep.
  assert (Hsnd := omap_pair_snd (packageExport c searchName) consulted).
  fold hits in Hsnd.
  destruct (omap (fun imp => pair imp <$> packageExport c searchName imp) consulted)
    as [|[i1 s1] [|[i2 s2] pairs]] eqn:Hpairs; simpl in Hsnd.
  - (* no hit *)
    split; [split; [apply consultedImports_prefix|apply consultedImports_before]|].
    split; [intros s Hs; rewrite <- Hsnd in Hs; discriminate|].
    split; [intros Hlen; rewrite <- Hsnd in Hlen; simpl in Hlen; lia|].
    intros _ thisSym parent fuel Hthis Hkind Hparent.
    rewrite Hstep. unfold getSymbol, readSymbol. rewrite Hthis.
    cbn [mbind Res_bind]. rewrite bool_decide_eq_false_2 by exact Hkind.
    rewrite Hparent. rewrite <- Hsnd. reflexivity.
  - (* one hit *)
    split; [split; [apply consultedImports_prefix|apply consultedImports_before]|].
    split.
    { intros s Hs fuel. rewrite <- Hsnd in Hs. injection Hs as <-.
      eexists. split; [apply Hstep|]. repeat split. }
    split; [intros Hlen; rewrite <- Hsnd in Hlen; simpl in Hlen; lia|].
    intros Hh. rewrite <- Hsnd in Hh. discriminate.
  - (* two hits or more *)
    split; [split; [apply consultedImports_prefix|apply consultedImports_before]|].
    split; [intros s Hs; rewrite <- Hsnd in Hs; discriminate|].
    split.
    { intros _. exists (addPotentialImports hits result).
      split; [apply Hstep|]. split; [exact Hstep|].
      destruct (addPotentialImports_fields hits result) as (_ & _ & H3 & H4 & H5).
      split; [|auto].
      rewrite <- Hsnd. apply addPotentialImports_two. }
    intros Hh. rewrite <- Hsnd in Hh. discriminate.
Qed.

Lemma C3_wildcard_imports_witness :
  exists r,
    Scope.lookup noExternal 1 AmbiguousImports.unit "foo"
      AmbiguousImports.fromEnd AmbiguousImports.state
    = Ok (r, AmbiguousImports.state) /\
    resultKind r = AmbiguousImport /\
    symbol r = None /\
    imports r = [AmbiguousImports.fooP; AmbiguousImports.fooQ].
Proof.
  assert (Hready : ImportsReady AmbiguousImports.state "foo"
            (referencePoint AmbiguousImports.fromEnd)
            (queryImports AmbiguousImports.state
               (importDataIndex
                  (getScope AmbiguousImports.state AmbiguousImports.unit)))).
  { change (queryImports AmbiguousImports.state
              (importDataIndex
                 (getScope AmbiguousImports.state AmbiguousImports.unit)))
      with [AmbiguousImports.importP; AmbiguousImports.importQ].
    repeat constructor.
    - eexists. split; [vm_compute; reflexivity|]. split; [simpl; unfold UINT32_MAX; lia|].
      intros _. exists AmbiguousImports.p.
      split; [reflexivity|]. split; [vm_compute; reflexivity|].
      intros h Hh. vm_compute in Hh. injection Hh as <-. vm_compute. eauto.
    - eexists. split; [vm_compute; reflexivity|]. split; [simpl; unfold UINT32_MAX; lia|].
      intros _. exists AmbiguousImports.q.
      split; [reflexivity|]. split; [vm_compute; reflexivity|].
      intros h Hh. vm_compute in Hh. injection Hh as <-. vm_compute. eauto. }
  destruct (C3_wildcard_imports noExternal AmbiguousImports.unit "foo"
              AmbiguousImports.fromEnd AmbiguousImports.state
              eq_refl eq_refl Hready) as (_ & _ & Hamb & _).
  destruct Hamb as (r & Hr & _ & Hk & Hs & _ & Hi).
  { vm_compute. lia. }
  exists r. split; [exact Hr|]. split; [exact Hk|]. split; [exact Hs|].
  exact Hi.
Defined.

(** ** The root scope *)

(** C6 (what the code does): a lookup that reaches the root scope with no
    result returns there, whatever fuel is left for climbing.  For a name
    kind other than Scoped the result is returned as it was.  For Scoped
    the package of that name is set as the result; when there is no such
    package the code evaluates [*compilation.getPackage(searchName)] on a
    null pointer. *)
Theorem C6_lookup_at_root (ext : External) (this : handle)
    (searchName : string) (result : LookupResult) (c : Compilation)
    (thisSym : Symbol) :
  deferredMemberIndex (getScope c this) = None ->
  Scope.lookupLocal this searchName result c = Ok None ->
  ImportsReady c searchName (referencePoint result)
    (queryImports c (importDataIndex (getScope c this))) ->
  omap (packageExport c searchName)
    (consultedImports (symbols c) (referencePoint result)
       (queryImports c (importDataIndex (getScope c this)))) = [] ->
  symbols c !! this = Some thisSym ->
  kind thisSym = SkRoot ->
  forall fuel,
    Scope.lookup ext (S fuel) this searchName result c =
    match nameKind result with
    | Scoped =>
        match getPackage c searchName with
        | Some pkg => Ok (LookupResult.setSymbol pkg false result, c)
        | None => Err NullDeref
        end
    | _ => Ok (result, c)
    end.
Proof.
  intros Hreal Hlocal Hready Hhits Hthis Hkind fuel.
  rewrite lookup_after_imports by assumption.
  rewrite <- (omap_pair_snd (packageExport c searchName)) in Hhits.
  destruct (omap (fun imp => pair imp <$> packageExport c searchName imp) _)
    as [|pr prs] eqn:Hpairs; [|discriminate Hhits].
  rewrite <- (omap_pair_snd (packageExport c searchName)), Hpairs.
  unfold getSymbol, readSymbol. rewrite Hthis. cbn [mbind Res_bind].
  rewrite bool_decide_eq_true_2 by exact Hkind.
  cbn [fmap list_fmap addPotentialImports foldl].
  destruct (nameKind result); try reflexivity.
  destruct (getPackage c searchName); reflexivity.
Qed.

Lemma C6_lookup_at_root_witness :
  Scope.lookup noExternal 1 (root (newCompilation 0)) "nopkg"
    (lookupFrom Scoped LookupRefPoint.max) (newCompilation 0)
  = Err NullDeref.
Proof.
  refine (C6_lookup_at_root noExternal (root (newCompilation 0)) "nopkg"
            (lookupFrom Scoped LookupRefPoint.max) (newCompilation 0)
            (newSymbol RootSymbol EmptyString (mkLoc 0 0))
            eq_refl eq_refl _ eq_refl eq_refl eq_refl 0%nat).
  constructor.
Defined.

(** ** Member insertion *)

Lemma getScope_putScope_eq h s c : getScope (putScope h s c) h = s.
Proof. unfold getScope, putScope. simpl. rewrite lookup_insert_eq. reflexivity. Qed.

Lemma getScope_putScope_ne h h' s c :
  h <> h' -> getScope (putScope h s c) h' = getScope c h'.
Proof.
  intros Hne. unfold getScope, putScope. simpl.
  rewrite lookup_insert_ne by exact Hne. reflexivity.
Qed.

Lemma emplace_fresh s c : symbols c !! (emplace s c).1 = None.
Proof.
  unfold emplace. simpl. apply not_elem_of_dom. apply is_fresh.
Qed.

Lemma emplace_lookup s c : symbols (emplace s c).2 !! (emplace s c).1 = Some s.
Proof. unfold emplace, putSymbol. simpl. apply lookup_insert_eq. Qed.

Lemma emplace_other s c h :
  h <> (emplace s c).1 -> symbols (emplace s c).2 !! h = symbols c !! h.
Proof.
  intros Hne. unfold emplace, putSymbol in *. simpl in *.
  apply lookup_insert_ne. congruence.
Qed.

(** What [insertMember] does to the store, for an orphan member and an
    anchor that is a symbol. *)
Lemma insertMember_spec this member at_ c m :
  symbols c !! member = Some m ->
  parentScope m = None ->
  nextInScope m = None ->
  (forall a, at_ = Some a -> is_Some (symbols c !! a)) ->
  exists c',
    Scope.insertMember this member at_ c = Ok c' /\
    symbols c' !! member =
      Some (set_parentScope (Some this)
              (set_link (newIndex c this at_) (newNext c this at_) m)) /\
    (forall a asym, at_ = Some a -> a <> member -> symbols c !! a = Some asym ->
       symbols c' !! a = Some (set_nextInScope (Some member) asym)) /\
    (forall h, h <> member -> Some h <> at_ -> symbols c' !! h = symbols c !! h) /\
    getScope c' this = newScope c this member (name m) at_ /\
    (forall h, h <> this -> getScope c' h = getScope c h) /\
    root c' = root c /\
    definitionMap c' = definitionMap c /\
    globalInstantiations c' = globalInstantiations c /\
    deferredData c' = deferredData c /\
    importData c' = importData c /\
    packageMap c' = packageMap c.
Proof.
  intros Hm Hp Hn Hat.
  unfold Scope.insertMember, getSymbol, readSymbol.
  rewrite Hm. cbn [mbind Res_bind]. rewrite Hp, Hn.
  cbn [bool_decide decide_rel ASSERT mbind Res_bind].
  destruct at_ as [a|].
  - destruct (Hat a eq_refl) as [asym Ha]. rewrite Ha.
    cbn [mbind Res_bind]. cbn [symbols putSymbol set_symbols].
    rewrite lookup_insert_eq. cbn [mbind Res_bind].
    eexists. split; [reflexivity|].
    unfold newScope, newIndex, newNext. rewrite Ha.
    cbn [set_link nextInScope name set_parentScope].
    split; [cbn; rewrite lookup_insert_eq; reflexivity|].
    split.
    { intros a' asym' [= <-] Hne Ha'. cbn.
      rewrite lookup_insert_ne by congruence.
      rewrite lookup_insert_ne by congruence.
      rewrite lookup_insert_eq. congruence. }
    split.
    { intros h Hne1 Hne2. cbn.
      rewrite !lookup_insert_ne by congruence. reflexivity. }
    split.
    { rewrite getScope_putScope_eq.
      generalize (getScope c this). intros [f l nm dmi idi].
      destruct (nextInScope asym); case_bool_decide; reflexivity. }
    split; [intros h Hne; rewrite getScope_putScope_ne by congruence;
            reflexivity|].
    repeat split.
  - cbn [mbind Res_bind]. cbn [symbols putSymbol set_symbols].
    rewrite lookup_insert_eq. cbn [mbind Res_bind].
    eexists. split; [reflexivity|].
    unfold newScope, newIndex, newNext.
    cbn [set_link nextInScope name set_parentScope].
    split; [cbn; rewrite lookup_insert_eq; reflexivity|].
    split; [intros a asym [=]|].
    split.
    { intros h Hne1 Hne2. cbn.
      rewrite !lookup_insert_ne by congruence. reflexivity. }
    split.
    { rewrite getScope_putScope_eq.
      generalize (getScope c this). intros [f l nm dmi idi].
      destruct f; case_bool_decide; reflexivity. }
    split; [intros h Hne; rewrite getScope_putScope_ne by congruence;
            reflexivity|].
    repeat split.
Qed.

(** ** Top-level instances *)

Lemma preserved_refl c : preserved c c.
Proof. intros h s Hs. exists s. repeat split; auto. Qed.

Lemma preserved_trans c1 c2 c3 :
  preserved c1 c2 -> preserved c2 c3 -> preserved c1 c3.
Proof.
  intros H12 H23 h s Hs.
  destruct (H12 h s Hs) as (s2 & Hs2 & (Hd2 & Hn2 & Hl2) & Hp2).
  destruct (H23 h s2 Hs2) as (s3 & Hs3 & (Hd3 & Hn3 & Hl3) & Hp3).
  exists s3. split; [exact Hs3|]. split; [repeat split; congruence|].
  intros Hp. rewrite Hp3; [apply Hp2; exact Hp|]. rewrite Hp2; exact Hp.
Qed.

(** One turn of the loop of [getRoot]: the definition is instantiated and
    the instance is appended to the root scope. *)
Lemma instantiate_step c def d :
  symbols c !! def = Some d ->
  (forall a, lastMember (getScope c (root c)) = Some a -> is_Some (symbols c !! a)) ->
  let ic := ModuleInstanceSymbol_instantiate c (name d) (location d) def in
  exists c',
    Scope.addMember (root ic.2) ic.1 ic.2 = Ok c' /\
    preserved c c' /\
    root c' = root c /\
    TopInstanceOf c c' ic.1 def /\
    (forall a, lastMember (getScope c' (root c')) = Some a ->
               is_Some (symbols c' !! a)).
Proof.
  intros Hd Hlast ic.
  set (m := newSymbol (ModuleInstanceSymbol def) (name d) (location d)).
  assert (Hfresh : symbols c !! ic.1 = None) by apply emplace_fresh.
  assert (Hm : symbols ic.2 !! ic.1 = Some m) by apply emplace_lookup.
  assert (Hother : forall h, h <> ic.1 -> symbols ic.2 !! h = symbols c !! h)
    by (intros h; apply emplace_other).
  assert (Hat : forall a, lastMember (getScope ic.2 (root ic.2)) = Some a ->
                          is_Some (symbols ic.2 !! a)).
  { intros a Ha. destruct (decide (a = ic.1)) as [Heq|Hne].
    - rewrite Heq, Hm. eauto.
    - rewrite Hother by exact Hne. apply Hlast. exact Ha. }
  destruct (insertMember_spec (root ic.2) ic.1
              (lastMember (getScope ic.2 (root ic.2))) ic.2 m Hm eq_refl eq_refl Hat)
    as (c' & Hins & Hmem & Hanchor & Hrest & Hscope & _ & Hroot & _).
  exists c'. split.
  { unfold Scope.addMember, getSymbol, readSymbol. rewrite Hm.
    cbn [mbind Res_bind m newSymbol data]. exact Hins. }
  assert (Hroot' : root c' = root c) by (rewrite Hroot; reflexivity).
  split.
  { intros h s Hs.
    assert (Hne : h <> ic.1) by (intros ->; congruence).
    destruct (decide (Some h = lastMember (getScope ic.2 (root ic.2)))) as [He|Hna].
    - rewrite (Hanchor h s (eq_sym He) Hne).
      + eexists. split; [reflexivity|]. repeat split.
      + rewrite Hother by exact Hne. exact Hs.
    - rewrite Hrest by assumption. rewrite Hother by exact Hne.
      exists s. repeat split; auto. }
  split; [exact Hroot'|].
  split.
  { eexists. split; [exact Hmem|]. cbn. split; [reflexivity|].
    split; [unfold symbolName; rewrite Hd; reflexivity|reflexivity]. }
  intros a Ha. rewrite Hroot in Ha. rewrite Hscope in Ha.
  unfold newScope in Ha. cbn [lastMember] in Ha.
  destruct (newNext ic.2 (root ic.2) (lastMember (getScope ic.2 (root ic.2)))).
  - destruct (decide (a = ic.1)) as [Heq|Hne];
      [subst a; eexists; exact Hmem|].
    destruct (Hat a Ha) as [s Hs].
    destruct (decide (Some a = lastMember (getScope ic.2 (root ic.2)))) as [He|Hna].
    + rewrite (Hanchor a s (eq_sym He) Hne Hs). eauto.
    + congruence.
  - injection Ha as Ha'. subst a. eexists. exact Hmem.
Qed.

Lemma instantiateTop_spec defs : forall c0 c acc,
  preserved c0 c ->
  root c = root c0 ->
  Forall (fun d => is_Some (symbols c0 !! d)) defs ->
  (forall a, lastMember (getScope c (root c)) = Some a -> is_Some (symbols c !! a)) ->
  exists c' insts,
    instantiateTop defs acc c = Ok (acc ++ insts, c') /\
    preserved c c' /\
    root c' = root c /\
    Forall2 (TopInstanceOf c0 c') insts defs.
Proof.
  induction defs as [|def defs IH]; intros c0 c acc Hpres Hroot Hdefs Hlast.
  - exists c, []. simpl. rewrite app_nil_r.
    split; [reflexivity|]. split; [apply preserved_refl|].
    split; [reflexivity|constructor].
  - apply Forall_cons in Hdefs as [[d0 Hd0] Hdefs].
    destruct (Hpres def d0 Hd0) as (d & Hd & (_ & Hname & _) & _).
    destruct (instantiate_step c def d Hd Hlast)
      as (c1 & Hadd & Hp1 & Hr1 & Hinst & Hlast1).
    cbn [instantiateTop]. unfold getSymbol, readSymbol. rewrite Hd.
    cbn [mbind Res_bind].
    destruct (ModuleInstanceSymbol_instantiate c (name d) (location d) def)
      as [inst ci] eqn:Hic.
    cbn [fst snd] in *. rewrite Hadd. cbn [mbind Res_bind].
    destruct (IH c0 c1 (acc ++ [inst])) as (c' & insts & Hloop & Hp2 & Hr2 & Hall).
    + eapply preserved_trans; eassumption.
    + congruence.
    + exact Hdefs.
    + exact Hlast1.
    + exists c', (inst :: insts). rewrite Hloop, <- app_assoc.
      split; [reflexivity|].
      split; [eapply preserved_trans; eassumption|].
      split; [congruence|].
      constructor; [|exact Hall].
      destruct Hinst as (s & Hs & Hdata & Hn & Hparent).
      destruct (Hp2 inst s Hs) as (s' & Hs' & (Hd' & Hn' & _) & Hp').
      exists s'. split; [exact Hs'|]. split; [congruence|].
      split.
      * rewrite Hn', Hn. unfold symbolName. rewrite Hd, Hd0. exact Hname.
      * rewrite Hp' by (rewrite Hparent; discriminate). congruence.
Qed.

Lemma allDefaulted_Forall ps :
  forallb hasDefault ps = true <-> Forall (fun p => hasDefault p = true) ps.
Proof.
  induction ps as [|p ps IH]; simpl.
  - split; [constructor|reflexivity].
  - rewrite andb_true_iff, IH, Forall_cons. reflexivity.
Qed.

Lemma isTopDefinition_spec c n sc def :
  (sc = root c -> exists s dk ps,
      symbols c !! def = Some s /\ data s = DefinitionSymbol dk ps) ->
  exists b, isTopDefinition c ((n, sc), def) = Ok b /\
    (b = true <->
     sc = root c /\
     exists s ps, symbols c !! def = Some s /\
       data s = DefinitionSymbol DkModule ps /\
       (name s ∉ globalInstantiations c) /\
       Forall (fun p => hasDefault p = true) ps).
Proof.
  intros Hvalid. unfold isTopDefinition.
  case_bool_decide as Hsc.
  { exists false. split; [reflexivity|]. split; [discriminate|]. tauto. }
  destruct (Hvalid Hsc) as (s & dk & ps & Hs & Hdata).
  unfold getSymbol, readSymbol. rewrite Hs. cbn [mbind Res_bind]. rewrite Hdata.
  case_bool_decide as Hdk.
  { exists false. split; [reflexivity|]. split; [discriminate|].
    intros (_ & s' & ps' & Hs' & Hd' & _). congruence. }
  case_bool_decide as Hg.
  { exists false. split; [reflexivity|]. split; [discriminate|].
    intros (_ & s' & ps' & Hs' & _ & Hn' & _).
    assert (s' = s) by congruence. subst. contradiction. }
  eexists. split; [reflexivity|]. rewrite allDefaulted_Forall.
  split.
  - intros Hall. split; [exact Hsc|]. exists s, ps. repeat split; auto.
    congruence.
  - intros (_ & s' & ps' & Hs' & Hd' & _ & Hall).
    assert (s' = s) by congruence. subst. congruence.
Qed.

Lemma collectTopDefinitions_spec c entries : forall acc,
  (forall n def, ((n, root c), def) ∈ entries ->
     exists s dk ps, symbols c !! def = Some s /\ data s = DefinitionSymbol dk ps) ->
  exists l,
    collectTopDefinitions c entries acc = Ok l /\
    forall d, d ∈ l <->
      d ∈ acc \/
      exists n s ps, ((n, root c), d) ∈ entries /\
        symbols c !! d = Some s /\
        data s = DefinitionSymbol DkModule ps /\
        (name s ∉ globalInstantiations c) /\
        Forall (fun p => hasDefault p = true) ps.
Proof.
  induction entries as [|[[n sc] def] entries IH]; intros acc Hvalid.
  - exists acc. split; [reflexivity|]. intros d. split; [auto|].
    intros [H|(n & s & ps & H & _)]; [exact H|]. inversion H.
  - destruct (isTopDefinition_spec c n sc def) as (b & Hb & Hiff).
    { intros ->. apply (Hvalid n def). left. }
    cbn [collectTopDefinitions]. rewrite Hb. cbn [mbind Res_bind snd].
    destruct (IH (if b then acc ++ [def] else acc)) as (l & Hl & Hmem).
    { intros n' def' Hin. apply (Hvalid n' def'). right. exact Hin. }
    exists l. split; [exact Hl|]. intros d. rewrite Hmem. split.
    + intros [Hacc|(n' & s & ps & Hin & Hrest)].
      * destruct b; [|auto].
        apply elem_of_app in Hacc as [Hacc|Hd]; [auto|].
        apply list_elem_of_singleton in Hd as ->.
        destruct (proj1 Hiff eq_refl) as (-> & s & ps & Hrest).
        right. exists n, s, ps. split; [left|exact Hrest].
      * right. exists n', s, ps. split; [right; exact Hin|exact Hrest].
    + intros [Hacc|(n' & s & ps & Hin & Hrest)].
      * left. destruct b; [apply elem_of_app; auto|exact Hacc].
      * apply elem_of_cons in Hin as [Heq|Hin].
        -- injection Heq as -> <- ->. left.
           assert (b = true) as ->.
           { apply Hiff. split; [reflexivity|]. exists s, ps. exact Hrest. }
           apply elem_of_app. right. apply list_elem_of_singleton. reflexivity.
        -- right. exists n', s, ps. split; [exact Hin|exact Hrest].
Qed.

#[local] Instance nameLe_total c : Total (nameLe c).
Proof.
  intros a b. unfold nameLe.
  destruct (String.leb_total (symbolName c a) (symbolName c b)) as [H|H];
    rewrite H; [left|right]; exact I.
Qed.




(** ** The sibling chain and the in-scope index *)

Lemma insertMember_inv this member at_ c c' :
  Scope.insertMember this member at_ c = Ok c' ->
  exists m, symbols c !! member = Some m /\
    parentScope m = None /\ nextInScope m = None /\
    (forall a, at_ = Some a -> is_Some (symbols c !! a)).
Proof.
  unfold Scope.insertMember, getSymbol, readSymbol.
  destruct (symbols c !! member) as [m|]; [|discriminate].
  cbn [mbind Res_bind]. unfold ASSERT.
  destruct (parentScope m) eqn:Hp; [cbn; discriminate|].
  destruct (nextInScope m) eqn:Hn; [cbn; discriminate|].
  cbn [bool_decide decide_rel mbind Res_bind].
  destruct at_ as [a0|].
  - destruct (symbols c !! a0) eqn:Ea; [|cbn; discriminate].
    intros _. exists m. repeat split; auto. intros a [= <-]. eauto.
  - intros _. exists m. repeat split; auto. intros a [=].
Qed.

Lemma chainSeg_agree syms syms' first l stop :
  (forall h, h ∈ l -> syms' !! h = syms !! h) ->
  chainSeg syms first l stop -> chainSeg syms' first l stop.
Proof.
  revert first. induction l as [|h t IH]; intros first Hag; simpl; [auto|].
  intros (-> & s & Hs & Hc). split; [reflexivity|].
  exists s. split; [rewrite Hag by left; exact Hs|].
  apply IH; [|exact Hc]. intros h' Hh'. apply Hag. right. exact Hh'.
Qed.

Lemma chainSeg_app syms first l1 l2 stop :
  chainSeg syms first (l1 ++ l2) stop <->
  exists mid, chainSeg syms first l1 mid /\ chainSeg syms mid l2 stop.
Proof.
  revert first. induction l1 as [|h t IH]; intros first; simpl.
  - split; [intros H; exists first; auto|intros (mid & -> & H); exact H].
  - split.
    + intros (-> & s & Hs & Hc). apply IH in Hc as (mid & H1 & H2).
      exists mid. split; [|exact H2]. split; [reflexivity|]. exists s. auto.
    + intros (mid & (-> & s & Hs & H1) & H2). split; [reflexivity|].
      exists s. split; [exact Hs|]. apply IH. exists mid. auto.
Qed.

Lemma spliceAfter_split a member l1 l2 :
  a ∉ l1 ->
  spliceAfter a member (l1 ++ a :: l2) = l1 ++ a :: member :: l2.
Proof.
  induction l1 as [|h t IH]; intros Hn; simpl.
  - rewrite decide_True by reflexivity. reflexivity.
  - rewrite decide_False by (intros ->; apply Hn; left).
    rewrite IH; [reflexivity|]. intros H. apply Hn. right. exact H.
Qed.

Lemma sorted_agree (f f' : handle -> Z) (l : list handle) :
  (forall h, h ∈ l -> f' h = f h) ->
  StronglySorted (fun a b => f a <= f b) l ->
  StronglySorted (fun a b => f' a <= f' b) l.
Proof.
  induction l as [|h t IH]; intros Hag Hs; [constructor|].
  apply StronglySorted_cons in Hs as [Hall Hs].
  apply StronglySorted_cons. split.
  - rewrite Forall_forall in *. intros x Hx.
    rewrite (Hag h) by left. rewrite (Hag x) by (right; exact Hx). auto.
  - apply IH; [|exact Hs]. intros x Hx. apply Hag. right. exact Hx.
Qed.

Lemma indexOf_after_insert this member at_ c c' m :
  symbols c !! member = Some m ->
  symbols c' !! member =
    Some (set_parentScope (Some this)
            (set_link (newIndex c this at_) (newNext c this at_) m)) ->
  (forall a asym, at_ = Some a -> a <> member -> symbols c !! a = Some asym ->
     symbols c' !! a = Some (set_nextInScope (Some member) asym)) ->
  (forall h, h <> member -> Some h <> at_ -> symbols c' !! h = symbols c !! h) ->
  (forall a, at_ = Some a -> is_Some (symbols c !! a)) ->
  indexOf c' member = newIndex c this at_ /\
  forall h, h <> member -> indexOf c' h = indexOf c h.
Proof.
  intros Hm Hmem Hanchor Hrest Hat. split.
  - unfold indexOf. rewrite Hmem. reflexivity.
  - intros h Hne. unfold indexOf.
    destruct (decide (Some h = at_)) as [He|Hna].
    + destruct (Hat h (eq_sym He)) as [asym Ha].
      rewrite (Hanchor h asym (eq_sym He) Hne Ha), Ha. reflexivity.
    + rewrite Hrest by assumption. reflexivity.
Qed.

Lemma WellLinked_head c this l member m :
  WellLinked c this l ->
  symbols c !! member = Some m ->
  parentScope m = None ->
  nextInScope m = None ->
  exists c',
    Scope.insertMember this member None c = Ok c' /\
    WellLinked c' this (member :: l) /\
    indexOf c' member = 1 /\
    firstMember (getScope c' this) = Some member.
Proof.
  intros [Hchain Hlast Hparent Hnodup Hnames Hrange Hsorted] Hm Hp Hn.
  destruct (insertMember_spec this member None c m Hm Hp Hn)
    as (c' & Hins & Hmem & Hanchor & Hrest & Hscope & _); [intros a [=]|].
  destruct (indexOf_after_insert this member None c c' m Hm Hmem Hanchor Hrest)
    as [Himem Hiother]; [intros a [=]|].
  cbn [newIndex] in Himem.
  assert (Hnotin : member ∉ l).
  { intros Hin. rewrite Forall_forall in Hparent.
    destruct (Hparent member Hin) as (s & Hs & Hps). congruence. }
  assert (Hsame : forall h, h ∈ l -> symbols c' !! h = symbols c !! h).
  { intros h Hh. apply Hrest; [intros ->; contradiction|discriminate]. }
  exists c'. split; [exact Hins|].
  split; [|split; [exact Himem|rewrite Hscope; reflexivity]].
  constructor.
  - rewrite Hscope. cbn [newScope firstMember]. split; [reflexivity|].
    eexists. split; [exact Hmem|]. cbn [set_parentScope set_link nextInScope newNext].
    apply chainSeg_agree with (syms := symbols c); [exact Hsame|exact Hchain].
  - rewrite Hscope. cbn [newScope lastMember newNext].
    destruct l as [|h t].
    + simpl in Hchain. rewrite Hchain. reflexivity.
    + destruct Hchain as [Hf _]. rewrite Hf, Hlast. reflexivity.
  - constructor.
    + eexists. split; [exact Hmem|reflexivity].
    + rewrite Forall_forall in *. intros h Hh. rewrite Hsame by exact Hh. auto.
  - constructor; assumption.
  - intros n h. rewrite Hscope. cbn [newScope nameMap].
    case_bool_decide.
    + intros Hh. right. eapply Hnames; exact Hh.
    + unfold emplaceName.
      destruct (nameMap (getScope c this) !! name m) eqn:Hnm.
      * intros Hh. right. eapply Hnames; exact Hh.
      * destruct (decide (n = name m)) as [->|Hne].
        -- rewrite lookup_insert_eq. intros [= <-]. left.
        -- rewrite lookup_insert_ne by congruence. intros Hh. right.
           eapply Hnames; exact Hh.
  - constructor.
    + rewrite Himem. unfold UINT32_MAX. lia.
    + rewrite Forall_forall in *. intros h Hh.
      rewrite Hiother by (intros ->; contradiction). auto.
  - apply StronglySorted_cons. split.
    + rewrite Forall_forall in *. intros h Hh. rewrite Himem.
      rewrite Hiother by (intros ->; contradiction).
      destruct (Hrange h Hh). lia.
    + apply sorted_agree with (f := indexOf c); [|exact Hsorted].
      intros h Hh. apply Hiother. intros ->. contradiction.
Qed.

Lemma WellLinked_after c this l member m a :
  WellLinked c this l ->
  symbols c !! member = Some m ->
  parentScope m = None ->
  nextInScope m = None ->
  a ∈ l ->
  (Some a = lastMember (getScope c this) -> indexOf c a < UINT32_MAX) ->
  exists c',
    Scope.insertMember this member (Some a) c = Ok c' /\
    WellLinked c' this (spliceAfter a member l) /\
    (Some a = lastMember (getScope c this) ->
       indexOf c' member = indexOf c a + 1) /\
    (Some a <> lastMember (getScope c this) ->
       indexOf c' member = indexOf c a) /\
    firstMember (getScope c' this) = firstMember (getScope c this).
Proof.
  intros [Hchain Hlast Hparent Hnodup Hnames Hrange Hsorted] Hm Hp Hn Hin Hover.
  assert (Hnotin : member ∉ l).
  { intros Hmin. rewrite Forall_forall in Hparent.
    destruct (Hparent member Hmin) as (s & Hs & Hps). congruence. }
  assert (Hne : a <> member) by (intros ->; contradiction).
  rewrite Forall_forall in Hparent. destruct (Hparent a Hin) as (asym & Ha & Hpa).
  destruct (insertMember_spec this member (Some a) c m Hm Hp Hn)
    as (c' & Hins & Hmem & Hanchor & Hrest & Hscope & _);
    [intros a' [= <-]; eauto|].
  destruct (indexOf_after_insert this member (Some a) c c' m Hm Hmem Hanchor Hrest)
    as [Himem Hiother]; [intros a' [= <-]; eauto|].
  specialize (Hanchor a asym eq_refl Hne Ha).
  apply list_elem_of_split in Hin as (l1 & l2 & ->).
  apply NoDup_app in Hnodup as (Hnd1 & Hdisj & Hnd2).
  apply NoDup_cons in Hnd2 as [Hal2 Hnd2].
  assert (Hal1 : a ∉ l1) by (intros H; apply (Hdisj a H); left).
  rewrite spliceAfter_split by exact Hal1.
  apply chainSeg_app in Hchain as (mid & Hc1 & Hc2).
  destruct Hc2 as (-> & asym' & Ha' & Hc2).
  assert (asym' = asym) by congruence. subst asym'.
  assert (Hsame : forall h, h ∈ l1 ++ l2 -> symbols c' !! h = symbols c !! h).
  { intros h Hh. apply Hrest.
    - intros ->. apply Hnotin. apply elem_of_app in Hh as [Hh|Hh];
        apply elem_of_app; [left|right; right]; exact Hh.
    - intros [= ->]. apply elem_of_app in Hh as [Hh|Hh]; contradiction. }
  assert (Hidx : indexOf c a = indexInScope asym)
    by (unfold indexOf; rewrite Ha; reflexivity).
  assert (Hra : 1 <= indexOf c a <= UINT32_MAX).
  { rewrite Forall_forall in Hrange. apply Hrange.
    apply elem_of_app. right. left. }
  rewrite last_app_cons in Hlast.
  (* is the anchor the last member, and what follows it *)
  assert (Htail : (l2 = [] /\ Some a = lastMember (getScope c this) /\
                   nextInScope asym = None) \/
                  (exists h t, l2 = h :: t /\
                   Some a <> lastMember (getScope c this) /\
                   nextInScope asym = Some h)).
  { destruct l2 as [|h t].
    - left. simpl in Hc2. rewrite Hlast. auto.
    - right. exists h, t. split; [reflexivity|].
      destruct Hc2 as [Hnx _]. split; [|exact Hnx].
      rewrite Hlast, last_cons_cons. intros Heq. symmetry in Heq.
      apply last_Some_elem_of in Heq. contradiction. }
  assert (Hnew1 : Some a = lastMember (getScope c this) ->
                  indexOf c' member = indexOf c a + 1).
  { intros Hl. rewrite Himem. unfold newIndex. rewrite Ha, <- Hidx.
    rewrite bool_decide_eq_true_2 by exact Hl. specialize (Hover Hl).
    unfold u32. unfold UINT32_MAX in *. apply Z.mod_small. lia. }
  assert (Hnew2 : Some a <> lastMember (getScope c this) ->
                  indexOf c' member = indexOf c a).
  { intros Hl. rewrite Himem. unfold newIndex. rewrite Ha, <- Hidx.
    rewrite bool_decide_eq_false_2 by exact Hl.
    unfold u32. unfold UINT32_MAX in *. rewrite Z.add_0_r.
    apply Z.mod_small. lia. }
  exists c'. split; [exact Hins|].
  split; [|split; [exact Hnew1|split; [exact Hnew2|]]].
  2:{ rewrite Hscope. reflexivity. }
  assert (Hio1 : forall h, h ∈ l1 ++ a :: l2 -> indexOf c' h = indexOf c h).
  { intros h Hh. apply Hiother. intros ->. contradiction. }
  constructor.
  - rewrite Hscope. cbn [newScope firstMember]. apply chainSeg_app.
    exists (Some a). split.
    + apply chainSeg_agree with (syms := symbols c); [|exact Hc1].
      intros h Hh. apply Hsame. apply elem_of_app. left. exact Hh.
    + split; [reflexivity|]. eexists. split; [exact Hanchor|].
      cbn [set_nextInScope set_link nextInScope].
      split; [reflexivity|]. eexists. split; [exact Hmem|].
      cbn [set_parentScope set_link nextInScope newNext]. rewrite Ha.
      apply chainSeg_agree with (syms := symbols c); [|exact Hc2].
      intros h Hh. apply Hsame. apply elem_of_app. right. exact Hh.
  - rewrite Hscope. cbn [newScope lastMember newNext]. rewrite Ha.
    rewrite last_app_cons, last_cons_cons.
    destruct Htail as [(-> & _ & Hnx)|(h & t & -> & _ & Hnx)]; rewrite Hnx.
    + reflexivity.
    + rewrite Hlast, !last_cons_cons. reflexivity.
  - rewrite Forall_forall. intros h Hh.
    apply elem_of_app in Hh as [Hh|Hh].
    { rewrite Hsame by (apply elem_of_app; left; exact Hh).
      apply Hparent. apply elem_of_app. left. exact Hh. }
    apply elem_of_cons in Hh as [->|Hh].
    { eexists. split; [exact Hanchor|exact Hpa]. }
    apply elem_of_cons in Hh as [->|Hh].
    { eexists. split; [exact Hmem|reflexivity]. }
    rewrite Hsame by (apply elem_of_app; right; exact Hh).
    apply Hparent. apply elem_of_app. right. right. exact Hh.
  - apply NoDup_app. split; [exact Hnd1|]. split.
    + intros x Hx Hx'. apply elem_of_cons in Hx' as [->|Hx'].
      { contradiction. }
      apply elem_of_cons in Hx' as [->|Hx'].
      { apply Hnotin. apply elem_of_app. left. exact Hx. }
      apply (Hdisj x Hx). right. exact Hx'.
    + apply NoDup_cons. split.
      { intros Hx. apply elem_of_cons in Hx as [Hx|Hx]; [contradiction|].
        contradiction. }
      apply NoDup_cons. split; [|exact Hnd2].
      intros Hx. apply Hnotin. apply elem_of_app. right. right. exact Hx.
  - assert (Hsub : forall h, h ∈ l1 ++ a :: l2 -> h ∈ l1 ++ a :: member :: l2).
    { intros h Hh. apply elem_of_app in Hh as [Hh|Hh];
        apply elem_of_app; [left; exact Hh|right].
      apply elem_of_cons in Hh as [->|Hh]; [left|right; right; exact Hh]. }
    intros n h. rewrite Hscope. cbn [newScope nameMap].
    destruct (bool_decide (name m = EmptyString)).
    + intros Hh. apply Hsub. eapply Hnames; exact Hh.
    + unfold emplaceName.
      destruct (nameMap (getScope c this) !! name m) eqn:Hnm.
      * intros Hh. apply Hsub. eapply Hnames; exact Hh.
      * destruct (decide (n = name m)) as [->|Hnn].
        -- rewrite lookup_insert_eq. intros [= <-].
           apply elem_of_app. right. right. left.
        -- rewrite lookup_insert_ne by congruence. intros Hh.
           apply Hsub. eapply Hnames; exact Hh.
  - rewrite Forall_forall in *. intros h Hh.
    destruct (decide (h = member)) as [->|Hhm].
    + destruct (decide (Some a = lastMember (getScope c this))) as [Hl|Hl].
      * rewrite Hnew1 by exact Hl. specialize (Hover Hl). lia.
      * rewrite Hnew2 by exact Hl. lia.
    + rewrite Hiother by exact Hhm. apply Hrange.
      apply elem_of_app in Hh as [Hh|Hh]; apply elem_of_app; [left; exact Hh|right].
      apply elem_of_cons in Hh as [->|Hh]; [left|].
      apply elem_of_cons in Hh as [->|Hh]; [contradiction|right; exact Hh].
  - apply sorted_agree with (f := indexOf c) (f' := indexOf c') in Hsorted;
      [|exact Hio1].
    apply StronglySorted_app in Hsorted as (Hcross & Hs1 & Hs2).
    apply StronglySorted_cons in Hs2 as [Hal Hs2].
    assert (Hge : indexOf c' a <= indexOf c' member).
    { rewrite (Hio1 a) by (apply elem_of_app; right; left).
      destruct (decide (Some a = lastMember (getScope c this))) as [Hl|Hl].
      - rewrite Hnew1 by exact Hl. lia.
      - rewrite Hnew2 by exact Hl. lia. }
    apply StronglySorted_app. split; [|split; [exact Hs1|]].
    + intros x1 x2 Hx1 Hx2. cbv beta.
      apply elem_of_cons in Hx2 as [->|Hx2].
      { apply (Hcross x1 a Hx1). left. }
      apply elem_of_cons in Hx2 as [->|Hx2].
      { pose proof (Hcross x1 a Hx1 ltac:(left)) as Hxa. cbv beta in Hxa. lia. }
      apply (Hcross x1 x2 Hx1). right. exact Hx2.
    + apply StronglySorted_cons. split.
      { constructor; [exact Hge|exact Hal]. }
      apply StronglySorted_cons. split; [|exact Hs2].
      rewrite Forall_forall in *. intros h Hh.
      destruct Htail as [(-> & _)|(h0 & t & -> & Hnl & _)]; [inversion Hh|].
      rewrite Hnew2 by exact Hnl.
      rewrite <- (Hio1 a) by (apply elem_of_app; right; left).
      apply Hal. exact Hh.
Qed.

Lemma Unmoved_refl this c : Unmoved this c c.
Proof. split; [intros h s Hs; exists s; auto|auto]. Qed.

Lemma Unmoved_trans this c1 c2 c3 :
  Unmoved this c1 c2 -> Unmoved this c2 c3 -> Unmoved this c1 c3.
Proof.
  intros [Hs12 Hn12] [Hs23 Hn23]. split; [|auto].
  intros h s Hs.
  destruct (Hs12 h s Hs) as (s2 & Hs2 & Hi2 & Hd2 & Hm2 & Hp2).
  destruct (Hs23 h s2 Hs2) as (s3 & Hs3 & Hi3 & Hd3 & Hm3 & Hp3).
  exists s3. split; [exact Hs3|]. repeat split; congruence.
Qed.

Lemma emplaceName_keeps n member (m : gmap string handle) k h :
  m !! k = Some h -> emplaceName n member m !! k = Some h.
Proof.
  intros Hk. unfold emplaceName.
  destruct (m !! n) eqn:Hn; [exact Hk|].
  rewrite lookup_insert_ne by congruence. exact Hk.
Qed.

(** [insertMember] leaves every other symbol where it is. *)
Lemma insertMember_Unmoved this member at_ c c' :
  Scope.insertMember this member at_ c = Ok c' ->
  (forall h s, h <> member -> symbols c !! h = Some s ->
     exists s', symbols c' !! h = Some s' /\
       indexInScope s' = indexInScope s /\ data s' = data s /\
       name s' = name s /\ parentScope s' = parentScope s) /\
  (forall n h, nameMap (getScope c this) !! n = Some h ->
     nameMap (getScope c' this) !! n = Some h).
Proof.
  intros Hins.
  destruct (insertMember_inv _ _ _ _ _ Hins) as (m & Hm & Hp & Hn & Hat).
  destruct (insertMember_spec this member at_ c m Hm Hp Hn Hat)
    as (c'' & Hins' & Hmem & Hanchor & Hrest & Hscope & _).
  assert (c'' = c') by congruence. subst c''.
  split.
  - intros h s Hne Hs.
    destruct (decide (Some h = at_)) as [He|Hna].
    + rewrite (Hanchor h s (eq_sym He) Hne Hs). eexists.
      split; [reflexivity|]. repeat split.
    + rewrite Hrest by assumption. exists s. auto.
  - intros n h Hh. rewrite Hscope. cbn [newScope nameMap].
    destruct (bool_decide (name m = EmptyString)); [exact Hh|].
    apply emplaceName_keeps. exact Hh.
Qed.

Lemma spliceEnumValues_Unmoved this values : forall insertAt c c',
  Scope.spliceEnumValues this values insertAt c = Ok c' ->
  Unmoved this c c'.
Proof.
  induction values as [|v values IH]; intros insertAt c c';
    cbn [Scope.spliceEnumValues].
  - intros [= <-]. apply Unmoved_refl.
  - unfold getSymbol, readSymbol.
    destruct (symbols c !! v) as [vs|]; [|cbn [mbind Res_bind]; discriminate].
    cbn [mbind Res_bind].
    set (w := newSymbol (TransparentMemberSymbol v) (name vs) (location vs)).
    pose proof (emplace_fresh w c) as Hfresh.
    pose proof (emplace_other w c) as Hother.
    destruct (emplace w c) as [wrapped c1] eqn:He. cbn [fst snd] in *.
    destruct (Scope.insertMember this wrapped insertAt c1) as [c2|] eqn:Hins;
      [|cbn [mbind Res_bind]; discriminate].
    cbn [mbind Res_bind]. intros Hrec.
    apply IH in Hrec. eapply Unmoved_trans; [|exact Hrec].
    destruct (insertMember_Unmoved _ _ _ _ _ Hins) as [Hsym Hnm].
    split.
    + intros h s Hs. apply Hsym.
      * intros ->. congruence.
      * rewrite Hother by (intros ->; congruence). exact Hs.
    + intros n h Hh. apply Hnm.
      assert (Hsc : getScope c1 this = getScope c this).
      { unfold emplace in He. injection He as _ <-. reflexivity. }
      rewrite Hsc. exact Hh.
Qed.

Lemma realizeTransparentTypes_Unmoved this types : forall c c',
  Scope.realizeTransparentTypes this types c = Ok c' ->
  Unmoved this c c'.
Proof.
  induction types as [|[insertAt t] types IH]; intros c c'; simpl.
  - intros [= <-]. apply Unmoved_refl.
  - destruct (get t) as [[values|]|].
    + destruct (Scope.spliceEnumValues this values insertAt c) as [c1|] eqn:Hs;
        [|cbn [mbind Res_bind]; discriminate].
      cbn [mbind Res_bind]. intros Hrec. apply IH in Hrec.
      eapply Unmoved_trans; [|exact Hrec].
      eapply spliceEnumValues_Unmoved. exact Hs.
    + cbn [mbind Res_bind]. apply IH.
    + cbn [mbind Res_bind]. apply IH.
Qed.

Lemma setFound_data h s s' result :
  data s' = data s -> Scope.setFound h s' result = Scope.setFound h s result.
Proof.
  intros Hd. unfold Scope.setFound, kind, as_ExplicitImportSymbol,
    as_TransparentMemberSymbol. rewrite Hd. reflexivity.
Qed.

(** The direct search gives the same answer for a name whose symbol kept
    its index and its data. *)
Lemma lookupLocal_same this c c' n h s s' result :
  nameMap (getScope c this) !! n = Some h ->
  nameMap (getScope c' this) !! n = Some h ->
  symbols c !! h = Some s ->
  symbols c' !! h = Some s' ->
  indexInScope s' = indexInScope s ->
  data s' = data s ->
  Scope.lookupLocal this n result c' = Scope.lookupLocal this n result c.
Proof.
  intros Hn Hn' Hs Hs' Hi Hd.
  unfold Scope.lookupLocal, getSymbol, readSymbol.
  rewrite Hn', Hn, Hs, Hs'. cbn [mbind Res_bind].
  unfold LookupRefPoint.lt, LookupRefPoint.before. cbn [index].
  rewrite Hi, (setFound_data h s s' result Hd). reflexivity.
Qed.

Lemma lookupLocal_Unmoved this c c' n h s result :
  Unmoved this c c' ->
  nameMap (getScope c this) !! n = Some h ->
  symbols c !! h = Some s ->
  Scope.lookupLocal this n result c' = Scope.lookupLocal this n result c /\
  indexOf c' h = indexOf c h.
Proof.
  intros [Hsym Hnm] Hn Hs.
  destruct (Hsym h s Hs) as (s' & Hs' & Hi & Hd & _).
  split.
  - eapply lookupLocal_same; eauto.
  - unfold indexOf. rewrite Hs, Hs'. exact Hi.
Qed.

(** C5 (amended): in a well-linked scope, whose in-scope indices never
    decrease along the sibling chain, [insertMember] of an orphan symbol
    keeps the scope well linked, as long as the index of the last member
    is below [UINT32_MAX] when the member goes after it.  With a null
    anchor the member gets index 1 and is the new head, also when the scope
    has members already.  After an anchor the member gets the anchor's
    index plus one when the anchor is the last member, and the anchor's
    index otherwise.  No other member changes its index, and the direct
    search of every name of the scope answers as before; the same holds
    when the transparent members of enum types are spliced in. *)
Theorem C5_sibling_index :
  (forall c this l member m at_,
     WellLinked c this l ->
     symbols c !! member = Some m ->
     parentScope m = None ->
     nextInScope m = None ->
     (forall a, at_ = Some a ->
        a ∈ l /\
        (Some a = lastMember (getScope c this) -> indexOf c a < UINT32_MAX)) ->
     exists c',
       Scope.insertMember this member at_ c = Ok c' /\
       WellLinked c' this (spliced at_ member l) /\
       (at_ = None ->
          indexOf c' member = 1 /\
          firstMember (getScope c' this) = Some member) /\
       (forall a, at_ = Some a ->
          (Some a = lastMember (getScope c this) ->
             indexOf c' member = indexOf c a + 1) /\
          (Some a <> lastMember (getScope c this) ->
             indexOf c' member = indexOf c a)) /\
       (forall h, h ∈ l -> indexOf c' h = indexOf c h) /\
       (forall n h result,
          nameMap (getScope c this) !! n = Some h ->
          Scope.lookupLocal this n result c' =
          Scope.lookupLocal this n result c)) /\
  (forall this types c c' n h s result,
     Scope.realizeTransparentTypes this types c = Ok c' ->
     nameMap (getScope c this) !! n = Some h ->
     symbols c !! h = Some s ->
     Scope.lookupLocal this n result c' = Scope.lookupLocal this n result c /\
     indexOf c' h = indexOf c h).
Proof.
  split.
  - intros c this l member m at_ Hwl Hm Hp Hn Hat.
    assert (Hnotin : member ∉ l).
    { intros Hin. pose proof (wl_parent _ _ _ Hwl) as Hparent.
      rewrite Forall_forall in Hparent.
      destruct (Hparent member Hin) as (s & Hs & Hps). congruence. }
    assert (Hframe : forall c', Scope.insertMember this member at_ c = Ok c' ->
      (forall h, h ∈ l -> indexOf c' h = indexOf c h) /\
      (forall n h result,
         nameMap (getScope c this) !! n = Some h ->
         Scope.lookupLocal this n result c' =
         Scope.lookupLocal this n result c)).
    { intros c' Hins.
      destruct (insertMember_Unmoved _ _ _ _ _ Hins) as [Hsym Hnm].
      pose proof (wl_parent _ _ _ Hwl) as Hparent.
      rewrite Forall_forall in Hparent.
      split.
      - intros h Hh. destruct (Hparent h Hh) as (s & Hs & _).
        destruct (Hsym h s) as (s' & Hs' & Hi & _);
          [intros ->; contradiction|exact Hs|].
        unfold indexOf. rewrite Hs, Hs'. exact Hi.
      - intros n h result Hh.
        pose proof (wl_names _ _ _ Hwl n h Hh) as Hin.
        destruct (Hparent h Hin) as (s & Hs & _).
        destruct (Hsym h s) as (s' & Hs' & Hi & Hd & _);
          [intros ->; contradiction|exact Hs|].
        eapply lookupLocal_same; eauto. }
    destruct at_ as [a|].
    + destruct (Hat a eq_refl) as [Hin Hover].
      destruct (WellLinked_after c this l member m a Hwl Hm Hp Hn Hin Hover)
        as (c' & Hins & Hwl' & H1 & H2 & _).
      exists c'. split; [exact Hins|]. split; [exact Hwl'|].
      split; [intros [=]|].
      split; [intros a' [= <-]; split; assumption|].
      apply Hframe. exact Hins.
    + destruct (WellLinked_head c this l member m Hwl Hm Hp Hn)
        as (c' & Hins & Hwl' & H1 & H2).
      exists c'. split; [exact Hins|]. split; [exact Hwl'|].
      split; [intros _; split; assumption|].
      split; [intros a [=]|].
      apply Hframe. exact Hins.
  - intros this types c c' n h s result Hr Hn Hs.
    eapply lookupLocal_Unmoved; eauto.
    eapply realizeTransparentTypes_Unmoved. exact Hr.
Qed.

Lemma EnumFirst_declared_WellLinked :
  WellLinked EnumFirst.declared EnumFirst.unit [EnumFirst.x].
Proof.
  constructor.
  - simpl. split; [reflexivity|]. eexists. split; reflexivity.
  - reflexivity.
  - constructor; [|constructor]. eexists. split; reflexivity.
  - apply NoDup_singleton.
  - intros n h Hh.
    assert (Hl : (n, h) ∈ map_to_list (nameMap (getScope EnumFirst.declared
                                                   EnumFirst.unit)))
      by (apply elem_of_map_to_list; exact Hh).
    apply list_elem_of_singleton in Hl. injection Hl as _ ->. left.
  - constructor; [|constructor]. vm_compute. split; discriminate.
  - constructor; [constructor|constructor].
Qed.

Lemma C5_sibling_index_witness :
  exists c',
    Scope.insertMember EnumFirst.unit EnumFirst.valueA (Some EnumFirst.x)
      EnumFirst.declared = Ok c' /\
    WellLinked c' EnumFirst.unit [EnumFirst.x; EnumFirst.valueA] /\
    indexOf c' EnumFirst.valueA = 2 /\
    indexOf c' EnumFirst.x = 1.
Proof.
  destruct (proj1 C5_sibling_index EnumFirst.declared EnumFirst.unit
              [EnumFirst.x] EnumFirst.valueA
              (newSymbol EnumValueSymbol "A" (mkLoc 1 7)) (Some EnumFirst.x)
              EnumFirst_declared_WellLinked eq_refl eq_refl eq_refl)
    as (c' & Hins & Hwl & _ & Hidx & Hother & _).
  - intros a [= <-]. split; [left|]. intros _. vm_compute. reflexivity.
  - exists c'. split; [exact Hins|]. split; [exact Hwl|].
    split.
    + destruct (Hidx EnumFirst.x eq_refl) as [Hlast _].
      rewrite Hlast by reflexivity. reflexivity.
    + rewrite Hother by left. reflexivity.
Defined.

(** C5 as stated fails: in a compilation unit whose first member is
    [enum { A, B } x;], the variable [x] is appended to the empty scope,
    at the tail, with index 1.  Realizing the members splices the
    transparent members for [A] and [B] with a null anchor, so they get
    index 1 as well and come before [x] in the chain: from the wrapper of
    [B] to [x] the index does not increase, although [x], the later one,
    was not spliced at a non-tail position. *)
Lemma C5_counterexample :
  EnumFirst.declare = Ok EnumFirst.declared /\
  firstMember (getScope EnumFirst.declared EnumFirst.unit) = Some EnumFirst.x /\
  lastMember (getScope EnumFirst.declared EnumFirst.unit) = Some EnumFirst.x /\
  indexOf EnumFirst.declared EnumFirst.x = 1 /\
  EnumFirst.realize = Ok EnumFirst.state /\
  chainSeg (symbols EnumFirst.state)
    (firstMember (getScope EnumFirst.state EnumFirst.unit))
    [EnumFirst.wrappedA; EnumFirst.wrappedB; EnumFirst.x] None /\
  lastMember (getScope EnumFirst.state EnumFirst.unit) = Some EnumFirst.x /\
  indexOf EnumFirst.state EnumFirst.wrappedB = 1 /\
  indexOf EnumFirst.state EnumFirst.x = 1 /\
  ~ indexOf EnumFirst.state EnumFirst.wrappedB
    < indexOf EnumFirst.state EnumFirst.x.
Proof.
  split; [vm_compute; reflexivity|].
  split; [reflexivity|]. split; [reflexivity|]. split; [reflexivity|].
  split; [vm_compute; reflexivity|].
  split.
  { simpl. split; [reflexivity|]. eexists. split; [reflexivity|].
    split; [reflexivity|]. eexists. split; [reflexivity|].
    split; [reflexivity|]. eexists. split; reflexivity. }
  split; [reflexivity|]. split; [reflexivity|]. split; [reflexivity|].
  vm_compute. discriminate.
Qed.

(** ** Coalescing of diagnostics *)













(** The whole of [getSemanticDiagnostics] on the same compilation: the
    visitor counts three instances of [M], two occurrences count, and the
    one diagnostic issued names the second instance. *)
Example coalescing_end_to_end :
  (getSemanticDiagnostics noExternal 8 Coalescing.state
     ≫= fun r : list Diagnostic * Compilation => Ok r.1)
  = Ok [set_coalesced (Some Coalescing.i2) 2 (Coalescing.diagAt Coalescing.v2)].
Proof. vm_compute. reflexivity. Qed.

(** [addDiag] keeps every occurrence list non-empty, so [front] is defined
    on the groups it builds. *)
Lemma addDiag_groups_nonempty fuel diag c r c' :
  (forall key g, diagMap c !! key = Some g -> g.1 <> []) ->
  addDiag fuel diag c = Ok (r, c') ->
  forall key g, diagMap c' !! key = Some g -> g.1 <> [].
Proof.
  intros Hinv. unfold addDiag, ASSERT.
  destruct (bool_decide (diagSymbol diag ≠ None)); [|discriminate].
  cbn [mbind Res_bind].
  destruct (validLocation (diagLocation diag)); [|discriminate].
  cbn [mbind Res_bind].
  destruct (isSuppressed fuel (symbols c) (diagSymbol diag)) as [[]|];
    cbn [mbind Res_bind]; [|destruct (getInstanceOrDef _ _ _) as [inst|];
                            cbn [mbind Res_bind]|]; try discriminate.
  - intros [= _ <-]. exact Hinv.
  - destruct (diagMap c !! (code diag, diagLocation diag)) as [[dl di]|] eqn:Hg.
    + intros [= _ <-] key g. cbn [diagMap set_diagMap].
      destruct (decide (key = (code diag, diagLocation diag))) as [->|Hne].
      * rewrite lookup_insert_eq. intros [= <-]. cbn.
        destruct dl; discriminate.
      * rewrite lookup_insert_ne by congruence. apply Hinv.
    + intros [= _ <-] key g.
      assert (Hm : forall c0, diagMap
                (if isError diag then set_numErrors (usize (numErrors c + 1)) c0
                 else c0) = diagMap c0) by (intros c0; destruct (isError diag);
                                            reflexivity).
      cbn [diagMap set_diagMap]. rewrite Hm.
      destruct (decide (key = (code diag, diagLocation diag))) as [->|Hne].
      * rewrite lookup_insert_eq. intros [= <-]. discriminate.
      * rewrite lookup_insert_ne by congruence. apply Hinv.
Qed.

(** * Further properties of the code *)

(** ** The pools of the compilation *)

Lemma addPackage_fields package c c' :
  addPackage package c = Ok c' ->
  symbols c' = symbols c /\ scopes c' = scopes c /\ root c' = root c /\
  importData c' = importData c /\ deferredData c' = deferredData c.
Proof.
  unfold addPackage. destruct (getSymbol c package); cbn [mbind Res_bind];
    [|discriminate].
  intros [= <-]. repeat split.
Qed.

(** X1 (Compilation::addPackage, Compilation::getPackage, Scope::lookup).
    A package that is added is found under its name, unless a package of
    that name was added before: then the older one stays.  Other names are
    not touched.  A scoped lookup of the name that reaches a root scope
    with no member of that name and no imports reports the package. *)
Theorem addPackage_getPackage (c : Compilation) (package : handle) (p : Symbol) :
  symbols c !! package = Some p ->
  exists c',
    addPackage package c = Ok c' /\
    getPackage c' (name p) = Some (default package (getPackage c (name p))) /\
    (forall n, n <> name p -> getPackage c' n = getPackage c n) /\
    (forall ext fuel result rootSym,
       nameKind result = Scoped ->
       symbols c !! root c = Some rootSym ->
       kind rootSym = SkRoot ->
       getScope c (root c) = emptyScope ->
       Scope.lookup ext (S fuel) (root c) (name p) result c' =
         Ok (LookupResult.setSymbol (default package (getPackage c (name p)))
               false result, c')).
Proof.
  intros Hp.
  destruct (addPackage package c) as [c'|] eqn:Hadd;
    [|unfold addPackage, getSymbol, readSymbol in Hadd; rewrite Hp in Hadd;
      discriminate].
  destruct (addPackage_fields _ _ _ Hadd) as (Hsyms & Hscopes & Hroot' & _).
  exists c'. split; [reflexivity|].
  assert (Hget : forall q, packageMap c' !! q =
    if decide (q = name p)
    then Some (default package (packageMap c !! name p))
    else packageMap c !! q).
  { unfold addPackage, getSymbol, readSymbol in Hadd. rewrite Hp in Hadd.
    cbn [mbind Res_bind] in Hadd. injection Hadd as <-. cbn [packageMap].
    intros q. destruct (decide (q = name p)) as [->|Hne].
    - destruct (packageMap c !! name p) eqn:E; cbn [default].
      + exact E.
      + apply lookup_insert_eq.
    - destruct (packageMap c !! name p); [reflexivity|].
      apply lookup_insert_ne. congruence. }
  split.
  { unfold getPackage. rewrite Hget.
    destruct (decide (name p = name p)); [reflexivity|congruence]. }
  split.
  { intros n Hn. unfold getPackage. rewrite Hget.
    destruct (decide (n = name p)); [congruence|reflexivity]. }
  intros ext fuel result rootSym Hk Hroot Hkind Hscope.
  assert (Hscope' : getScope c' (root c) = emptyScope)
    by (unfold getScope in *; rewrite Hscopes; exact Hscope).
  rewrite lookup_S.
  unfold Scope.ensureMembers. rewrite Hscope'.
  cbn [deferredMemberIndex emptyScope mbind Res_bind].
  unfold Scope.lookupLocal. rewrite Hscope'. cbn [nameMap emptyScope].
  rewrite lookup_empty. cbn [mbind Res_bind].
  cbn [importDataIndex emptyScope queryImports Scope.lookupImports mbind Res_bind].
  unfold getSymbol, readSymbol. rewrite Hsyms, Hroot.
  cbn [mbind Res_bind]. rewrite Hkind.
  rewrite bool_decide_eq_true_2 by reflexivity.
  rewrite Hk. unfold getPackage at 1. rewrite Hget.
  destruct (decide (name p = name p)); [|congruence].
  reflexivity.
Qed.

Lemma addPackage_getPackage_witness :
  exists c',
    addPackage AmbiguousImports.q AmbiguousImports.state = Ok c' /\
    getPackage c' "q" = Some AmbiguousImports.q /\
    getPackage c' "p" = Some AmbiguousImports.p.
Proof.
  destruct (addPackage_getPackage AmbiguousImports.state AmbiguousImports.q
              (mkSymbol PackageSymbol "q" (mkLoc 1 100) (Some 0%nat)
                 (Some AmbiguousImports.unit) 2))
    as (c' & Hadd & Hsame & Hother & _).
  - vm_compute. reflexivity.
  - exists c'. split; [exact Hadd|]. split.
    + exact Hsame.
    + rewrite (Hother "p"); [vm_compute; reflexivity|discriminate].
Defined.

(** What [trackImport] does to the list of a scope. *)
Lemma trackImport_spec (c : Compilation) (index : option nat)
    (import : handle) :
  (forall i, index = Some i -> (i < length (importData c))%nat) ->
  let index' := (trackImport index import c).1 in
  let c' := (trackImport index import c).2 in
  queryImports c' index' = queryImports c index ++ [import] /\
  (forall i, index = Some i -> index' = Some i) /\
  (index = None -> index' = Some (length (importData c))) /\
  (forall j, Some j <> index' ->
     queryImports c' (Some j) = queryImports c (Some j)) /\
  symbols c' = symbols c /\ scopes c' = scopes c.
Proof.
  intros Hvalid. destruct index as [i|]; cbn [trackImport fst snd].
  - specialize (Hvalid i eq_refl).
    destruct (lookup_lt_is_Some_2 _ _ Hvalid) as [l Hl].
    unfold queryImports. cbn [importData set_importData].
    split.
    { rewrite list_lookup_alter_eq, Hl. reflexivity. }
    split; [intros ? [= <-]; reflexivity|].
    split; [discriminate|].
    split; [|split; reflexivity].
    intros j Hj. rewrite list_lookup_alter_ne by congruence. reflexivity.
  - unfold queryImports. cbn [importData set_importData].
    split.
    { rewrite lookup_app_r by lia. rewrite Nat.sub_diag. reflexivity. }
    split; [discriminate|].
    split; [reflexivity|].
    split; [|split; reflexivity].
    intros j Hj.
    destruct (decide (j < length (importData c))%nat) as [Hlt|Hge].
    + rewrite lookup_app_l by exact Hlt. reflexivity.
    + assert (j <> length (importData c)) by congruence.
      rewrite (lookup_ge_None_2 (importData c)) by lia.
      rewrite lookup_ge_None_2; [reflexivity|].
      rewrite length_app. cbn. lia.
Qed.


(** X2 (Compilation::setAttributes, Compilation::getAttributes).  The
    attributes set for an object are the ones read back, a second call
    replaces the first, other objects are not touched, and an object that
    never got attributes has none. *)
Theorem setAttributes_getAttributes (c : Compilation) (ptr : handle)
    (attrs attrs' : list handle) :
  getAttributes (setAttributes ptr attrs c) ptr = attrs /\
  getAttributes (setAttributes ptr attrs' (setAttributes ptr attrs c)) ptr
    = attrs' /\
  (forall q, q <> ptr ->
     getAttributes (setAttributes ptr attrs c) q = getAttributes c q) /\
  (forall q, getAttributes (newCompilation (errorLimit c)) q = []).
Proof.
  unfold getAttributes, setAttributes. cbn [attributeMap set_attributeMap].
  split; [rewrite lookup_insert_eq; reflexivity|].
  split; [rewrite lookup_insert_eq; reflexivity|].
  split.
  - intros q Hq. rewrite lookup_insert_ne by congruence. reflexivity.
  - intros q. cbn. rewrite lookup_empty. reflexivity.
Qed.

(** X3 (Compilation::addSystemSubroutine, addSystemMethod,
    getSystemSubroutine, getSystemMethod).  A registered subroutine is found
    under its name and a method under its name and type kind, unless an
    older registration holds that key: the older one stays.  Methods of the
    same name on different type kinds do not collide, the two tables are
    separate, and an unregistered key gives nothing. *)
Theorem system_registry (r : SystemRegistry) (s : SystemSubroutine)
    (k : SymbolKind) :
  getSystemSubroutine (addSystemSubroutine s r) (subroutineName s)
    = Some (default s (getSystemSubroutine r (subroutineName s))) /\
  (forall n, n <> subroutineName s ->
     getSystemSubroutine (addSystemSubroutine s r) n = getSystemSubroutine r n) /\
  getSystemMethod (addSystemMethod k s r) k (subroutineName s)
    = Some (default s (getSystemMethod r k (subroutineName s))) /\
  (forall k' n, (n, k') <> (subroutineName s, k) ->
     getSystemMethod (addSystemMethod k s r) k' n = getSystemMethod r k' n) /\
  (forall k' n,
     getSystemMethod (addSystemSubroutine s r) k' n = getSystemMethod r k' n /\
     getSystemSubroutine (addSystemMethod k s r) n = getSystemSubroutine r n) /\
  (forall k' n, getSystemSubroutine emptyRegistry n = None /\
                getSystemMethod emptyRegistry k' n = None).
Proof.
  assert (Hemp : forall (K : Type) (EqK : EqDecision K) (CK : Countable K)
                   (V : Type) (key q : K) (v : V) (m : gmap K V),
    emplaceKey key v m !! q =
    if decide (q = key) then Some (default v (m !! key)) else m !! q).
  { intros K EqK CK V key q v m. unfold emplaceKey.
    destruct (decide (q = key)) as [->|Hne].
    - destruct (m !! key) eqn:E; cbn [default]; [exact E|].
      apply lookup_insert_eq.
    - destruct (m !! key); [reflexivity|].
      apply lookup_insert_ne. congruence. }
  unfold getSystemSubroutine, getSystemMethod, addSystemSubroutine,
    addSystemMethod. cbn [subroutineMap methodMap].
  split; [rewrite Hemp; rewrite decide_True by reflexivity; reflexivity|].
  split; [intros n Hn; rewrite Hemp; rewrite decide_False by exact Hn;
          reflexivity|].
  split; [rewrite Hemp; rewrite decide_True by reflexivity; reflexivity|].
  split; [intros k' n Hn; rewrite Hemp; rewrite decide_False by exact Hn;
          reflexivity|].
  split; [intros k' n; split; reflexivity|].
  intros k' n. cbn. rewrite !lookup_empty. split; reflexivity.
Qed.

(** ** Adding members to a scope *)

Lemma WellLinked_agree c c' this l :
  (forall h, h ∈ l -> symbols c' !! h = symbols c !! h) ->
  firstMember (getScope c' this) = firstMember (getScope c this) ->
  lastMember (getScope c' this) = lastMember (getScope c this) ->
  nameMap (getScope c' this) = nameMap (getScope c this) ->
  WellLinked c this l -> WellLinked c' this l.
Proof.
  intros Hsame Hf Hl Hnm [Hchain Hlast Hparent Hnodup Hnames Hrange Hsorted].
  assert (Hidx : forall h, h ∈ l -> indexOf c' h = indexOf c h)
    by (intros h Hh; unfold indexOf; rewrite Hsame by exact Hh; reflexivity).
  constructor.
  - rewrite Hf. apply chainSeg_agree with (syms := symbols c); assumption.
  - rewrite Hl. exact Hlast.
  - rewrite Forall_forall in *. intros h Hh. rewrite Hsame by exact Hh. auto.
  - exact Hnodup.
  - rewrite Hnm. exact Hnames.
  - rewrite Forall_forall in *. intros h Hh. rewrite Hidx by exact Hh. auto.
  - apply sorted_agree with (f := indexOf c); assumption.
Qed.

(** A scope without members is well linked. *)
Lemma WellLinked_nil c this :
  firstMember (getScope c this) = None ->
  lastMember (getScope c this) = None ->
  nameMap (getScope c this) = ∅ ->
  WellLinked c this [].
Proof.
  intros Hf Hl Hnm. constructor.
  - exact Hf.
  - exact Hl.
  - constructor.
  - constructor.
  - intros n h. rewrite Hnm, lookup_empty. discriminate.
  - constructor.
  - constructor.
Qed.

(** What [updateDeferredData] leaves alone. *)
Lemma updateDeferredData_frame this f c :
  let c' := Scope.updateDeferredData this f c in
  symbols c' = symbols c /\
  firstMember (getScope c' this) = firstMember (getScope c this) /\
  lastMember (getScope c' this) = lastMember (getScope c this) /\
  nameMap (getScope c' this) = nameMap (getScope c this) /\
  importDataIndex (getScope c' this) = importDataIndex (getScope c this) /\
  (forall h, h <> this -> getScope c' h = getScope c h) /\
  importData c' = importData c /\
  deferredMemberIndex (getScope c' this) <> None.
Proof.
  cbv zeta.
  assert (Hsc : exists i,
    getScope (Scope.updateDeferredData this f c) this =
      set_deferredMemberIndex (Some i) (getScope c this)).
  { unfold Scope.updateDeferredData, getOrAddDeferredData.
    destruct (deferredMemberIndex (getScope c this)) as [i|]; eexists;
      unfold getScope at 1; cbn [scopes set_deferredData putScope set_scopes];
      rewrite lookup_insert_eq; reflexivity. }
  destruct Hsc as [i Hsc]. rewrite Hsc.
  cbn [set_deferredMemberIndex firstMember lastMember nameMap importDataIndex
       deferredMemberIndex].
  split.
  { unfold Scope.updateDeferredData, getOrAddDeferredData.
    destruct (deferredMemberIndex (getScope c this)); reflexivity. }
  do 4 (split; [reflexivity|]).
  split; [|split; [|discriminate]].
  - intros h Hh. unfold Scope.updateDeferredData, getOrAddDeferredData.
    destruct (deferredMemberIndex (getScope c this));
      unfold getScope at 1; cbn [scopes set_deferredData putScope set_scopes];
      rewrite lookup_insert_ne by congruence; reflexivity.
  - unfold Scope.updateDeferredData, getOrAddDeferredData.
    destruct (deferredMemberIndex (getScope c this)); reflexivity.
Qed.

(** [addMember] is [insertMember] after the last member, once the type of
    the symbol is registered if it was written as an enum type. *)
Lemma addMember_unfold this symbol c s :
  symbols c !! symbol = Some s ->
  Scope.addMember this symbol c =
    let c1 := match exposedType s with
              | Some t =>
                  if exposesEnum s
                  then Scope.updateDeferredData this
                         (Scope.registerTransparentType
                            (lastMember (getScope c this)) t) c
                  else c
              | None => c
              end in
    Scope.insertMember this symbol (lastMember (getScope c1 this)) c1.
Proof.
  intros Hs. unfold Scope.addMember, getSymbol, readSymbol. rewrite Hs.
  cbn [mbind Res_bind]. unfold exposesEnum, exposedType.
  destruct (data s) as [| | | | | | | | |t|t|t|t| | | | | | | | |];
    try reflexivity;
    destruct (getSourceOrNull t) as [[| | | | |]|]; reflexivity.
Qed.

Lemma spliceAfter_last a member l :
  NoDup l -> last l = Some a -> spliceAfter a member l = l ++ [member].
Proof.
  intros Hnd Hlast.
  destruct (last_Some l a) as [[l' ->] _]; [exact Hlast|].
  apply NoDup_app in Hnd as (_ & Hdisj & _).
  rewrite spliceAfter_split.
  - rewrite <- app_assoc. reflexivity.
  - intros Hin. apply (Hdisj a Hin). left.
Qed.

(** What [addMember] does to a well-linked scope, for an orphan symbol. *)
Lemma addMember_spec c this l symbol s :
  WellLinked c this l ->
  symbols c !! symbol = Some s ->
  parentScope s = None ->
  nextInScope s = None ->
  (forall a, last l = Some a -> indexOf c a < UINT32_MAX) ->
  exists c' s',
    Scope.addMember this symbol c = Ok c' /\
    WellLinked c' this (l ++ [symbol]) /\
    symbols c' !! symbol = Some s' /\
    data s' = data s /\ name s' = name s /\
    parentScope s' = Some this /\ nextInScope s' = None /\
    indexInScope s' = match last l with
                      | Some a => indexOf c a + 1
                      | None => 1
                      end /\
    (forall h s0, h <> symbol -> symbols c !! h = Some s0 ->
       exists s0', symbols c' !! h = Some s0' /\
         indexInScope s0' = indexInScope s0 /\ data s0' = data s0 /\
         name s0' = name s0 /\ parentScope s0' = parentScope s0) /\
    nameMap (getScope c' this) =
      (if bool_decide (name s = EmptyString) then nameMap (getScope c this)
       else emplaceName (name s) symbol (nameMap (getScope c this))) /\
    importDataIndex (getScope c' this) = importDataIndex (getScope c this) /\
    importData c' = importData c /\
    (exposesEnum s = false ->
       deferredMemberIndex (getScope c' this)
         = deferredMemberIndex (getScope c this) /\
       deferredData c' = deferredData c).
Proof.
  intros Hwl Hs Hp Hn Hover.
  rewrite (addMember_unfold this symbol c s Hs). cbv zeta.
  set (c1 := match exposedType s with
             | Some t =>
                 if exposesEnum s
                 then Scope.updateDeferredData this
                        (Scope.registerTransparentType
                           (lastMember (getScope c this)) t) c
                 else c
             | None => c
             end).
  assert (Hframe : symbols c1 = symbols c /\
    firstMember (getScope c1 this) = firstMember (getScope c this) /\
    lastMember (getScope c1 this) = lastMember (getScope c this) /\
    nameMap (getScope c1 this) = nameMap (getScope c this) /\
    importDataIndex (getScope c1 this) = importDataIndex (getScope c this) /\
    importData c1 = importData c /\
    (exposesEnum s = false -> c1 = c)).
  { subst c1. destruct (exposedType s) as [t|]; [|repeat split].
    destruct (exposesEnum s); [|repeat split].
    destruct (updateDeferredData_frame this
                (Scope.registerTransparentType (lastMember (getScope c this)) t) c)
      as (H1 & H2 & H3 & H4 & H5 & _ & H6 & _).
    repeat split; try assumption. discriminate. }
  destruct Hframe as (Hsyms & Hf1 & Hl1 & Hnm1 & Hidx1 & Himp1 & Hsame1).
  assert (Hwl1 : WellLinked c1 this l).
  { apply WellLinked_agree with (c := c); try assumption.
    intros h _. rewrite Hsyms. reflexivity. }
  assert (Hio : forall h, indexOf c1 h = indexOf c h)
    by (intros h; unfold indexOf; rewrite Hsyms; reflexivity).
  assert (Hs1 : symbols c1 !! symbol = Some s) by (rewrite Hsyms; exact Hs).
  assert (Hlast1 : lastMember (getScope c1 this) = last l) by apply Hwl1.
  assert (Hat : forall a, lastMember (getScope c1 this) = Some a ->
                          is_Some (symbols c1 !! a)).
  { intros a Ha. rewrite Hlast1 in Ha. apply last_Some_elem_of in Ha.
    pose proof (wl_parent _ _ _ Hwl1) as Hpar. rewrite Forall_forall in Hpar.
    destruct (Hpar a Ha) as (x & Hx & _). eauto. }
  destruct (insertMember_spec this symbol (lastMember (getScope c1 this)) c1 s
              Hs1 Hp Hn Hat)
    as (c' & Hins & Hmem & _ & _ & Hscope & _ & _ & _ & _ & Hdd & Himp & _).
  destruct (insertMember_Unmoved _ _ _ _ _ Hins) as [Hunm _].
  exists c'. eexists. split; [exact Hins|].
  assert (Hnew : newIndex c1 this (lastMember (getScope c1 this)) =
                 match last l with
                 | Some a => indexOf c a + 1
                 | None => 1
                 end /\
                 newNext c1 this (lastMember (getScope c1 this)) = None /\
                 WellLinked c' this (l ++ [symbol])).
  { rewrite Hlast1. destruct (last l) as [a|] eqn:Hlastl.
    - assert (Hin : a ∈ l) by (apply last_Some_elem_of; exact Hlastl).
      destruct (WellLinked_after c1 this l symbol s a Hwl1 Hs1 Hp Hn Hin)
        as (c'' & Hins' & Hwl' & Hi1 & _).
      { intros _. rewrite Hio. apply Hover. reflexivity. }
      rewrite Hlast1 in Hins. rewrite Hins in Hins'. injection Hins' as <-.
      rewrite (spliceAfter_last a symbol l (wl_nodup _ _ _ Hwl1) Hlastl) in Hwl'.
      specialize (Hi1 (eq_sym Hlast1)).
      rewrite Hlast1 in Hmem.
      unfold indexOf at 1 in Hi1. rewrite Hmem in Hi1.
      cbn [indexInScope set_parentScope set_link] in Hi1.
      rewrite Hio in Hi1.
      split; [exact Hi1|]. split; [|exact Hwl'].
      unfold newNext.
      pose proof (wl_chain _ _ _ Hwl1) as Hchain.
      destruct (last_Some l a) as [[l' ->] _]; [exact Hlastl|].
      apply chainSeg_app in Hchain as (mid & _ & Hc2).
      destruct Hc2 as (_ & asym & Ha & Hend). rewrite Ha. exact Hend.
    - apply last_None in Hlastl. subst l.
      destruct (WellLinked_head c1 this [] symbol s Hwl1 Hs1 Hp Hn)
        as (c'' & Hins' & Hwl' & _).
      rewrite Hlast1 in Hins. cbn [last] in Hins.
      rewrite Hins in Hins'. injection Hins' as <-.
      split; [reflexivity|]. split; [|exact Hwl'].
      unfold newNext. apply (wl_chain _ _ _ Hwl1). }
  destruct Hnew as (Hni & Hnn & Hwl').
  split; [exact Hwl'|].
  split; [exact Hmem|].
  cbn [data name parentScope nextInScope indexInScope set_parentScope set_link].
  do 3 (split; [reflexivity|]).
  split; [exact Hnn|]. split; [exact Hni|].
  split.
  { intros h s0 Hne Hs0. apply Hunm; [exact Hne|]. rewrite Hsyms. exact Hs0. }
  split.
  { rewrite Hscope. unfold newScope. cbn [nameMap]. rewrite Hnm1. reflexivity. }
  split.
  { rewrite Hscope. unfold newScope. cbn [importDataIndex]. exact Hidx1. }
  split; [rewrite Himp; exact Himp1|].
  intros He. rewrite (Hsame1 He) in *. split; [|exact Hdd].
  rewrite Hscope. reflexivity.
Qed.

(** In a well-linked scope no member has a larger index than the last. *)
Lemma WellLinked_last_max c this l a :
  WellLinked c this l -> last l = Some a ->
  forall h, h ∈ l -> indexOf c h <= indexOf c a.
Proof.
  intros Hwl Hlast h Hh.
  destruct (last_Some l a) as [[l' ->] _]; [exact Hlast|].
  pose proof (wl_sorted _ _ _ Hwl) as Hsorted.
  apply StronglySorted_app in Hsorted as (Hcross & _ & _).
  apply elem_of_app in Hh as [Hh|Hh].
  - apply (Hcross h a Hh). left.
  - apply list_elem_of_singleton in Hh. subst h. lia.
Qed.

(** X4 (Scope::addMember, Scope::insertMember).  Adding an orphan symbol to
    a well-linked scope appends it to the sibling chain: the scope stays
    well linked, the symbol is its last member, and its index is one more
    than the index of the former last member (1 in an empty scope), so
    that every older member has a strictly smaller index. *)
Theorem addMember_appends (c : Compilation) (this : handle) (l : list handle)
    (symbol : handle) (s : Symbol) :
  WellLinked c this l ->
  symbols c !! symbol = Some s ->
  parentScope s = None ->
  nextInScope s = None ->
  (forall a, last l = Some a -> indexOf c a < UINT32_MAX) ->
  exists c',
    Scope.addMember this symbol c = Ok c' /\
    WellLinked c' this (l ++ [symbol]) /\
    lastMember (getScope c' this) = Some symbol /\
    indexOf c' symbol = match last l with
                        | Some a => indexOf c a + 1
                        | None => 1
                        end /\
    Forall (fun h => indexOf c' h = indexOf c h /\
                     indexOf c' h < indexOf c' symbol) l.
Proof.
  intros Hwl Hs Hp Hn Hover.
  destruct (addMember_spec c this l symbol s Hwl Hs Hp Hn Hover)
    as (c' & s' & Hadd & Hwl' & Hs' & _ & _ & _ & _ & Hidx & Hold & _).
  assert (Hidx' : indexOf c' symbol = match last l with
                                      | Some a => indexOf c a + 1
                                      | None => 1
                                      end)
    by (unfold indexOf at 1; rewrite Hs'; exact Hidx).
  exists c'. split; [exact Hadd|]. split; [exact Hwl'|].
  split; [rewrite (wl_last _ _ _ Hwl'); apply last_snoc|].
  split; [exact Hidx'|].
  rewrite Forall_forall. intros h Hh.
  pose proof (wl_parent _ _ _ Hwl) as Hpar. rewrite Forall_forall in Hpar.
  destruct (Hpar h Hh) as (hs & Hhs & Hhp).
  assert (Hne : h <> symbol) by (intros ->; congruence).
  destruct (Hold h hs Hne Hhs) as (hs' & Hhs' & Hi & _).
  assert (Hsame : indexOf c' h = indexOf c h)
    by (unfold indexOf; rewrite Hhs', Hhs; exact Hi).
  split; [exact Hsame|]. rewrite Hsame, Hidx'.
  destruct (last l) as [a|] eqn:Hlast.
  - pose proof (WellLinked_last_max c this l a Hwl Hlast h Hh). lia.
  - apply last_None in Hlast. subst l. inversion Hh.
Qed.

Lemma addMember_appends_witness :
  exists c',
    Scope.addMember EnumFirst.unit EnumFirst.valueA EnumFirst.declared = Ok c' /\
    WellLinked c' EnumFirst.unit [EnumFirst.x; EnumFirst.valueA] /\
    indexOf c' EnumFirst.valueA = 2.
Proof.
  destruct (addMember_appends EnumFirst.declared EnumFirst.unit [EnumFirst.x]
              EnumFirst.valueA
              (newSymbol EnumValueSymbol "A" (mkLoc 1 7)))
    as (c' & Hadd & Hwl & _ & Hidx & _).
  - exact EnumFirst_declared_WellLinked.
  - vm_compute. reflexivity.
  - reflexivity.
  - reflexivity.
  - intros a [= <-]. vm_compute. reflexivity.
  - exists c'. split; [exact Hadd|]. split; [exact Hwl|]. exact Hidx.
Defined.

Lemma addMember_inv this symbol c c' :
  Scope.addMember this symbol c = Ok c' ->
  exists s s', symbols c !! symbol = Some s /\
    symbols c' !! symbol = Some s' /\ parentScope s' = Some this.
Proof.
  intros Hadd.
  destruct (symbols c !! symbol) as [s|] eqn:Hs.
  2:{ unfold Scope.addMember, getSymbol, readSymbol in Hadd.
      rewrite Hs in Hadd. discriminate. }
  rewrite (addMember_unfold this symbol c s Hs) in Hadd. cbv zeta in Hadd.
  destruct (insertMember_inv _ _ _ _ _ Hadd) as (m & Hm & Hp & Hn & Hat).
  destruct (insertMember_spec this symbol _ _ m Hm Hp Hn Hat)
    as (c'' & Hins & Hmem & _).
  rewrite Hadd in Hins. injection Hins as <-.
  exists s. eexists. split; [reflexivity|]. split; [exact Hmem|]. reflexivity.
Qed.

(** X5 (Scope::addMember, Scope::insertMember).  A symbol is a member of
    one scope only: once it was added to a scope, adding it again, to that
    scope or to any other, fails the assertion of [insertMember]. *)
Theorem addMember_once (c c' : Compilation) (this other symbol : handle) :
  Scope.addMember this symbol c = Ok c' ->
  Scope.addMember other symbol c' = Err AssertFailed.
Proof.
  intros Hadd.
  destruct (addMember_inv _ _ _ _ Hadd) as (s & s' & _ & Hs' & Hp).
  rewrite (addMember_unfold other symbol c' s' Hs'). cbv zeta.
  set (c1 := match exposedType s' with
             | Some t =>
                 if exposesEnum s'
                 then Scope.updateDeferredData other
                        (Scope.registerTransparentType
                           (lastMember (getScope c' other)) t) c'
                 else c'
             | None => c'
             end).
  assert (Hsyms : symbols c1 = symbols c').
  { subst c1. destruct (exposedType s'); [|reflexivity].
    destruct (exposesEnum s'); [|reflexivity].
    apply updateDeferredData_frame. }
  unfold Scope.insertMember, getSymbol, readSymbol. rewrite Hsyms, Hs'.
  cbn [mbind Res_bind]. rewrite Hp. reflexivity.
Qed.

Lemma addMember_once_witness :
  Scope.addMember 0%nat EnumFirst.x EnumFirst.declared = Err AssertFailed.
Proof.
  apply (addMember_once
           (fromOk (let c := newCompilation 0 in
                    let '(unit, c) :=
                      emplace (newSymbol CompilationUnitSymbol "" (mkLoc 1 0)) c in
                    c ← Scope.addMember (root c) unit c;
                    let '(_, c) := emplace (newSymbol EnumValueSymbol "A" (mkLoc 1 7)) c in
                    let '(_, c) := emplace (newSymbol EnumValueSymbol "B" (mkLoc 1 10)) c in
                    let '(x, c) :=
                      emplace (newSymbol (VariableSymbol EnumFirst.enumType) "x"
                                 (mkLoc 1 14)) c in
                    Ok c))
           EnumFirst.declared EnumFirst.unit 0%nat EnumFirst.x).
  vm_compute. reflexivity.
Defined.

Lemma setFound_plain h sym result :
  kind sym <> SkExplicitImport -> kind sym <> SkTransparentMember ->
  Scope.setFound h sym result = Ok (LookupResult.setSymbol h false result).
Proof.
  intros H1 H2. unfold Scope.setFound.
  destruct (kind sym); try reflexivity; congruence.
Qed.

(** X6 (Scope::addMember, Scope::insertMember, Scope::lookup).  After a
    named symbol was added to a well-linked scope, the direct search of a
    local or scoped lookup finds it under its name from every reference
    point after its index and from no other, provided the name was free.
    If the name was taken, the older member keeps it: the search answers
    as before.  Searches for other names are not affected. *)
Theorem addMember_then_lookup (c : Compilation) (this : handle)
    (l : list handle) (symbol : handle) (s : Symbol) (result : LookupResult) :
  WellLinked c this l ->
  symbols c !! symbol = Some s ->
  parentScope s = None ->
  nextInScope s = None ->
  (forall a, last l = Some a -> indexOf c a < UINT32_MAX) ->
  name s <> EmptyString ->
  kind s <> SkExplicitImport ->
  kind s <> SkTransparentMember ->
  nameKind result = Local \/ nameKind result = Scoped ->
  exists c',
    Scope.addMember this symbol c = Ok c' /\
    (nameMap (getScope c this) !! name s = None ->
       Scope.lookupLocal this (name s) result c' =
         if indexOf c' symbol <? index (referencePoint result)
         then Ok (Some (LookupResult.setSymbol symbol false result))
         else Ok None) /\
    (is_Some (nameMap (getScope c this) !! name s) ->
       Scope.lookupLocal this (name s) result c' =
       Scope.lookupLocal this (name s) result c) /\
    (forall n, n <> name s ->
       Scope.lookupLocal this n result c' = Scope.lookupLocal this n result c).
Proof.
  intros Hwl Hs Hp Hn Hover Hname Hk1 Hk2 Hkind.
  destruct (addMember_spec c this l symbol s Hwl Hs Hp Hn Hover)
    as (c' & s' & Hadd & Hwl' & Hs' & Hd & Hnm & _ & _ & _ & Hold & Hmap & _).
  rewrite bool_decide_eq_false_2 in Hmap by exact Hname.
  assert (Hkept : forall n h, nameMap (getScope c this) !! n = Some h ->
            Scope.lookupLocal this n result c' = Scope.lookupLocal this n result c).
  { intros n h Hh.
    pose proof (wl_parent _ _ _ Hwl) as Hpar. rewrite Forall_forall in Hpar.
    destruct (Hpar h (wl_names _ _ _ Hwl n h Hh)) as (hs & Hhs & Hhp).
    assert (Hne : h <> symbol) by (intros ->; congruence).
    destruct (Hold h hs Hne Hhs) as (hs' & Hhs' & Hi & Hdata & _).
    apply (lookupLocal_same this c c' n h hs hs'); try assumption.
    rewrite Hmap. apply emplaceName_keeps. exact Hh. }
  exists c'. split; [exact Hadd|]. split; [|split].
  - intros Hfree.
    assert (Hbound : nameMap (getScope c' this) !! name s = Some symbol).
    { rewrite Hmap. unfold emplaceName. rewrite Hfree. apply lookup_insert_eq. }
    rewrite (lookupLocal_entry this (name s) result c' symbol s' Hbound Hs').
    assert (Hm : LookupResult.referencePointMatters result = true)
      by (unfold LookupResult.referencePointMatters;
          destruct Hkind as [-> | ->]; reflexivity).
    rewrite Hm. unfold LookupRefPoint.lt, LookupRefPoint.before. cbn [index].
    unfold indexOf. rewrite Hs'.
    destruct (indexInScope s' <? index (referencePoint result)); [|reflexivity].
    rewrite setFound_plain; [reflexivity| |]; unfold kind in *; rewrite Hd;
      assumption.
  - intros [h Hh]. apply (Hkept _ h Hh).
  - intros n Hne.
    destruct (nameMap (getScope c this) !! n) as [h|] eqn:Hh;
      [apply (Hkept _ h Hh)|].
    unfold Scope.lookupLocal. rewrite Hmap, Hh.
    unfold emplaceName.
    destruct (nameMap (getScope c this) !! name s); [rewrite Hh; reflexivity|].
    rewrite lookup_insert_ne by congruence. rewrite Hh. reflexivity.
Qed.

Lemma addMember_then_lookup_witness :
  let result := lookupFrom Local (LookupRefPoint.endOfScope EnumFirst.unit) in
  exists c',
    Scope.addMember EnumFirst.unit EnumFirst.valueA EnumFirst.declared = Ok c' /\
    Scope.lookupLocal EnumFirst.unit "A" result c' =
      if indexOf c' EnumFirst.valueA <? UINT32_MAX
      then Ok (Some (LookupResult.setSymbol EnumFirst.valueA false result))
      else Ok None.
Proof.
  intros result.
  destruct (addMember_then_lookup EnumFirst.declared EnumFirst.unit [EnumFirst.x]
              EnumFirst.valueA
              (newSymbol EnumValueSymbol "A" (mkLoc 1 7)) result)
    as (c' & Hadd & Hfound & _).
  - exact EnumFirst_declared_WellLinked.
  - vm_compute. reflexivity.
  - reflexivity.
  - reflexivity.
  - intros a [= <-]. vm_compute. reflexivity.
  - discriminate.
  - discriminate.
  - discriminate.
  - left. reflexivity.
  - exists c'. split; [exact Hadd|].
    apply Hfound. vm_compute. reflexivity.
Defined.

(** ** Transparent enum members *)

Lemma updateDeferredData_fresh this f c :
  deferredMemberIndex (getScope c this) = None ->
  let c' := Scope.updateDeferredData this f c in
  deferredMemberIndex (getScope c' this) = Some (length (deferredData c)) /\
  deferredData c' = deferredData c ++ [f emptyDeferred].
Proof.
  intros Hnone. cbv zeta. unfold Scope.updateDeferredData, getOrAddDeferredData.
  rewrite Hnone. split.
  - unfold getScope at 1. cbn [scopes set_deferredData putScope set_scopes].
    rewrite lookup_insert_eq. reflexivity.
  - cbn [deferredData set_deferredData putScope set_scopes].
    rewrite <- (Nat.add_0_r (length (deferredData c))) at 1.
    rewrite alter_app_r. reflexivity.
Qed.

Lemma bind_Ok {A} (m : Res A) : m ≫= (fun a => Ok a) = m.
Proof. destruct m; reflexivity. Qed.

(** Realizing a scope whose deferred data holds transparent types only. *)
Lemma realizeDeferredMembers_types ext this c i d :
  deferredMemberIndex (getScope c this) = Some i ->
  deferredData c !! i = Some d ->
  statement d = None ->
  members d = [] ->
  Scope.realizeDeferredMembers ext this c =
    Scope.realizeTransparentTypes this (transparentTypes d)
      (putScope this (set_deferredMemberIndex None (getScope c this)) c).
Proof.
  intros Hi Hd Hst Hmem. unfold Scope.realizeDeferredMembers.
  rewrite Hi. cbn [bool_decide decide_rel ASSERT mbind Res_bind deref].
  rewrite bool_decide_eq_true_2 by discriminate.
  cbn [mbind Res_bind]. rewrite Hd. cbn [mbind Res_bind].
  rewrite Hst, Hmem. cbn [Scope.realizeMembers]. apply bind_Ok.
Qed.

Lemma WellLinked_emplace c this l s0 :
  WellLinked c this l -> WellLinked (emplace s0 c).2 this l.
Proof.
  intros Hwl. apply WellLinked_agree with (c := c); try reflexivity; [|exact Hwl].
  intros h Hh. apply emplace_other. intros ->.
  pose proof (wl_parent _ _ _ Hwl) as Hpar. rewrite Forall_forall in Hpar.
  destruct (Hpar _ Hh) as (x & Hx & _).
  rewrite emplace_fresh in Hx. discriminate.
Qed.

Lemma last_app_nonempty {A} (l1 l2 : list A) :
  l2 <> [] -> last (l1 ++ l2) = last l2.
Proof.
  intros Hne. destruct l2 as [|x l2]; [congruence|].
  induction l1 as [|y l1 IH]; [reflexivity|].
  cbn [app]. destruct (l1 ++ x :: l2) eqn:E.
  - destruct l1; discriminate.
  - rewrite last_cons_cons. exact IH.
Qed.

(** One wrapper spliced after the anchor [last l1], when more members
    follow the anchor. *)
Lemma insertMember_middle c this l1 l2 w wsym :
  WellLinked c this (l1 ++ l2) ->
  l2 <> [] ->
  symbols c !! w = Some wsym ->
  parentScope wsym = None ->
  nextInScope wsym = None ->
  exists c',
    Scope.insertMember this w (last l1) c = Ok c' /\
    WellLinked c' this ((l1 ++ [w]) ++ l2) /\
    indexOf c' w = anchorIndex c (last l1).
Proof.
  intros Hwl Hl2 Hw Hp Hn.
  destruct (last l1) as [a|] eqn:Hlast.
  - destruct (last_Some l1 a) as [[l1' ->] _]; [exact Hlast|].
    assert (Hin : a ∈ (l1' ++ [a]) ++ l2).
    { apply elem_of_app. left. apply elem_of_app. right. left. }
    assert (Hnl : Some a <> lastMember (getScope c this)).
    { rewrite (wl_last _ _ _ Hwl), last_app_nonempty by exact Hl2.
      intros Heq. symmetry in Heq. apply last_Some_elem_of in Heq.
      pose proof (wl_nodup _ _ _ Hwl) as Hnd.
      apply NoDup_app in Hnd as (_ & Hdisj & _).
      apply (Hdisj a); [|exact Heq]. apply elem_of_app. right. left. }
    destruct (WellLinked_after c this _ w wsym a Hwl Hw Hp Hn Hin)
      as (c' & Hins & Hwl' & _ & Hidx & _); [intros Heq; contradiction|].
    exists c'. split; [exact Hins|]. split; [|exact (Hidx Hnl)].
    rewrite <- (app_assoc l1' [a] l2) in Hwl'. cbn [app] in Hwl'.
    rewrite spliceAfter_split in Hwl'.
    + rewrite <- !app_assoc. cbn [app]. exact Hwl'.
    + pose proof (wl_nodup _ _ _ Hwl) as Hnd.
      rewrite <- app_assoc in Hnd. apply NoDup_app in Hnd as (_ & Hdisj & _).
      intros Hin'. apply (Hdisj a Hin'). left.
  - apply last_None in Hlast. subst l1. cbn [app] in *.
    destruct (WellLinked_head c this l2 w wsym Hwl Hw Hp Hn)
      as (c' & Hins & Hwl' & Hidx & _).
    exists c'. split; [exact Hins|]. split; [exact Hwl'|exact Hidx].
Qed.

Lemma Forall2_impl_r {A B} (P Q : A -> B -> Prop) (R : B -> Prop) l k :
  Forall2 P l k -> Forall R k ->
  (forall x y, R y -> P x y -> Q x y) -> Forall2 Q l k.
Proof.
  intros HP HR Himp. induction HP as [|x y l k Hxy HP IH]; [constructor|].
  apply Forall_cons in HR as [Hy HR]. constructor; auto.
Qed.

Lemma symbolName_kept c c' h s :
  symbols c !! h = Some s ->
  (exists s', symbols c' !! h = Some s' /\ name s' = name s) ->
  symbolName c' h = symbolName c h.
Proof.
  intros Hs (s' & Hs' & Hn). unfold symbolName. rewrite Hs, Hs'. exact Hn.
Qed.

(** The wrappers of the values of an enum type, spliced after the anchor
    [last l1] of a well-linked scope in which more members follow the
    anchor: they go between the anchor and what followed it, in the order
    of the values, and each gets the index of the anchor. *)
Lemma spliceEnumValues_chain this values : forall c l1 l2,
  WellLinked c this (l1 ++ l2) ->
  l2 <> [] ->
  Forall (fun v => is_Some (symbols c !! v)) values ->
  exists c' ws,
    Scope.spliceEnumValues this values (last l1) c = Ok c' /\
    WellLinked c' this (l1 ++ ws ++ l2) /\
    Forall2 (fun w v => exists wsym,
               symbols c' !! w = Some wsym /\
               data wsym = TransparentMemberSymbol v /\
               name wsym = symbolName c v /\
               indexInScope wsym = anchorIndex c (last l1)) ws values /\
    nameMap (getScope c' this) =
      enterNames (zip (symbolName c <$> values) ws) (nameMap (getScope c this)) /\
    Unmoved this c c' /\
    deferredMemberIndex (getScope c' this) = deferredMemberIndex (getScope c this) /\
    importDataIndex (getScope c' this) = importDataIndex (getScope c this) /\
    importData c' = importData c /\
    deferredData c' = deferredData c.
Proof.
  induction values as [|v vs IH]; intros c l1 l2 Hwl Hl2 Hvals.
  - exists c, []. cbn [Scope.spliceEnumValues app fmap list_fmap zip zip_with
                     enterNames].
    split; [reflexivity|]. split; [exact Hwl|]. split; [constructor|].
    split; [reflexivity|]. split; [apply Unmoved_refl|]. repeat split.
  - apply Forall_cons in Hvals as [[vsym Hv] Hvs].
    cbn [Scope.spliceEnumValues]. unfold getSymbol, readSymbol. rewrite Hv.
    cbn [mbind Res_bind].
    set (wsym := newSymbol (TransparentMemberSymbol v) (name vsym) (location vsym)).
    pose proof (emplace_fresh wsym c) as Hfresh.
    pose proof (emplace_lookup wsym c) as Hw.
    pose proof (emplace_other wsym c) as Hother.
    pose proof (WellLinked_emplace c this _ wsym Hwl) as Hwl0.
    assert (Hsc0 : forall h, getScope (emplace wsym c).2 h = getScope c h)
      by reflexivity.
    assert (Hdd0 : importData (emplace wsym c).2 = importData c /\
                   deferredData (emplace wsym c).2 = deferredData c)
      by (split; reflexivity).
    destruct (emplace wsym c) as [w c0]. cbn [fst snd] in *.
    destruct (insertMember_middle c0 this l1 l2 w wsym Hwl0 Hl2 Hw eq_refl eq_refl)
      as (c1 & Hins & Hwl1 & Hidx1).
    rewrite Hins. cbn [mbind Res_bind].
    assert (Hat : forall a, last l1 = Some a -> is_Some (symbols c0 !! a)).
    { intros a Ha. apply last_Some_elem_of in Ha.
      pose proof (wl_parent _ _ _ Hwl0) as Hpar. rewrite Forall_forall in Hpar.
      destruct (Hpar a) as (x & Hx & _); [apply elem_of_app; left; exact Ha|].
      eauto. }
    destruct (insertMember_spec this w (last l1) c0 wsym Hw eq_refl eq_refl Hat)
      as (c1' & Hins' & Hmem & _ & _ & Hscope & _ & _ & _ & _ & Hdd1 & Himp1 & _).
    rewrite Hins in Hins'. injection Hins' as <-.
    destruct (insertMember_Unmoved _ _ _ _ _ Hins) as [Hunm1 Hnames1].
    assert (Hkeep1 : forall h s0, symbols c !! h = Some s0 ->
              exists s0', symbols c1 !! h = Some s0' /\
                indexInScope s0' = indexInScope s0 /\ data s0' = data s0 /\
                name s0' = name s0 /\ parentScope s0' = parentScope s0).
    { intros h s0 Hs0.
      assert (Hne : h <> w) by (intros ->; congruence).
      apply Hunm1; [exact Hne|]. rewrite Hother by exact Hne. exact Hs0. }
    assert (Hvs1 : Forall (fun v => is_Some (symbols c1 !! v)) vs).
    { rewrite Forall_forall in *. intros x Hx. destruct (Hvs x Hx) as [xs Hxs].
      destruct (Hkeep1 x xs Hxs) as (xs' & Hxs' & _). eauto. }
    destruct (IH c1 (l1 ++ [w]) l2 Hwl1 Hl2 Hvs1)
      as (c' & ws & Hsplice & Hwl' & Hall & Hmap & Hunm & Hdmi & Hidi & Himp & Hdd).
    rewrite last_snoc in Hsplice, Hall.
    exists c', (w :: ws). split; [exact Hsplice|].
    split.
    { rewrite <- app_assoc in Hwl'. exact Hwl'. }
    assert (Hanchor : anchorIndex c0 (last l1) = anchorIndex c (last l1)).
    { unfold anchorIndex. destruct (last l1) as [a|] eqn:Ha; [|reflexivity].
      unfold indexOf. rewrite Hother; [reflexivity|].
      intros ->. apply last_Some_elem_of in Ha.
      pose proof (wl_parent _ _ _ Hwl) as Hpar. rewrite Forall_forall in Hpar.
      destruct (Hpar w) as (y & Hy & _); [apply elem_of_app; left; exact Ha|].
      congruence. }
    assert (Hnames : forall x, is_Some (symbols c !! x) ->
              symbolName c1 x = symbolName c x).
    { intros x [xs Hxs]. destruct (Hkeep1 x xs Hxs) as (xs' & Hxs' & _ & _ & Hn & _).
      apply (symbolName_kept c c1 x xs Hxs). eauto. }
    split.
    { constructor.
      - destruct Hunm as [Hsym' _].
        destruct (Hsym' w _ Hmem) as (w' & Hw' & Hi' & Hd' & Hn' & _).
        exists w'. split; [exact Hw'|]. split; [rewrite Hd'; reflexivity|].
        split; [rewrite Hn'; unfold symbolName; rewrite Hv; reflexivity|].
        rewrite Hi'. cbn [indexInScope set_parentScope set_link].
        unfold indexOf in Hidx1. rewrite Hmem in Hidx1.
        cbn [indexInScope set_parentScope set_link] in Hidx1.
        rewrite Hidx1. exact Hanchor.
      - eapply Forall2_impl_r; [exact Hall|exact Hvs|].
        intros x y Hy (xs & Hxs & Hxd & Hxn & Hxi).
        exists xs. split; [exact Hxs|]. split; [exact Hxd|].
        split; [rewrite Hxn; apply Hnames; exact Hy|].
        rewrite Hxi. cbn [anchorIndex]. rewrite Hidx1. exact Hanchor. }
    split.
    { rewrite Hmap. cbn [fmap list_fmap zip zip_with enterNames].
      rewrite Hscope. unfold newScope. cbn [nameMap]. rewrite Hsc0.
      assert (Hnv : symbolName c v = name wsym)
        by (unfold symbolName; rewrite Hv; reflexivity).
      rewrite Hnv. f_equal. f_equal.
      apply list_fmap_ext. intros i x Hx. apply Hnames.
      rewrite Forall_forall in Hvs. apply Hvs.
      apply list_elem_of_lookup. eauto. }
    split.
    { apply Unmoved_trans with (c2 := c1); [|exact Hunm].
      split; [exact Hkeep1|]. intros n h Hh. apply Hnames1.
      rewrite Hsc0. exact Hh. }
    rewrite Hdmi, Hidi, Himp, Hdd, Hscope, Himp1, Hdd1. unfold newScope.
    cbn [deferredMemberIndex importDataIndex]. rewrite Hsc0.
    destruct Hdd0 as [-> ->]. repeat split.
Qed.

Lemma enterNames_keeps entries : forall (m : gmap string handle) n h,
  m !! n = Some h -> enterNames entries m !! n = Some h.
Proof.
  induction entries as [|[n0 w0] rest IH]; intros m n h Hm; [exact Hm|].
  cbn [enterNames]. apply IH. destruct (bool_decide (n0 = EmptyString));
    [exact Hm|]. apply emplaceName_keeps. exact Hm.
Qed.

(** A free name goes to the first member that is entered under it. *)
Lemma enterNames_first entries : forall (m : gmap string handle) n w k,
  m !! n = None ->
  n <> EmptyString ->
  entries !! k = Some (n, w) ->
  (forall j p, (j < k)%nat -> entries !! j = Some p -> p.1 <> n) ->
  enterNames entries m !! n = Some w.
Proof.
  induction entries as [|[n0 w0] rest IH]; intros m n w k Hm Hn Hk Hfirst;
    [discriminate|].
  cbn [enterNames]. destruct k as [|k].
  - injection Hk as -> ->. apply enterNames_keeps.
    rewrite bool_decide_eq_false_2 by exact Hn.
    unfold emplaceName. rewrite Hm. apply lookup_insert_eq.
  - apply (IH _ n w k).
    + assert (Hne : n0 <> n) by (apply (Hfirst 0%nat (n0, w0)); [lia|reflexivity]).
      destruct (bool_decide (n0 = EmptyString)); [exact Hm|].
      unfold emplaceName. destruct (m !! n0); [exact Hm|].
      rewrite lookup_insert_ne by exact Hne. exact Hm.
    + exact Hn.
    + exact Hk.
    + intros j p Hj Hp. apply (Hfirst (S j) p); [lia|exact Hp].
Qed.

(** X7 (Scope::addMember, Scope::realizeDeferredMembers,
    Scope::insertMember, Scope::lookup).  A member whose type was written
    as an enum type is added to a realized, well-linked scope: the scope
    then has deferred members, and realizing them splices one transparent
    member per enum value between the former last member and the new
    member, in the order of the values.  The direct search of a local or
    scoped lookup then finds a value under its name, and reports the value
    itself and not its wrapper, from every reference point after the index
    of the former last member (after 1 if the scope was empty), provided
    the name was free and no earlier value and not the new member has it. *)
Theorem enum_values_visible (ext : External) (c : Compilation) (this : handle)
    (l : list handle) (x : handle) (s : Symbol) (t : LazyType)
    (values : list handle) :
  WellLinked c this l ->
  deferredMemberIndex (getScope c this) = None ->
  symbols c !! x = Some s ->
  parentScope s = None ->
  nextInScope s = None ->
  exposedType s = Some t ->
  getSourceOrNull t = Some SyEnumType ->
  get t = Some (EnumType values) ->
  Forall (fun v => is_Some (symbols c !! v)) values ->
  (forall a, last l = Some a -> indexOf c a < UINT32_MAX) ->
  exists c1 c2 ws,
    Scope.addMember this x c = Ok c1 /\
    deferredMemberIndex (getScope c1 this) <> None /\
    Scope.realizeDeferredMembers ext this c1 = Ok c2 /\
    deferredMemberIndex (getScope c2 this) = None /\
    WellLinked c2 this (l ++ ws ++ [x]) /\
    Forall2 (fun w v => exists wsym,
               symbols c2 !! w = Some wsym /\
               data wsym = TransparentMemberSymbol v /\
               name wsym = symbolName c v /\
               indexInScope wsym = anchorIndex c (last l)) ws values /\
    indexOf c2 x = match last l with
                   | Some a => indexOf c a + 1
                   | None => 1
                   end /\
    (forall k v result,
       values !! k = Some v ->
       symbolName c v <> EmptyString ->
       symbolName c v <> name s ->
       nameMap (getScope c this) !! symbolName c v = None ->
       (forall j u, (j < k)%nat -> values !! j = Some u ->
                    symbolName c u <> symbolName c v) ->
       nameKind result = Local \/ nameKind result = Scoped ->
       Scope.lookupLocal this (symbolName c v) result c2 =
         if anchorIndex c (last l) <? index (referencePoint result)
         then Ok (Some (LookupResult.setSymbol v false result))
         else Ok None).
Proof.
  intros Hwl Hreal Hs Hp Hn Ht Hsrc Hget Hvals Hover.
  assert (Henum : exposesEnum s = true).
  { unfold exposesEnum. rewrite Ht. apply bool_decide_eq_true_2. exact Hsrc. }
  destruct (addMember_spec c this l x s Hwl Hs Hp Hn Hover)
    as (c1 & s' & Hadd & Hwl1 & Hs' & Hd' & Hn' & _ & _ & Hidx & Hold & Hmap1
        & _).
  (* the deferred data after the member was added *)
  assert (Hdef : deferredMemberIndex (getScope c1 this)
                   = Some (length (deferredData c)) /\
                 deferredData c1 = deferredData c ++
                   [Scope.registerTransparentType (last l) t emptyDeferred]).
  { pose proof Hadd as Hadd'.
    rewrite (addMember_unfold this x c s Hs) in Hadd'. cbv zeta in Hadd'.
    rewrite Ht, Henum in Hadd'.
    destruct (updateDeferredData_fresh this
                (Scope.registerTransparentType (lastMember (getScope c this)) t)
                c Hreal) as [Hi Hdd].
    destruct (insertMember_inv _ _ _ _ _ Hadd') as (m & Hm & Hmp & Hmn & Hat).
    destruct (insertMember_spec this x _ _ m Hm Hmp Hmn Hat)
      as (c1' & Hins & _ & _ & _ & Hscope & _ & _ & _ & _ & Hdd1 & _).
    rewrite Hadd' in Hins. injection Hins as <-.
    rewrite Hscope, Hdd1. unfold newScope. cbn [deferredMemberIndex].
    rewrite Hi, Hdd, (wl_last _ _ _ Hwl). split; reflexivity. }
  destruct Hdef as [Hi1 Hdd1].
  exists c1.
  (* the scope once its deferred index is cleared *)
  set (c1' := putScope this (set_deferredMemberIndex None (getScope c1 this)) c1).
  assert (Hwl1' : WellLinked c1' this (l ++ [x])).
  { apply WellLinked_agree with (c := c1); try exact Hwl1;
      try (subst c1'; rewrite getScope_putScope_eq; reflexivity).
    intros h _. reflexivity. }
  assert (Hvals1 : Forall (fun v => is_Some (symbols c1' !! v)) values).
  { rewrite Forall_forall in *. intros v Hv.
    destruct (decide (v = x)) as [->|Hne]; [exists s'; exact Hs'|].
    destruct (Hvals v Hv) as [vs Hvs].
    destruct (Hold v vs Hne Hvs) as (vs' & Hvs' & _). eauto. }
  assert (Hname1 : forall v, is_Some (symbols c !! v) ->
                     symbolName c1' v = symbolName c v).
  { intros v [vs Hvs]. unfold symbolName. rewrite Hvs.
    change (symbols c1') with (symbols c1).
    destruct (decide (v = x)) as [->|Hne].
    - rewrite Hs'. assert (vs = s) by congruence. subst vs. exact Hn'.
    - destruct (Hold v vs Hne Hvs) as (vs' & Hvs' & _ & _ & Hnm & _).
      rewrite Hvs'. exact Hnm. }
  destruct (spliceEnumValues_chain this values c1' l [x] Hwl1' ltac:(discriminate)
              Hvals1)
    as (c2 & ws & Hsplice & Hwl2 & Hall & Hmap2 & Hunm & Hdmi & _).
  exists c2, ws.
  split; [exact Hadd|]. split; [rewrite Hi1; discriminate|].
  split.
  { rewrite (realizeDeferredMembers_types ext this c1 _
               (Scope.registerTransparentType (last l) t emptyDeferred) Hi1);
      [| rewrite Hdd1, lookup_app_r by lia; rewrite Nat.sub_diag; reflexivity
       | reflexivity | reflexivity].
    cbn [transparentTypes Scope.registerTransparentType emptyDeferred app
         Scope.realizeTransparentTypes].
    rewrite Hget. fold c1'. rewrite Hsplice. reflexivity. }
  split.
  { rewrite Hdmi. subst c1'. rewrite getScope_putScope_eq. reflexivity. }
  split; [exact Hwl2|].
  assert (Hanchor : anchorIndex c1' (last l) = anchorIndex c (last l)).
  { unfold anchorIndex. destruct (last l) as [a|] eqn:Ha; [|reflexivity].
    apply last_Some_elem_of in Ha.
    pose proof (wl_parent _ _ _ Hwl) as Hpar. rewrite Forall_forall in Hpar.
    destruct (Hpar a Ha) as (asym & Hasym & Hap).
    assert (Hne : a <> x) by (intros ->; congruence).
    destruct (Hold a asym Hne Hasym) as (asym' & Hasym' & Hi & _).
    unfold indexOf. change (symbols c1') with (symbols c1).
    rewrite Hasym', Hasym. exact Hi. }
  assert (Hall' : Forall2 (fun w v => exists wsym,
               symbols c2 !! w = Some wsym /\
               data wsym = TransparentMemberSymbol v /\
               name wsym = symbolName c v /\
               indexInScope wsym = anchorIndex c (last l)) ws values).
  { eapply Forall2_impl_r; [exact Hall|exact Hvals|].
    intros w v Hv (wsym & Hw & Hwd & Hwn & Hwi).
    exists wsym. split; [exact Hw|]. split; [exact Hwd|].
    split; [rewrite Hwn; apply Hname1; exact Hv|].
    rewrite Hwi. exact Hanchor. }
  split; [exact Hall'|].
  split.
  { destruct Hunm as [Hsym2 _].
    destruct (Hsym2 x s' Hs') as (s2 & Hs2 & Hi2 & _).
    unfold indexOf at 1. rewrite Hs2, Hi2. exact Hidx. }
  intros k v result Hk Hne Hnx Hfree Hfirst Hkind.
  destruct (Forall2_lookup_r _ _ _ _ _ Hall' Hk) as (w & Hwk & wsym & Hw & Hwd & Hwn & Hwi).
  assert (Hbound : nameMap (getScope c2 this) !! symbolName c v = Some w).
  { rewrite Hmap2. apply (enterNames_first _ _ _ _ k).
    - subst c1'. rewrite getScope_putScope_eq. cbn [nameMap set_deferredMemberIndex].
      rewrite Hmap1. destruct (bool_decide (name s = EmptyString)); [exact Hfree|].
      unfold emplaceName. destruct (nameMap (getScope c this) !! name s);
        [exact Hfree|].
      rewrite lookup_insert_ne by congruence. exact Hfree.
    - exact Hne.
    - apply lookup_zip_with_Some. exists (symbolName c v), w.
      split; [reflexivity|]. split; [|exact Hwk].
      rewrite list_lookup_fmap, Hk. cbn. f_equal. apply Hname1.
      rewrite Forall_forall in Hvals. apply Hvals.
      apply list_elem_of_lookup. eauto.
    - intros j [n0 w0] Hj Hjp. cbn [fst].
      apply lookup_zip_with_Some in Hjp as (n1 & w1 & [= <- <-] & Hn1 & _).
      rewrite list_lookup_fmap in Hn1.
      destruct (values !! j) as [u|] eqn:Hu; [|discriminate].
      injection Hn1 as <-. rewrite Hname1.
      + apply (Hfirst j u Hj Hu).
      + rewrite Forall_forall in Hvals. apply Hvals.
        apply list_elem_of_lookup. eauto. }
  rewrite (lookupLocal_entry this _ result c2 w wsym Hbound Hw).
  assert (Hm : LookupResult.referencePointMatters result = true)
    by (unfold LookupResult.referencePointMatters;
        destruct Hkind as [-> | ->]; reflexivity).
  rewrite Hm. unfold LookupRefPoint.lt, LookupRefPoint.before. cbn [index].
  rewrite Hwi.
  destruct (anchorIndex c (last l) <? index (referencePoint result));
    [|reflexivity].
  unfold Scope.setFound, kind, as_TransparentMemberSymbol. rewrite Hwd.
  reflexivity.
Qed.

Lemma EnumSecond_before_WellLinked :
  WellLinked EnumSecond.before EnumSecond.unit [EnumSecond.y].
Proof.
  constructor.
  - simpl. split; [reflexivity|]. eexists. split; reflexivity.
  - reflexivity.
  - constructor; [|constructor]. eexists. split; reflexivity.
  - apply NoDup_singleton.
  - intros n h Hh.
    assert (Hl : (n, h) ∈ map_to_list (nameMap (getScope EnumSecond.before
                                                   EnumSecond.unit)))
      by (apply elem_of_map_to_list; exact Hh).
    apply list_elem_of_singleton in Hl. injection Hl as _ ->. left.
  - constructor; [|constructor]. vm_compute. split; discriminate.
  - constructor; [constructor|constructor].
Qed.

Lemma enum_values_visible_witness :
  exists c1 c2 ws,
    Scope.addMember EnumSecond.unit EnumSecond.x EnumSecond.before = Ok c1 /\
    Scope.realizeDeferredMembers noExternal EnumSecond.unit c1 = Ok c2 /\
    WellLinked c2 EnumSecond.unit ([EnumSecond.y] ++ ws ++ [EnumSecond.x]) /\
    indexOf c2 EnumSecond.x = 2 /\
    Scope.lookupLocal EnumSecond.unit "B"
      (lookupFrom Local {| scope := Some EnumSecond.unit; index := 2 |}) c2
    = Ok (Some (LookupResult.setSymbol EnumSecond.valueB false
                  (lookupFrom Local
                     {| scope := Some EnumSecond.unit; index := 2 |}))).
Proof.
  destruct (enum_values_visible noExternal EnumSecond.before EnumSecond.unit
              [EnumSecond.y] EnumSecond.x EnumSecond.symX EnumSecond.enumType
              [EnumSecond.valueA; EnumSecond.valueB]
              EnumSecond_before_WellLinked)
    as (c1 & c2 & ws & Hadd & _ & Hreal & _ & Hwl & _ & Hidx & Hfind).
  - reflexivity.
  - vm_compute. reflexivity.
  - reflexivity.
  - reflexivity.
  - reflexivity.
  - reflexivity.
  - reflexivity.
  - repeat constructor; vm_compute; eauto.
  - intros a [= <-]. vm_compute. reflexivity.
  - exists c1, c2, ws. split; [exact Hadd|]. split; [exact Hreal|].
    split; [exact Hwl|]. split; [exact Hidx|].
    apply (Hfind 1%nat EnumSecond.valueB).
    + reflexivity.
    + discriminate.
    + discriminate.
    + vm_compute. reflexivity.
    + intros [|j] u Hj; [|lia]. intros [= <-]. discriminate.
    + left. reflexivity.
Defined.

(** ** Definitions by name *)

Section Definitions.
Context (getLexicalScope : Compilation -> Symbol -> option handle).

Lemma addDefinition_spec c definition d sc ssym :
  symbols c !! definition = Some d ->
  parentScope d = Some sc ->
  symbols c !! sc = Some ssym ->
  let key := (name d, if bool_decide (kind ssym = SkCompilationUnit)
                      then root c else sc) in
  exists c',
    addDefinition definition c = Ok c' /\
    definitionMap c' !! key =
      Some (default definition (definitionMap c !! key)) /\
    (forall k, k <> key -> definitionMap c' !! k = definitionMap c !! k) /\
    c' = set_definitionMap (definitionMap c') c.
Proof.
  intros Hd Hp Hsc key.
  unfold addDefinition, getSymbol, readSymbol. rewrite Hd.
  cbn [mbind Res_bind]. rewrite Hp.
  rewrite bool_decide_eq_true_2 by discriminate.
  cbn [ASSERT mbind Res_bind deref]. rewrite Hsc. cbn [mbind Res_bind].
  assert (Hkey : (if bool_decide (kind ssym = SkCompilationUnit)
                  then (name d, root c) else (name d, sc)) = key)
    by (subst key; destruct (bool_decide (kind ssym = SkCompilationUnit));
        reflexivity).
  rewrite Hkey. eexists. split; [reflexivity|].
  cbn [definitionMap set_definitionMap].
  split; [|split; [|reflexivity]].
  - destruct (definitionMap c !! key) eqn:E; cbn [default]; [exact E|].
    apply lookup_insert_eq.
  - intros k Hk. destruct (definitionMap c !! key); [reflexivity|].
    apply lookup_insert_ne. congruence.
Qed.

(** X8 (Compilation::addDefinition, Compilation::getDefinition).  A
    definition is recorded under its name and its parent scope, and under
    the root scope when the parent is a compilation unit; an older
    definition with that key stays.  [getDefinition] from the scope of the
    key finds what is recorded, and so does [getDefinition] from any other
    compilation unit when the definition was declared in a compilation
    unit.  No other key changes, and no symbol does. *)
Theorem addDefinition_getDefinition (c : Compilation) (definition : handle)
    (d : Symbol) (sc : handle) (ssym : Symbol) :
  symbols c !! definition = Some d ->
  parentScope d = Some sc ->
  symbols c !! sc = Some ssym ->
  let keyScope := if bool_decide (kind ssym = SkCompilationUnit)
                  then root c else sc in
  let recorded := default definition (definitionMap c !! (name d, keyScope)) in
  exists c',
    addDefinition definition c = Ok c' /\
    symbols c' = symbols c /\
    (forall k, k <> (name d, keyScope) ->
       definitionMap c' !! k = definitionMap c !! k) /\
    (forall fuel,
       getDefinition getLexicalScope (S fuel) c' (name d) (Some keyScope)
         = Ok (Some recorded)) /\
    (kind ssym = SkCompilationUnit ->
     forall fuel,
       getDefinition_root getLexicalScope (S fuel) c' (name d)
         = Ok (Some recorded)) /\
    (kind ssym = SkCompilationUnit ->
     forall fuel other osym,
       symbols c !! other = Some osym ->
       kind osym = SkCompilationUnit ->
       getLexicalScope c' osym = Some (root c) ->
       definitionMap c !! (name d, other) = None ->
       getDefinition getLexicalScope (S (S fuel)) c' (name d) (Some other)
         = Ok (Some recorded)).
Proof.
  intros Hd Hp Hsc keyScope recorded.
  destruct (addDefinition_spec c definition d sc ssym Hd Hp Hsc)
    as (c' & Hadd & Hkey & Hother & Hc').
  fold keyScope in Hkey, Hother. fold recorded in Hkey.
  exists c'. split; [exact Hadd|].
  assert (Hsyms : symbols c' = symbols c) by (rewrite Hc'; reflexivity).
  split; [exact Hsyms|]. split; [exact Hother|].
  assert (Hhere : forall fuel,
    getDefinition getLexicalScope (S fuel) c' (name d) (Some keyScope)
      = Ok (Some recorded)).
  { intros fuel. cbn [getDefinition]. rewrite Hkey. reflexivity. }
  split; [exact Hhere|].
  assert (Hks : kind ssym = SkCompilationUnit -> keyScope = root c)
    by (intros Hunit; subst keyScope;
        rewrite bool_decide_eq_true_2 by exact Hunit; reflexivity).
  split.
  { intros Hunit fuel. unfold getDefinition_root.
    replace (root c') with (root c) by (rewrite Hc'; reflexivity).
    rewrite <- (Hks Hunit). apply Hhere. }
  intros Hunit fuel other osym Ho Hok Hlex Hfree.
  specialize (Hks Hunit).
  destruct (decide (other = root c)) as [->|Hne].
  { rewrite <- Hks. apply Hhere. }
  cbn [getDefinition]. rewrite Hother by (rewrite Hks; congruence).
  rewrite Hfree. unfold getSymbol, readSymbol. rewrite Hsyms, Ho.
  cbn [mbind Res_bind]. rewrite Hok.
  rewrite bool_decide_eq_false_2 by discriminate.
  rewrite Hlex, <- Hks, Hkey. reflexivity.
Qed.

(** X9 (Compilation::getDefinition).  [getDefinition] climbs the lexical
    scopes and answers with the first scope that holds a definition of the
    name, so an inner definition hides an outer one.  At the root scope it
    stops: without a definition there the answer is null, and the lexical
    scope of the root is not asked for. *)
Theorem getDefinition_climb (c : Compilation) (n : string) (start : handle)
    (path : list handle) (target : handle) :
  LexicalPath getLexicalScope c n start path target ->
  (forall d fuel,
     definitionMap c !! (n, target) = Some d ->
     getDefinition getLexicalScope (S (length path + fuel)) c n (Some start)
       = Ok (Some d)) /\
  (forall rootSym fuel,
     definitionMap c !! (n, target) = None ->
     symbols c !! target = Some rootSym ->
     kind rootSym = SkRoot ->
     getDefinition getLexicalScope (S (length path + fuel)) c n (Some start)
       = Ok None).
Proof.
  revert start. induction path as [|s rest IH]; intros start Hpath.
  - cbn [LexicalPath] in Hpath. subst start. cbn [length Nat.add].
    split.
    + intros d fuel Hd. cbn [getDefinition]. rewrite Hd. reflexivity.
    + intros rootSym fuel Hnone Hr Hk. cbn [getDefinition]. rewrite Hnone.
      unfold getSymbol, readSymbol. rewrite Hr. cbn [mbind Res_bind].
      rewrite bool_decide_eq_true_2 by exact Hk. reflexivity.
  - destruct Hpath as (-> & Hnone & sym & next & Hsym & Hk & Hlex & Hrest).
    destruct (IH next Hrest) as (IH1 & IH2).
    assert (Hstep : forall fuel,
      getDefinition getLexicalScope (S fuel) c n (Some s) =
      getDefinition getLexicalScope fuel c n (Some next)).
    { intros fuel. cbn [getDefinition]. rewrite Hnone.
      unfold getSymbol, readSymbol. rewrite Hsym. cbn [mbind Res_bind].
      rewrite bool_decide_eq_false_2 by exact Hk. rewrite Hlex. reflexivity. }
    cbn [length]. split.
    + intros d fuel Hd. rewrite Hstep. apply (IH1 d fuel Hd).
    + intros rootSym fuel Hn Hr Hkr. rewrite Hstep. apply (IH2 rootSym fuel Hn Hr Hkr).
Qed.

End Definitions.

Lemma addDefinition_getDefinition_witness :
  exists c',
    addDefinition TopModules.defA TopModules.state = Ok c' /\
    getDefinition lexicalParent 2 c' "A" (Some TopModules.unit)
      = Ok (Some TopModules.defA).
Proof.
  destruct (addDefinition_getDefinition lexicalParent
              TopModules.state TopModules.defA
              (mkSymbol (DefinitionSymbol DkModule [mkParam "W" true]) "A"
                 (mkLoc 1 0) (Some TopModules.unit) (Some TopModules.defD) 2)
              TopModules.unit
              (mkSymbol CompilationUnitSymbol "" (mkLoc 1 0) (Some 0%nat) None 1))
    as (c' & Hadd & _ & _ & _ & _ & Hunit).
  - vm_compute. reflexivity.
  - reflexivity.
  - vm_compute. reflexivity.
  - exists c'. split; [exact Hadd|].
    apply (Hunit eq_refl 0%nat TopModules.unit
             (mkSymbol CompilationUnitSymbol "" (mkLoc 1 0) (Some 0%nat) None 1)).
    + vm_compute. reflexivity.
    + reflexivity.
    + reflexivity.
    + vm_compute. reflexivity.
Defined.

Lemma getDefinition_climb_witness :
  getDefinition lexicalParent 3 TopModules.state "B"
    (Some TopModules.defA) = Ok (Some TopModules.defB).
Proof.
  apply (proj1 (getDefinition_climb lexicalParent TopModules.state
                  "B" TopModules.defA [TopModules.defA; TopModules.unit] 0%nat
                  ltac:(vm_compute; repeat (split || eexists); discriminate))
           TopModules.defB 0%nat).
  vm_compute. reflexivity.
Defined.

(** What the first call of [getRoot] builds. *)
Lemma getRoot_top c :
  finalized c = false ->
  finalizing c = false ->
  (forall n d, definitionMap c !! (n, root c) = Some d ->
     exists s dk ps, symbols c !! d = Some s /\ data s = DefinitionSymbol dk ps) ->
  (forall a, lastMember (getScope c (root c)) = Some a -> is_Some (symbols c !! a)) ->
  exists c' defs,
    getRoot c = Ok c' /\
    Forall2 (TopInstanceOf c c') (topInstances c') defs /\
    (forall d, d ∈ defs <-> TopLevel c d).
Proof.
  intros Hfin Hfing Hvalid Hlast.
  set (c1 := set_finalizing true c).
  destruct (collectTopDefinitions_spec c1 (map_to_list (definitionMap c1)) [])
    as (l & Hl & Hmem).
  { intros n def Hin. apply elem_of_map_to_list in Hin.
    apply (Hvalid n def). exact Hin. }
  assert (Htop : forall d, d ∈ l <-> TopLevel c d).
  { intros d. rewrite Hmem. unfold TopLevel. split.
    - intros [Hnil|(n & s & ps & Hin & Hrest)]; [inversion Hnil|].
      apply elem_of_map_to_list in Hin. exists n, s, ps.
      split; [exact Hin|exact Hrest].
    - intros (n & s & ps & Hin & Hrest). right. exists n, s, ps.
      split; [apply elem_of_map_to_list; exact Hin|exact Hrest]. }
  set (defs := merge_sort (nameLe c1) l).
  assert (Hperm : defs ≡ₚ l) by apply merge_sort_Permutation.
  destruct (instantiateTop_spec defs c1 c1 [])
    as (c2 & insts & Hloop & Hpres & Hroot & Hall).
  { apply preserved_refl. }
  { reflexivity. }
  { apply Forall_forall. intros d Hd. rewrite Hperm in Hd.
    apply Htop in Hd. destruct Hd as (n & s & ps & _ & Hs & _). exists s. exact Hs. }
  { exact Hlast. }
  exists (set_finalizing false (set_finalized true (set_topInstances insts c2))), defs.
  split.
  { unfold getRoot. rewrite Hfin, Hfing. cbn [negb ASSERT mbind Res_bind].
    fold c1. rewrite Hl. cbn [mbind Res_bind]. fold defs. rewrite Hloop.
    reflexivity. }
  split; [exact Hall|].
  intros d. rewrite Hperm. apply Htop.
Qed.

(** X10 (Compilation::addDefinition, Compilation::getRoot).  A module that
    is declared in a compilation unit, whose parameters all have defaults
    and which no instantiation names, gets a top-level instance: once it is
    recorded with [addDefinition], under a name no older definition holds
    at the root, [getRoot] instantiates it as a member of the root scope.
    The key under the root scope that [addDefinition] gives it is what the
    test of [getRoot] looks for. *)
Theorem module_in_unit_is_top_instance (c : Compilation) (definition : handle)
    (d : Symbol) (ps : list ParameterDecl) (u : handle) (usym : Symbol) :
  finalized c = false ->
  finalizing c = false ->
  symbols c !! definition = Some d ->
  data d = DefinitionSymbol DkModule ps ->
  Forall (fun p => hasDefault p = true) ps ->
  name d ∉ globalInstantiations c ->
  parentScope d = Some u ->
  symbols c !! u = Some usym ->
  kind usym = SkCompilationUnit ->
  definitionMap c !! (name d, root c) = None ->
  (forall n d0, definitionMap c !! (n, root c) = Some d0 ->
     exists s dk ps0, symbols c !! d0 = Some s /\
       data s = DefinitionSymbol dk ps0) ->
  (forall a, lastMember (getScope c (root c)) = Some a ->
     is_Some (symbols c !! a)) ->
  exists c1 c2 i,
    addDefinition definition c = Ok c1 /\
    getRoot c1 = Ok c2 /\
    i ∈ topInstances c2 /\
    TopInstanceOf c1 c2 i definition.
Proof.
  intros Hfin Hfing Hd Hdata Hps Hglob Hp Hu Hk Hfree Hvalid Hlast.
  destruct (addDefinition_spec c definition d u usym Hd Hp Hu)
    as (c1 & Hadd & Hkey & Hother & Hc1).
  rewrite bool_decide_eq_true_2 in Hkey, Hother by exact Hk.
  rewrite Hfree in Hkey. cbn [default] in Hkey.
  assert (Hsame : symbols c1 = symbols c /\ root c1 = root c /\
                  finalized c1 = finalized c /\ finalizing c1 = finalizing c /\
                  globalInstantiations c1 = globalInstantiations c /\
                  scopes c1 = scopes c)
    by (rewrite Hc1; repeat split).
  destruct Hsame as (Hsyms & Hroot & Hf1 & Hf2 & Hg & Hsc).
  destruct (getRoot_top c1) as (c2 & defs & Hget & Hall & Hmem).
  - congruence.
  - congruence.
  - intros n d0 Hd0. rewrite Hroot in Hd0. rewrite Hsyms.
    destruct (decide ((n, root c) = (name d, root c))) as [Heq|Hne].
    + rewrite Heq, Hkey in Hd0. injection Hd0 as <-. eauto.
    + rewrite Hother in Hd0 by exact Hne. apply (Hvalid n d0 Hd0).
  - intros a. unfold getScope. rewrite Hsc, Hroot, Hsyms. apply Hlast.
  - assert (Hin : definition ∈ defs).
    { apply Hmem. exists (name d), d, ps. rewrite Hroot, Hsyms, Hg.
      repeat split; assumption. }
    apply list_elem_of_lookup in Hin as [k Hk'].
    destruct (Forall2_lookup_r _ _ _ _ _ Hall Hk') as (i & Hi & Hinst).
    exists c1, c2, i. split; [exact Hadd|]. split; [exact Hget|].
    split; [apply list_elem_of_lookup; eauto|exact Hinst].
Qed.

Lemma module_in_unit_is_top_instance_witness :
  exists c1 c2 i,
    addDefinition LateModule.defT LateModule.state = Ok c1 /\
    getRoot c1 = Ok c2 /\
    i ∈ topInstances c2 /\
    TopInstanceOf c1 c2 i LateModule.defT.
Proof.
  apply (module_in_unit_is_top_instance LateModule.state LateModule.defT
           LateModule.symT [mkParam "W" true] TopModules.unit
           (mkSymbol CompilationUnitSymbol "" (mkLoc 1 0) (Some 0%nat) None 1)).
  - reflexivity.
  - reflexivity.
  - vm_compute. reflexivity.
  - reflexivity.
  - repeat constructor.
  - vm_compute. discriminate.
  - reflexivity.
  - vm_compute. reflexivity.
  - reflexivity.
  - vm_compute. reflexivity.
  - intros n d Hd. apply elem_of_map_to_list in Hd.
    assert (Heq : map_to_list (definitionMap LateModule.state) =
                  [("E", 0%nat, 5%nat); ("I", 0%nat, 6%nat); ("A", 0%nat, 3%nat);
                   ("B", 0%nat, 2%nat); ("D", 0%nat, 4%nat); ("N", 3%nat, 7%nat)])
      by (vm_compute; reflexivity).
    rewrite Heq in Hd. clear Heq.
    repeat (apply elem_of_cons in Hd as [Hd|Hd];
            [simplify_eq; vm_compute; eauto|]).
    inversion Hd.
  - intros a Ha. vm_compute in Ha. injection Ha as <-. vm_compute. eauto.
Defined.

(** ** The diagnostic store *)

(** The ways [addDiag] returns. *)
Lemma addDiag_cases fuel diag c r c' :
  addDiag fuel diag c = Ok (r, c') ->
  diagSymbol diag <> None /\ validLocation (diagLocation diag) = true /\
  ((isSuppressed fuel (symbols c) (diagSymbol diag) = Ok true /\
    r = RefTempDiag /\ c' = set_tempDiag diag c) \/
   (isSuppressed fuel (symbols c) (diagSymbol diag) = Ok false /\
    exists inst, getInstanceOrDef fuel (symbols c) (diagSymbol diag) = Ok inst /\
    let key := (code diag, diagLocation diag) in
    ((exists diagList defIndex,
        diagMap c !! key = Some (diagList, defIndex) /\
        r = RefDiagList key (length diagList) /\
        c' = set_diagMap
               (<[key := (diagList ++ [diag],
                          if isDefinitionHandle (symbols c) inst
                          then usize (Z.of_nat (length (diagList ++ [diag])) - 1)
                          else defIndex)]> (diagMap c)) c) \/
     (diagMap c !! key = None /\
      r = RefDiagList key 0 /\
      c' = set_diagMap
             (<[key := ([diag], if isDefinitionHandle (symbols c) inst
                                then 0 else SIZE_MAX)]> (diagMap c))
             (if isError diag then set_numErrors (usize (numErrors c + 1)) c
              else c))))).
Proof.
  unfold addDiag. intros H.
  destruct (bool_decide (diagSymbol diag ≠ None)) eqn:Hs;
    cbn [ASSERT mbind Res_bind] in H; [|discriminate].
  apply bool_decide_eq_true_1 in Hs.
  destruct (validLocation (diagLocation diag)) eqn:Hl;
    cbn [ASSERT mbind Res_bind] in H; [|discriminate].
  split; [exact Hs|]. split; [reflexivity|].
  destruct (isSuppressed fuel (symbols c) (diagSymbol diag)) as [[|]|] eqn:Hsup;
    cbn [mbind Res_bind] in H; [| |discriminate].
  - left. injection H as <- <-. repeat split.
  - right. split; [reflexivity|].
    destruct (getInstanceOrDef fuel (symbols c) (diagSymbol diag)) as [inst|]
      eqn:Hinst; cbn [mbind Res_bind] in H; [|discriminate].
    exists inst. split; [reflexivity|]. cbv zeta.
    destruct (diagMap c !! (code diag, diagLocation diag)) as [[diagList defIndex]|]
      eqn:Hg.
    + left. exists diagList, defIndex. split; [reflexivity|].
      injection H as <- <-. split; [|reflexivity].
      rewrite length_app. cbn [length]. f_equal. lia.
    + right. split; [reflexivity|]. injection H as <- <-.
      split; [reflexivity|].
      destruct (isError diag); reflexivity.
Qed.

(** X11 (Compilation::addDiag).  The reference [addDiag] returns refers to
    the diagnostic that was added, whether it went to the scratch slot for
    suppressed diagnostics, to the end of an existing group or to a new
    group. *)
Theorem addDiag_returns_added (fuel : nat) (diag : Diagnostic)
    (c c' : Compilation) (r : DiagRef) :
  addDiag fuel diag c = Ok (r, c') ->
  readDiagRef c' r = Some diag.
Proof.
  intros H. apply addDiag_cases in H as (_ & _ & [(_ & -> & ->)|(_ & inst & _ & H)]).
  - reflexivity.
  - cbv zeta in H.
    destruct H as [(diagList & defIndex & _ & -> & ->)|(_ & -> & ->)];
      unfold readDiagRef; cbn [diagMap set_diagMap]; rewrite lookup_insert_eq;
      cbn [mbind option_bind fst].
    + rewrite lookup_app_r by lia. rewrite Nat.sub_diag. reflexivity.
    + reflexivity.
Qed.

Lemma addDiag_returns_added_witness :
  readDiagRef Repeated.state Repeated.ref = Some Repeated.diag.
Proof.
  apply (addDiag_returns_added 8 Repeated.diag Coalescing.state Repeated.state
           Repeated.ref).
  vm_compute. reflexivity.
Defined.

(** X12 (Compilation::addDiag).  The error count goes up by one exactly
    when an error that is not suppressed opens a new group, that is when no
    diagnostic with its code and location was stored before.  So once a
    diagnostic is stored, any further diagnostic with the same code and
    location, error or not, leaves the count as it is. *)
Theorem addDiag_counts_once (fuel : nat) (diag : Diagnostic)
    (c c' : Compilation) (r : DiagRef) :
  addDiag fuel diag c = Ok (r, c') ->
  numErrors c' =
    (if isError diag && isStored r
        && bool_decide (diagMap c !! (code diag, diagLocation diag) = None)
     then usize (numErrors c + 1) else numErrors c) /\
  (isStored r = true ->
   forall fuel2 d2 r2 c2,
     code d2 = code diag ->
     diagLocation d2 = diagLocation diag ->
     addDiag fuel2 d2 c' = Ok (r2, c2) ->
     numErrors c2 = numErrors c').
Proof.
  intros H.
  assert (Hfirst : forall f d x y s,
    addDiag f d x = Ok (s, y) ->
    numErrors y =
      (if isError d && isStored s
          && bool_decide (diagMap x !! (code d, diagLocation d) = None)
       then usize (numErrors x + 1) else numErrors x)).
  { intros f d x y s Hadd.
    apply addDiag_cases in Hadd as (_ & _ & [(_ & -> & ->)|(_ & inst & _ & Hs)]).
    - cbn [isStored]. rewrite andb_false_r. reflexivity.
    - cbv zeta in Hs.
      destruct Hs as [(diagList & defIndex & Hg & -> & ->)|(Hg & -> & ->)].
      + rewrite Hg. rewrite bool_decide_eq_false_2 by discriminate.
        rewrite andb_false_r. reflexivity.
      + rewrite Hg. rewrite bool_decide_eq_true_2 by reflexivity.
        cbn [isStored]. destruct (isError d); reflexivity. }
  split; [exact (Hfirst _ _ _ _ _ H)|].
  intros Hst fuel2 d2 r2 c2 Hc Hl H2.
  rewrite (Hfirst _ _ _ _ _ H2), Hc, Hl.
  assert (Hbound : is_Some (diagMap c' !! (code diag, diagLocation diag))).
  { apply addDiag_cases in H as (_ & _ & [(_ & -> & _)|(_ & inst & _ & Hs)]);
      [discriminate|].
    cbv zeta in Hs.
    destruct Hs as [(diagList & defIndex & _ & _ & ->)|(_ & _ & ->)];
      cbn [diagMap set_diagMap]; rewrite lookup_insert_eq; eauto. }
  destruct Hbound as [g Hg]. rewrite Hg.
  rewrite bool_decide_eq_false_2 by discriminate.
  rewrite andb_false_r. reflexivity.
Qed.

Lemma addDiag_counts_once_witness :
  numErrors Repeated.state = numErrors Coalescing.state.
Proof.
  rewrite (proj1 (addDiag_counts_once 8 Repeated.diag Coalescing.state
                    Repeated.state Repeated.ref
                    ltac:(vm_compute; reflexivity))).
  vm_compute. reflexivity.
Defined.

Lemma GroupOk_snoc key diagList defIndex diag di :
  GroupOk key (diagList, defIndex) ->
  (code diag, diagLocation diag) = key ->
  diagSymbol diag <> None ->
  validLocation (diagLocation diag) = true ->
  di = defIndex \/ di = usize (Z.of_nat (length (diagList ++ [diag])) - 1) ->
  GroupOk key (diagList ++ [diag], di).
Proof.
  intros (Hne & Hall & Hidx) Hk Hs Hl Hdi. unfold GroupOk. cbn [fst snd] in *.
  split; [destruct diagList; discriminate|].
  split.
  { apply Forall_app. split; [exact Hall|]. constructor; [|constructor].
    auto. }
  rewrite length_app. cbn [length].
  destruct Hdi as [-> | ->].
  - destruct Hidx as [H|H]; [left; exact H|right; lia].
  - right. unfold usize. rewrite length_app. cbn [length].
    assert (0 <= Z.of_nat (length diagList + 1) - 1) by lia.
    split; [apply Z.mod_pos_bound; lia|].
    pose proof (Z.mod_le (Z.of_nat (length diagList + 1) - 1)
                  18446744073709551616 ltac:(lia) ltac:(lia)).
    lia.
Qed.

Lemma addDiag_keeps_groups fuel diag c r c' :
  DiagMapOk c -> addDiag fuel diag c = Ok (r, c') -> DiagMapOk c'.
Proof.
  intros Hok H.
  apply addDiag_cases in H as (Hs & Hl & [(_ & _ & ->)|(_ & inst & _ & H)]);
    [exact Hok|].
  cbv zeta in H.
  destruct H as [(diagList & defIndex & Hg & _ & ->)|(Hg & _ & ->)];
    intros key g; cbn [diagMap set_diagMap];
    (destruct (decide (key = (code diag, diagLocation diag))) as [->|Hne];
     [rewrite lookup_insert_eq; intros [= <-]
     |rewrite lookup_insert_ne by congruence]).
  - apply (GroupOk_snoc _ diagList defIndex); auto.
    destruct (isDefinitionHandle (symbols c) inst); auto.
  - apply Hok.
  - split; [discriminate|]. split; [repeat constructor; auto|].
    cbn [fst snd length].
    destruct (isDefinitionHandle (symbols c) inst); [right; lia|left; reflexivity].
  - destruct (isError diag); apply Hok.
Qed.

(** X13 (Compilation::addDiag, Compilation::addDiagnostics).  The
    diagnostic map is kept in order.  It starts empty, and after any list
    of diagnostics was added each group still has an occurrence, holds only
    occurrences with the code and the location of its key, each with a
    symbol and a valid location, and has a definition index that is
    [SIZE_MAX] or the position of one of its occurrences. *)
Theorem addDiagnostics_keeps_groups (fuel : nat) (diagnostics : list Diagnostic)
    (c c' : Compilation) :
  DiagMapOk c ->
  addDiagnostics fuel diagnostics c = Ok c' ->
  DiagMapOk c'.
Proof.
  revert c. induction diagnostics as [|d ds IH]; intros c Hok H.
  - injection H as <-. exact Hok.
  - cbn [addDiagnostics] in H.
    destruct (addDiag fuel d c) as [[r c1]|] eqn:Hadd;
      cbn [mbind Res_bind] in H; [|discriminate].
    apply (IH c1); [|exact H].
    apply (addDiag_keeps_groups fuel d c r c1 Hok Hadd).
Qed.

Lemma DiagMapOk_new optErrorLimit : DiagMapOk (newCompilation optErrorLimit).
Proof. intros key g H. cbn in H. rewrite lookup_empty in H. discriminate. Qed.

Lemma addDiagnostics_keeps_groups_witness :
  exists g,
    diagMap Threefold.state !! (7%N, mkLoc 1 3) = Some g /\
    GroupOk (7%N, mkLoc 1 3) g.
Proof.
  exists ([Threefold.error; Threefold.error; Threefold.error], SIZE_MAX).
  assert (Hg : diagMap Threefold.state !! (7%N, mkLoc 1 3)
               = Some ([Threefold.error; Threefold.error; Threefold.error],
                       SIZE_MAX))
    by (vm_compute; reflexivity).
  split; [exact Hg|].
  apply (addDiagnostics_keeps_groups 2
           [Threefold.error; Threefold.error; Threefold.error]
           (newCompilation 0) Threefold.state).
  - apply DiagMapOk_new.
  - vm_compute. reflexivity.
  - exact Hg.
Defined.

(** One diagnostic that is not suppressed, stored under its key. *)
Lemma addDiag_stored fuel diag c r c' :
  addDiag fuel diag c = Ok (r, c') ->
  isSuppressed fuel (symbols c) (diagSymbol diag) = Ok false ->
  let key := (code diag, diagLocation diag) in
  occurrences c' key = occurrences c key ++ [diag] /\
  is_Some (diagMap c' !! key) /\
  (forall k, k <> key -> diagMap c' !! k = diagMap c !! k) /\
  numErrors c' = match diagMap c !! key with
                 | None => if isError diag then usize (numErrors c + 1)
                           else numErrors c
                 | Some _ => numErrors c
                 end /\
  symbols c' = symbols c.
Proof.
  intros H Hsup. cbv zeta.
  apply addDiag_cases in H as (_ & _ & [(Hs & _)|(_ & inst & _ & H)]);
    [congruence|].
  cbv zeta in H. unfold occurrences.
  destruct H as [(diagList & defIndex & Hg & _ & ->)|(Hg & _ & ->)];
    cbn [diagMap set_diagMap numErrors symbols]; rewrite lookup_insert_eq, Hg;
    cbn [fst].
  - split; [reflexivity|]. split; [eauto|]. split; [|split; reflexivity].
    intros k Hk. apply lookup_insert_ne. congruence.
  - split; [reflexivity|]. split; [eauto|]. split; [|split].
    + intros k Hk. rewrite lookup_insert_ne by congruence.
      destruct (isError diag); reflexivity.
    + destruct (isError diag); reflexivity.
    + destruct (isError diag); reflexivity.
Qed.

(** X14 (Compilation::addDiagnostics, Compilation::addDiag).  Diagnostics
    with one code and one location that are not suppressed are collected in
    one group, behind the occurrences the group already had and in the
    order they were added.  The groups under other keys stay as they are,
    and the error count goes up by one, once for the whole list, only if
    the key was new and the first diagnostic added is an error. *)
Theorem addDiagnostics_appends (fuel : nat) (diagnostics : list Diagnostic)
    (c c' : Compilation) (key : DiagKey) :
  addDiagnostics fuel diagnostics c = Ok c' ->
  Forall (fun d => (code d, diagLocation d) = key /\
                   isSuppressed fuel (symbols c) (diagSymbol d) = Ok false)
    diagnostics ->
  occurrences c' key = occurrences c key ++ diagnostics /\
  (forall k, k <> key -> diagMap c' !! k = diagMap c !! k) /\
  numErrors c' = match diagMap c !! key, diagnostics with
                 | None, d :: _ => if isError d then usize (numErrors c + 1)
                                   else numErrors c
                 | _, _ => numErrors c
                 end.
Proof.
  revert c. induction diagnostics as [|d ds IH]; intros c H Hall.
  - injection H as <-. rewrite app_nil_r. split; [reflexivity|].
    split; [reflexivity|]. destruct (diagMap c !! key); reflexivity.
  - apply Forall_cons in Hall as [[Hk Hsup] Hall].
    cbn [addDiagnostics] in H.
    destruct (addDiag fuel d c) as [[r c1]|] eqn:Hadd;
      cbn [mbind Res_bind] in H; [|discriminate].
    destruct (addDiag_stored fuel d c r c1 Hadd Hsup)
      as (Hocc & [g Hg] & Hother & Hnum & Hsyms).
    rewrite Hk in Hocc, Hg, Hother, Hnum.
    destruct (IH c1 H) as (Hocc' & Hother' & Hnum').
    { rewrite Hsyms. exact Hall. }
    rewrite Hg in Hnum'.
    split; [rewrite Hocc', Hocc, <- app_assoc; reflexivity|].
    split; [intros k Hne; rewrite Hother', Hother by exact Hne; reflexivity|].
    rewrite Hnum'. destruct ds; exact Hnum.
Qed.

Lemma addDiagnostics_appends_witness :
  occurrences Threefold.state (7%N, mkLoc 1 3)
    = [Threefold.error; Threefold.error; Threefold.error] /\
  numErrors Threefold.state = 1.
Proof.
  destruct (addDiagnostics_appends 2
              [Threefold.error; Threefold.error; Threefold.error]
              (newCompilation 0) Threefold.state (7%N, mkLoc 1 3))
    as (Hocc & _ & Hnum).
  - vm_compute. reflexivity.
  - repeat constructor.
  - split; [exact Hocc|exact Hnum].
Defined.

Lemma addDiag_keeps_cache fuel diag c r c' :
  addDiag fuel diag c = Ok (r, c') ->
  cachedSemanticDiagnostics c' = cachedSemanticDiagnostics c.
Proof.
  intros H.
  apply addDiag_cases in H as (_ & _ & [(_ & _ & ->)|(_ & inst & _ & H)]);
    [reflexivity|].
  cbv zeta in H.
  destruct H as [(diagList & defIndex & _ & _ & ->)|(_ & _ & ->)];
    [reflexivity|].
  destruct (isError diag); reflexivity.
Qed.

(** X15 (Compilation::getSemanticDiagnostics, Compilation::addDiag).  The
    semantic diagnostics are computed once.  After a call that returned
    them, every further call returns the same list and changes nothing;
    this stays so when diagnostics are added afterwards, which the list
    then does not show. *)
Theorem getSemanticDiagnostics_cached (ext : External) (fuel : nat)
    (c c' : Compilation) (results : list Diagnostic) :
  getSemanticDiagnostics ext fuel c = Ok (results, c') ->
  (forall fuel', getSemanticDiagnostics ext fuel' c' = Ok (results, c')) /\
  (forall fuel' fuel2 diag r c2,
     addDiag fuel2 diag c' = Ok (r, c2) ->
     getSemanticDiagnostics ext fuel' c2 = Ok (results, c2)).
Proof.
  intros H.
  assert (Hc : cachedSemanticDiagnostics c' = Some results).
  { unfold getSemanticDiagnostics in H.
    destruct (cachedSemanticDiagnostics c) as [cached|] eqn:Hcache.
    - injection H as <- <-. exact Hcache.
    - destruct (getRoot c) as [c1|]; cbn [mbind Res_bind] in H; [|discriminate].
      destruct (DiagnosticVisitor.visit _ _ _ _ _) as [v|];
        cbn [mbind Res_bind] in H; [|discriminate].
      destruct (coalesceDiagnostics _ _ _) as [res|];
        cbn [mbind Res_bind] in H; [|discriminate].
      injection H as <- <-. reflexivity. }
  split.
  - intros fuel'. unfold getSemanticDiagnostics. rewrite Hc. reflexivity.
  - intros fuel' fuel2 diag r c2 Hadd. unfold getSemanticDiagnostics.
    rewrite (addDiag_keeps_cache _ _ _ _ _ Hadd), Hc. reflexivity.
Qed.

Lemma getSemanticDiagnostics_cached_witness :
  getSemanticDiagnostics noExternal 0 Reported.state
    = Ok (Reported.results, Reported.state).
Proof.
  apply (getSemanticDiagnostics_cached noExternal 8 Coalescing.state
           Reported.state Reported.results).
  vm_compute. reflexivity.
Defined.

(** ** The diagnostic visitor inside definitions *)

Section VisitorState.
Context (ext : External) (limit : Z).

Lemma Keeps_refl v : KeepsDefinitionState v v.
Proof. split; auto. Qed.

Lemma Keeps_trans v1 v2 v3 :
  KeepsDefinitionState v1 v2 -> KeepsDefinitionState v2 v3 ->
  KeepsDefinitionState v1 v3.
Proof.
  intros [H1 H2] [H3 H4]. split; [congruence|].
  intros Hd. rewrite H4, H2; auto. congruence.
Qed.

Lemma force_Keeps f h v v' :
  DiagnosticVisitor.force ext f h v = Ok v' -> KeepsDefinitionState v v'.
Proof.
  unfold DiagnosticVisitor.force.
  destruct (forceLazy ext f h (compilation v)); cbn [mbind Res_bind];
    [|discriminate].
  intros [= <-]. split; auto.
Qed.

Lemma forceAttributes_Keeps attrs h : forall v v',
  DiagnosticVisitor.forceAttributes ext attrs h v = Ok v' ->
  KeepsDefinitionState v v'.
Proof.
  induction attrs as [|a attrs IH]; intros v v' H.
  - injection H as <-. apply Keeps_refl.
  - cbn [DiagnosticVisitor.forceAttributes] in H.
    destruct (DiagnosticVisitor.force ext (Attribute_getValue a) h v) as [v1|]
      eqn:Hf; cbn [mbind Res_bind] in H; [|discriminate].
    eapply Keeps_trans; [eapply force_Keeps; exact Hf|apply IH; exact H].
Qed.

Lemma forceSymbol_Keeps h v v' :
  DiagnosticVisitor.forceSymbol ext h v = Ok v' -> KeepsDefinitionState v v'.
Proof.
  unfold DiagnosticVisitor.forceSymbol.
  destruct (getSymbol (compilation v) h) as [sym|]; cbn [mbind Res_bind];
    [|discriminate].
  intros H.
  destruct (if getDeclaredType ext sym
            then DiagnosticVisitor.force ext DeclaredType_getType h v
                 ≫= fun v0 => DiagnosticVisitor.force ext DeclaredType_getInitializer h v0
            else Ok v) as [v1|] eqn:H1; cbn [mbind Res_bind] in H; [|discriminate].
  assert (K1 : KeepsDefinitionState v v1).
  { destruct (getDeclaredType ext sym); [|injection H1 as <-; apply Keeps_refl].
    destruct (DiagnosticVisitor.force ext DeclaredType_getType h v) as [v0|] eqn:H0;
      cbn [mbind Res_bind] in H1; [|discriminate].
    eapply Keeps_trans; eapply force_Keeps; eassumption. }
  destruct (match kind sym with
            | SkParameter | SkEnumValue => DiagnosticVisitor.force ext getValue h v1
            | _ => Ok v1
            end) as [v2|] eqn:H2; cbn [mbind Res_bind] in H; [|discriminate].
  assert (K2 : KeepsDefinitionState v1 v2).
  { destruct (kind sym); try (injection H2 as <-; apply Keeps_refl);
      eapply force_Keeps; exact H2. }
  eapply Keeps_trans; [exact K1|]. eapply Keeps_trans; [exact K2|].
  eapply forceAttributes_Keeps. exact H.
Qed.

Lemma visitBody_Keeps h v v' :
  DiagnosticVisitor.visitBody ext h v = Ok v' -> KeepsDefinitionState v v'.
Proof.
  unfold DiagnosticVisitor.visitBody.
  destruct (getSymbol (compilation v) h) as [sym|]; cbn [mbind Res_bind];
    [|discriminate].
  destruct (hasGetBody ext (kind sym)).
  - apply force_Keeps.
  - intros [= <-]. apply Keeps_refl.
Qed.

Section Children.
Context (visitChild : handle -> VisitorState -> Res VisitorState).
Hypothesis visitChild_Keeps : forall h v v',
  visitChild h v = Ok v' -> KeepsDefinitionState v v'.

Lemma visitMembers_Keeps fuel : forall cur v v',
  DiagnosticVisitor.visitMembers fuel visitChild cur v = Ok v' ->
  KeepsDefinitionState v v'.
Proof.
  induction fuel as [|fuel IH]; intros cur v v' H; [discriminate|].
  cbn [DiagnosticVisitor.visitMembers] in H.
  destruct cur as [m|]; [|injection H as <-; apply Keeps_refl].
  destruct (visitChild m v) as [v1|] eqn:Hc; cbn [mbind Res_bind] in H;
    [|discriminate].
  destruct (getSymbol (compilation v1) m) as [s|]; cbn [mbind Res_bind] in H;
    [|discriminate].
  eapply Keeps_trans; [eapply visitChild_Keeps; exact Hc|eapply IH; exact H].
Qed.

Lemma visitDefault_Keeps fuel h v v' :
  DiagnosticVisitor.visitDefault ext fuel visitChild h v = Ok v' ->
  KeepsDefinitionState v v'.
Proof.
  unfold DiagnosticVisitor.visitDefault.
  destruct (Scope.ensureMembers ext h (compilation v)) as [c|];
    cbn [mbind Res_bind]; [|discriminate].
  intros H. apply visitMembers_Keeps in H.
  eapply Keeps_trans; [|exact H]. split; auto.
Qed.

Lemma handleDefault_Keeps fuel h v r v' :
  DiagnosticVisitor.handleDefault ext limit fuel visitChild h v = Ok (r, v') ->
  KeepsDefinitionState v v'.
Proof.
  unfold DiagnosticVisitor.handleDefault.
  destruct (DiagnosticVisitor.overLimit limit v).
  { intros [= <- <-]. apply Keeps_refl. }
  destruct (DiagnosticVisitor.forceSymbol ext h v) as [v1|] eqn:H1;
    cbn [mbind Res_bind]; [|discriminate].
  destruct (DiagnosticVisitor.visitBody ext h v1) as [v2|] eqn:H2;
    cbn [mbind Res_bind]; [|discriminate].
  destruct (DiagnosticVisitor.visitDefault ext fuel visitChild h v2) as [v3|] eqn:H3;
    cbn [mbind Res_bind]; [|discriminate].
  intros [= <- <-].
  eapply Keeps_trans; [eapply forceSymbol_Keeps; exact H1|].
  eapply Keeps_trans; [eapply visitBody_Keeps; exact H2|].
  eapply visitDefault_Keeps; exact H3.
Qed.

Lemma handleThen_Keeps fuel after h v v' :
  (forall h v v', after h v = Ok v' -> KeepsDefinitionState v v') ->
  DiagnosticVisitor.handleThen ext limit fuel visitChild after h v = Ok v' ->
  KeepsDefinitionState v v'.
Proof.
  intros Hafter. unfold DiagnosticVisitor.handleThen.
  destruct (DiagnosticVisitor.handleDefault ext limit fuel visitChild h v)
    as [[r v1]|] eqn:Hd; cbn [mbind Res_bind fst snd]; [|discriminate].
  apply handleDefault_Keeps in Hd.
  destruct r.
  - intros H. eapply Keeps_trans; [exact Hd|eapply Hafter; exact H].
  - intros [= <-]. exact Hd.
Qed.

Lemma handleInstance_Keeps fuel def h v v' :
  DiagnosticVisitor.handleInstance ext limit fuel visitChild def h v = Ok v' ->
  KeepsDefinitionState v v'.
Proof.
  unfold DiagnosticVisitor.handleInstance.
  destruct (DiagnosticVisitor.overLimit limit v).
  { intros [= <-]. apply Keeps_refl. }
  destruct (DiagnosticVisitor.handleDefault ext limit fuel visitChild h
              (if inDef v then v else countInstance def v))
    as [[r v1]|] eqn:Hd; cbn [mbind Res_bind fst snd]; [|discriminate].
  intros [= <-]. apply handleDefault_Keeps in Hd.
  eapply Keeps_trans; [|exact Hd].
  destruct (inDef v) eqn:Hin; [apply Keeps_refl|].
  split; [reflexivity|]. cbn. congruence.
Qed.

End Children.

Lemma visit_Keeps fuel : forall h v v',
  DiagnosticVisitor.visit ext limit fuel h v = Ok v' ->
  KeepsDefinitionState v v' /\
  (forall s, symbols (compilation v) !! h = Some s -> kind s = SkDefinition ->
     instanceCount v' = instanceCount v).
Proof.
  induction fuel as [|fuel IH]; intros h v v' H; [discriminate|].
  assert (IH' : forall h v v',
    DiagnosticVisitor.visit ext limit fuel h v = Ok v' ->
    KeepsDefinitionState v v') by (intros; eapply IH; eassumption).
  cbn [DiagnosticVisitor.visit] in H. unfold getSymbol, readSymbol in H.
  destruct (symbols (compilation v) !! h) as [sym|] eqn:Hsym;
    cbn [mbind Res_bind] in H; [|discriminate].
  assert (Hforce : forall f h v v',
    DiagnosticVisitor.force ext f h v = Ok v' -> KeepsDefinitionState v v')
    by (intros; eapply force_Keeps; eassumption).
  destruct (data sym) eqn:Hdata;
    try (split; [|intros s [= <-]; unfold kind; rewrite Hdata; discriminate]);
    try (eapply handleThen_Keeps; [exact IH'| |exact H]; eauto; fail);
    try (eapply handleInstance_Keeps; [exact IH'|exact H]);
    try (destruct (DiagnosticVisitor.handleDefault _ _ _ _ _ _) as [[r v1]|] eqn:Hd;
         cbn [mbind Res_bind snd] in H; [|discriminate];
         injection H as <-; eapply handleDefault_Keeps; [exact IH'|exact Hd]).
  - (* a definition *)
    destruct (DiagnosticVisitor.overLimit limit v).
    { injection H as <-. split; [apply Keeps_refl|auto]. }
    destruct (DiagnosticVisitor.handleDefault _ _ _ _ _ _) as [[r v1]|] eqn:Hd;
      cbn [mbind Res_bind snd] in H; [|discriminate].
    injection H as <-.
    apply (handleDefault_Keeps _ IH') in Hd. destruct Hd as [Hd1 Hd2].
    cbn [inDef set_inDef instanceCount] in *.
    specialize (Hd2 eq_refl). split; [split|]; auto.
  - (* a generate block *)
    destruct (negb isInstantiated).
    { injection H as <-. apply Keeps_refl. }
    destruct (DiagnosticVisitor.handleDefault _ _ _ _ _ _) as [[r v1]|] eqn:Hd;
      cbn [mbind Res_bind snd] in H; [|discriminate].
    injection H as <-. eapply handleDefault_Keeps; [exact IH'|exact Hd].
  - (* a port *)
    eapply handleThen_Keeps; [exact IH'| |exact H].
    intros h0 v0 v0' H0. cbv beta in H0.
    destruct (DiagnosticVisitor.force ext Port_getConnection h0 v0) as [v1|] eqn:H1;
      cbn [mbind Res_bind] in H0; [|discriminate].
    eapply Keeps_trans; [eapply force_Keeps; exact H1|].
    eapply forceAttributes_Keeps; exact H0.
  - (* an interface port *)
    eapply handleThen_Keeps; [exact IH'| |exact H].
    intros h0 v0 v0' H0. cbv beta in H0.
    eapply forceAttributes_Keeps; exact H0.
  - (* a symbol of another class *)
    split; [|intros s [= <-]; unfold kind; rewrite Hdata; destruct k;
             discriminate].
    destruct (DiagnosticVisitor.handleDefault _ _ _ _ _ _) as [[r v1]|] eqn:Hd;
      cbn [mbind Res_bind snd] in H; [|discriminate].
    injection H as <-. eapply handleDefault_Keeps; [exact IH'|exact Hd].
Qed.

End VisitorState.

(** X16 (DiagnosticVisitor::handle(const DefinitionSymbol&), the scope
    guard).  A visit, of whatever symbol and however deep, hands the
    visitor back with the flag [inDef] it had: the handler of a definition
    sets the flag for the members of the definition only. *)
Theorem visit_restores_inDef (ext : External) (limit : Z) (fuel : nat)
    (h : handle) (v v' : VisitorState) :
  DiagnosticVisitor.visit ext limit fuel h v = Ok v' ->
  inDef v' = inDef v.
Proof.
  intros H. apply (visit_Keeps ext limit fuel h v v' H).
Qed.

(** X17 (DiagnosticVisitor::handleInstance, DiagnosticVisitor::handle(const
    DefinitionSymbol&)).  Instances inside a definition are not counted:
    the visit of a definition, and every visit made while [inDef] is set,
    leaves the instance counts as they were. *)
Theorem visit_definition_counts_nothing (ext : External) (limit : Z)
    (fuel : nat) (h : handle) (v v' : VisitorState) (s : Symbol) :
  DiagnosticVisitor.visit ext limit fuel h v = Ok v' ->
  symbols (compilation v) !! h = Some s ->
  inDef v = true \/ kind s = SkDefinition ->
  instanceCount v' = instanceCount v.
Proof.
  intros H Hs [Hin|Hk].
  - apply (visit_Keeps ext limit fuel h v v' H). exact Hin.
  - apply (proj2 (visit_Keeps ext limit fuel h v v' H) s Hs Hk).
Qed.

Lemma visit_restores_inDef_witness :
  inDef NestedInstance.afterRoot = false /\
  instanceCount NestedInstance.afterRoot = {[ NestedInstance.defM := 1 ]}.
Proof.
  split.
  - apply (visit_restores_inDef noExternal UINT32_MAX 5 0%nat
             NestedInstance.start NestedInstance.afterRoot).
    vm_compute. reflexivity.
  - vm_compute. reflexivity.
Defined.

Lemma visit_definition_counts_nothing_witness :
  instanceCount NestedInstance.afterDefinition = ∅.
Proof.
  apply (visit_definition_counts_nothing noExternal UINT32_MAX 5
           NestedInstance.defM NestedInstance.start
           NestedInstance.afterDefinition
           (mkSymbol (DefinitionSymbol DkModule []) "M" (mkLoc 1 0)
              (Some 0%nat) (Some NestedInstance.top) 1)).
  - vm_compute. reflexivity.
  - vm_compute. reflexivity.
  - right. reflexivity.
Defined.

(** ** The order of the wildcard imports *)

Lemma sorted_lt_agree (f f' : handle -> Z) (l : list handle) :
  (forall h, h ∈ l -> f' h = f h) ->
  StronglySorted (fun a b => f a < f b) l ->
  StronglySorted (fun a b => f' a < f' b) l.
Proof.
  intros Hsame Hs. induction Hs as [|x l Hs IH Hall]; [constructor|].
  constructor.
  - apply IH. intros h Hh. apply Hsame. right. exact Hh.
  - rewrite Forall_forall in *. intros y Hy.
    rewrite (Hsame x) by left. rewrite (Hsame y) by (right; exact Hy).
    apply Hall. exact Hy.
Qed.

(** X18 (Scope::addMembers, the branch of a wildcard import;
    Compilation::trackImport; Compilation::queryImports).  A wildcard
    import becomes the last member of its scope and the last entry of the
    import list of the scope.  If the list was in the order of the indices
    it still is: the list of the imports of a scope is built in
    declaration order. *)
Theorem addWildcardImport_ordered (c : Compilation) (this : handle)
    (l : list handle) (import : handle) (s : Symbol) (p : option handle) :
  WellLinked c this l ->
  ImportsOrdered c this l ->
  symbols c !! import = Some s ->
  data s = WildcardImportSymbol p ->
  parentScope s = None ->
  nextInScope s = None ->
  (forall a, last l = Some a -> indexOf c a < UINT32_MAX) ->
  (forall i, importDataIndex (getScope c this) = Some i ->
             (i < length (importData c))%nat) ->
  exists c',
    Scope.addWildcardImport this import c = Ok c' /\
    WellLinked c' this (l ++ [import]) /\
    queryImports c' (importDataIndex (getScope c' this)) =
      queryImports c (importDataIndex (getScope c this)) ++ [import] /\
    ImportsOrdered c' this (l ++ [import]).
Proof.
  intros Hwl [Hmem Hsorted] Hs Hdata Hp Hn Hover Hvalid.
  destruct (addMember_spec c this l import s Hwl Hs Hp Hn Hover)
    as (c1 & s' & Hadd & Hwl1 & Hs' & _ & _ & _ & _ & Hidx & Hold & _ & Hidi
        & Himp & _).
  unfold Scope.addWildcardImport. rewrite Hadd. cbn [mbind Res_bind].
  rewrite Hidi.
  assert (Hvalid1 : forall i, importDataIndex (getScope c this) = Some i ->
                      (i < length (importData c1))%nat)
    by (rewrite Himp; exact Hvalid).
  destruct (trackImport_spec c1 (importDataIndex (getScope c this)) import Hvalid1)
    as (Hq & _ & _ & _ & Hsyms & Hscopes).
  destruct (trackImport (importDataIndex (getScope c this)) import c1)
    as [i c2] eqn:Htrack. cbn [fst snd] in *.
  eexists. split; [reflexivity|].
  set (c' := putScope this (set_importDataIndex i (getScope c1 this)) c2).
  assert (Hsc : getScope c' this = set_importDataIndex i (getScope c1 this))
    by apply getScope_putScope_eq.
  assert (Hwl' : WellLinked c' this (l ++ [import])).
  { apply WellLinked_agree with (c := c1); try (rewrite Hsc; reflexivity);
      [|exact Hwl1].
    intros h _. cbn [symbols c' putScope set_scopes]. rewrite Hsyms. reflexivity. }
  assert (Hq' : queryImports c' (importDataIndex (getScope c' this)) =
                queryImports c (importDataIndex (getScope c this)) ++ [import]).
  { rewrite Hsc. cbn [importDataIndex set_importDataIndex].
    change (queryImports c' i) with (queryImports c2 i). rewrite Hq.
    unfold queryImports. rewrite Himp. reflexivity. }
  split; [exact Hwl'|]. split; [exact Hq'|].
  assert (Hio : forall h, h ∈ l -> indexOf c' h = indexOf c h).
  { intros h Hh.
    pose proof (wl_parent _ _ _ Hwl) as Hpar. rewrite Forall_forall in Hpar.
    destruct (Hpar h Hh) as (hs & Hhs & Hhp).
    assert (Hne : h <> import) by (intros ->; congruence).
    destruct (Hold h hs Hne Hhs) as (hs' & Hhs' & Hi & _).
    unfold indexOf. cbn [symbols c' putScope set_scopes].
    rewrite Hsyms, Hhs', Hhs. exact Hi. }
  assert (Hinew : indexOf c' import = match last l with
                                      | Some a => indexOf c a + 1
                                      | None => 1
                                      end).
  { unfold indexOf. cbn [symbols c' putScope set_scopes].
    rewrite Hsyms, Hs'. exact Hidx. }
  unfold ImportsOrdered. cbv zeta. rewrite Hq'. split.
  - apply Forall_app. split.
    + eapply Forall_impl; [exact Hmem|]. intros h Hh. apply elem_of_app. auto.
    + constructor; [|constructor]. apply elem_of_app. right. left.
  - apply StronglySorted_app. split; [|split].
    + intros x1 x2 Hx1 Hx2. apply list_elem_of_singleton in Hx2. subst x2.
      rewrite Forall_forall in Hmem. specialize (Hmem x1 Hx1).
      rewrite (Hio x1 Hmem), Hinew.
      destruct (last l) as [a|] eqn:Hlast.
      * pose proof (WellLinked_last_max c this l a Hwl Hlast x1 Hmem). lia.
      * apply last_None in Hlast. subst l. inversion Hmem.
    + apply sorted_lt_agree with (f := indexOf c); [|exact Hsorted].
      intros h Hh. apply Hio. rewrite Forall_forall in Hmem. apply Hmem.
      exact Hh.
    + repeat constructor.
Qed.

Lemma ThirdImport_WellLinked :
  WellLinked ThirdImport.state AmbiguousImports.unit
    [AmbiguousImports.importP; AmbiguousImports.importQ].
Proof.
  constructor.
  - simpl. split; [reflexivity|]. eexists. split; [reflexivity|].
    simpl. split; [reflexivity|]. eexists. split; reflexivity.
  - reflexivity.
  - repeat constructor; eexists; split; reflexivity.
  - apply NoDup_cons. split; [|apply NoDup_singleton].
    intros Hin. apply list_elem_of_singleton in Hin. discriminate.
  - intros n h Hh. vm_compute in Hh. discriminate.
  - repeat constructor; vm_compute; discriminate.
  - repeat constructor; vm_compute; discriminate.
Qed.

Lemma ThirdImport_ordered :
  ImportsOrdered ThirdImport.state AmbiguousImports.unit
    [AmbiguousImports.importP; AmbiguousImports.importQ].
Proof.
  split.
  - change (queryImports ThirdImport.state
              (importDataIndex
                 (getScope ThirdImport.state AmbiguousImports.unit)))
      with [AmbiguousImports.importP; AmbiguousImports.importQ].
    constructor; [left|]. constructor; [right; left|constructor].
  - change (queryImports ThirdImport.state
              (importDataIndex
                 (getScope ThirdImport.state AmbiguousImports.unit)))
      with [AmbiguousImports.importP; AmbiguousImports.importQ].
    repeat constructor; vm_compute; reflexivity.
Qed.

Lemma addWildcardImport_ordered_witness :
  exists c',
    Scope.addWildcardImport AmbiguousImports.unit ThirdImport.import
      ThirdImport.state = Ok c' /\
    queryImports c' (importDataIndex (getScope c' AmbiguousImports.unit)) =
      [AmbiguousImports.importP; AmbiguousImports.importQ; ThirdImport.import] /\
    ImportsOrdered c' AmbiguousImports.unit
      [AmbiguousImports.importP; AmbiguousImports.importQ; ThirdImport.import].
Proof.
  destruct (addWildcardImport_ordered ThirdImport.state AmbiguousImports.unit
              [AmbiguousImports.importP; AmbiguousImports.importQ]
              ThirdImport.import ThirdImport.symImport
              (Some AmbiguousImports.p)
              ThirdImport_WellLinked ThirdImport_ordered)
    as (c' & Hadd & _ & Hq & Hord).
  - vm_compute. reflexivity.
  - reflexivity.
  - reflexivity.
  - reflexivity.
  - intros a [= <-]. vm_compute. reflexivity.
  - intros i Hi. vm_compute in Hi. injection Hi as <-. vm_compute. lia.
  - exists c'. split; [exact Hadd|]. split; [exact Hq|exact Hord].
Defined.

Lemma filter_none (P : handle -> Prop) `{forall x, Decision (P x)}
    (l : list handle) :
  Forall (fun x => ~ P x) l -> filter P l = [].
Proof.
  induction 1 as [|x l Hx _ IH]; [reflexivity|].
  rewrite filter_cons_False by exact Hx. exact IH.
Qed.

(** In an import list in the order of the indices, the leading imports
    that are declared before a reference point are all the imports that
    are declared before it. *)
Lemma consultedImports_all c ref imps :
  Forall (fun i => is_Some (symbols c !! i)) imps ->
  StronglySorted (fun a b => indexOf c a < indexOf c b) imps ->
  consultedImports (symbols c) ref imps = importsBefore c ref imps.
Proof.
  intros Hsyms Hsorted. unfold importsBefore.
  induction Hsorted as [|i imps Hs IH Hall]; [reflexivity|].
  apply Forall_cons in Hsyms as [[s Hsym] Hsyms].
  cbn [consultedImports]. rewrite Hsym.
  assert (Hidx : indexOf c i = indexInScope s)
    by (unfold indexOf; rewrite Hsym; reflexivity).
  destruct (indexInScope s <? index ref) eqn:Hlt.
  - apply Z.ltb_lt in Hlt. rewrite filter_cons_True by (rewrite Hidx; exact Hlt).
    rewrite IH by exact Hsyms. reflexivity.
  - apply Z.ltb_ge in Hlt. rewrite filter_cons_False by (rewrite Hidx; lia).
    symmetry. apply filter_none. eapply Forall_impl; [exact Hall|].
    intros x Hx. cbv beta in Hx. lia.
Qed.

(** X19 (Scope::lookup, the loop over the wildcard imports).  The loop
    ends at the first import that is declared after the reference point.
    In a scope whose import list is in the order of the indices it
    thereby misses no import: the packages of all the imports that are
    declared before the reference point are searched, in declaration
    order, and each hit is recorded. *)
Theorem import_loop_misses_nothing (ext : External) (c : Compilation)
    (this : handle) (l : list handle) (searchName : string)
    (result : LookupResult) :
  let imps := queryImports c (importDataIndex (getScope c this)) in
  let before := importsBefore c (referencePoint result) imps in
  ImportsOrdered c this l ->
  ImportsReady c searchName (referencePoint result) imps ->
  Scope.lookupImports ext imps searchName [] result c =
    Ok (omap (fun imp => pair imp <$> packageExport c searchName imp) before,
        addPotentialImports (omap (packageExport c searchName) before) result,
        c).
Proof.
  intros imps before [_ Hsorted] Hready.
  rewrite (lookupImports_ready ext imps searchName [] result c Hready).
  cbv zeta. cbn [app].
  rewrite consultedImports_all; [reflexivity| |exact Hsorted].
  eapply Forall_impl; [exact Hready|].
  intros i (s & Hs & _). eauto.
Qed.

Lemma ThirdImport_ready :
  ImportsReady ThirdImport.state "foo"
    (referencePoint AmbiguousImports.fromBetween)
    [AmbiguousImports.importP; AmbiguousImports.importQ].
Proof.
  repeat constructor.
  - eexists. split; [vm_compute; reflexivity|].
    split; [simpl; unfold UINT32_MAX; lia|].
    intros _. exists AmbiguousImports.p.
    split; [reflexivity|]. split; [vm_compute; reflexivity|].
    intros h Hh. vm_compute in Hh. injection Hh as <-. vm_compute. eauto.
  - eexists. split; [vm_compute; reflexivity|].
    split; [simpl; unfold UINT32_MAX; lia|].
    intros Hlt. simpl in Hlt. lia.
Qed.

Lemma import_loop_misses_nothing_witness :
  Scope.lookupImports noExternal
    [AmbiguousImports.importP; AmbiguousImports.importQ] "foo" []
    AmbiguousImports.fromBetween ThirdImport.state
  = Ok ([(AmbiguousImports.importP, AmbiguousImports.fooP)],
        LookupResult.addPotentialImport AmbiguousImports.fooP
          AmbiguousImports.fromBetween,
        ThirdImport.state).
Proof.
  exact (import_loop_misses_nothing noExternal ThirdImport.state
           AmbiguousImports.unit
           [AmbiguousImports.importP; AmbiguousImports.importQ] "foo"
           AmbiguousImports.fromBetween ThirdImport_ordered ThirdImport_ready).
Defined.

(** ** The outcomes of a lookup *)

Section Outcomes.
Context (ext : External).




End Outcomes.



(** X21 (Scope::lookupDirect, Scope::lookup).  What a scope imports it
    does not export.  When the name map of a realized scope holds an
    explicit import under a name, [lookupDirect], which the wildcard
    imports of other scopes search the package with, answers null, while
    the direct search of a lookup in the scope itself reports the imported
    symbol, as imported, from every reference point the import is declared
    before.  [lookupDirect] of the empty name answers null without
    realizing the members of the scope. *)
Theorem imports_are_not_exported (ext : External) (c : Compilation)
    (pkg : handle) (searchName : string) (h : handle) (s : Symbol)
    (target : handle) (result : LookupResult) :
  deferredMemberIndex (getScope c pkg) = None ->
  searchName <> EmptyString ->
  nameMap (getScope c pkg) !! searchName = Some h ->
  symbols c !! h = Some s ->
  data s = ExplicitImportSymbol (Some target) ->
  Scope.lookupDirect ext pkg searchName c = Ok (None, c) /\
  (nameKind result = Callable \/
   indexInScope s < index (referencePoint result) ->
   Scope.lookupLocal pkg searchName result c =
     Ok (Some (LookupResult.setSymbol target true result))) /\
  (forall c0 this, Scope.lookupDirect ext this EmptyString c0 = Ok (None, c0)).
Proof.
  intros Hreal Hne Hbound Hs Hdata.
  assert (Hkind : kind s = SkExplicitImport) by (unfold kind; rewrite Hdata; reflexivity).
  split; [|split].
  - unfold Scope.lookupDirect.
    rewrite bool_decide_eq_false_2 by exact Hne.
    rewrite ensureMembers_realized by exact Hreal.
    cbn [mbind Res_bind]. rewrite Hbound. unfold getSymbol, readSymbol.
    rewrite Hs. cbn [mbind Res_bind].
    rewrite bool_decide_eq_false_2; [reflexivity|].
    intros Hk. apply Hk. exact Hkind.
  - intros Hvisible.
    rewrite (lookupLocal_entry pkg searchName result c h s Hbound Hs).
    assert (Hgood : (if LookupResult.referencePointMatters result
                     then LookupRefPoint.lt (LookupRefPoint.before s)
                            (referencePoint result)
                     else true) = true).
    { unfold LookupResult.referencePointMatters, LookupRefPoint.lt,
        LookupRefPoint.before. cbn [index].
      destruct Hvisible as [-> | Hlt]; [reflexivity|].
      destruct (nameKind result); try reflexivity; apply Z.ltb_lt; exact Hlt. }
    rewrite Hgood. unfold Scope.setFound, as_ExplicitImportSymbol.
    rewrite Hkind, Hdata. reflexivity.
  - intros c0 this. reflexivity.
Qed.

Lemma imports_are_not_exported_witness :
  Scope.lookupDirect noExternal Reexport.p "bar" Reexport.state
    = Ok (None, Reexport.state) /\
  Scope.lookupLocal Reexport.p "bar"
    (lookupFrom Local (LookupRefPoint.endOfScope Reexport.p)) Reexport.state
    = Ok (Some (LookupResult.setSymbol Reexport.bar true
                  (lookupFrom Local (LookupRefPoint.endOfScope Reexport.p)))).
Proof.
  destruct (imports_are_not_exported noExternal Reexport.state Reexport.p "bar"
              Reexport.importBar Reexport.symImport Reexport.bar
              (lookupFrom Local (LookupRefPoint.endOfScope Reexport.p)))
    as (Hdirect & Hlocal & _).
  - reflexivity.
  - discriminate.
  - vm_compute. reflexivity.
  - vm_compute. reflexivity.
  - reflexivity.
  - split; [exact Hdirect|]. apply Hlocal. right. vm_compute. reflexivity.
Defined.

(** ** Script scopes and deferred members *)

(** [insertMember] writes the symbol store and the scope only. *)
Lemma insertMember_fields this member at_ c c' :
  Scope.insertMember this member at_ c = Ok c' ->
  compilationUnits c' = compilationUnits c /\
  finalized c' = finalized c /\
  finalizing c' = finalizing c /\
  topInstances c' = topInstances c /\
  diagMap c' = diagMap c /\
  numErrors c' = numErrors c.
Proof.
  intros H.
  destruct (insertMember_inv _ _ _ _ _ H) as (m & Hm & Hp & Hn & Hat).
  unfold Scope.insertMember, getSymbol, readSymbol in H.
  rewrite Hm in H. cbn [mbind Res_bind] in H. rewrite Hp, Hn in H.
  cbn [bool_decide decide_rel ASSERT mbind Res_bind] in H.
  destruct at_ as [a|].
  - destruct (Hat a eq_refl) as [asym Ha]. rewrite Ha in H.
    cbn [mbind Res_bind] in H. cbn [symbols putSymbol set_symbols] in H.
    rewrite lookup_insert_eq in H. cbn [mbind Res_bind] in H.
    injection H as <-. repeat split.
  - cbn [mbind Res_bind] in H. cbn [symbols putSymbol set_symbols] in H.
    rewrite lookup_insert_eq in H. cbn [mbind Res_bind] in H.
    injection H as <-. repeat split.
Qed.

(** X22 (Compilation::createScriptScope, Scope::addMember).  A script
    scope is a new compilation-unit symbol that becomes the last member of
    the root scope.  It is not entered in the list of compilation units,
    and it is created whether or not the compilation is finalized: the
    flag is neither read nor written. *)
Theorem createScriptScope_member (c : Compilation) (l : list handle)
    (unitSymbol : Symbol) :
  WellLinked c (root c) l ->
  data unitSymbol = CompilationUnitSymbol ->
  parentScope unitSymbol = None ->
  nextInScope unitSymbol = None ->
  (forall a, last l = Some a -> indexOf c a < UINT32_MAX) ->
  exists unit c' s',
    createScriptScope unitSymbol c = Ok (unit, c') /\
    symbols c !! unit = None /\
    WellLinked c' (root c) (l ++ [unit]) /\
    symbols c' !! unit = Some s' /\
    kind s' = SkCompilationUnit /\
    parentScope s' = Some (root c) /\
    compilationUnits c' = compilationUnits c /\
    finalized c' = finalized c.
Proof.
  intros Hwl Hdata Hp Hn Hover.
  unfold createScriptScope.
  pose proof (emplace_fresh unitSymbol c) as Hfresh.
  pose proof (emplace_lookup unitSymbol c) as Hu.
  pose proof (emplace_other unitSymbol c) as Hother.
  pose proof (WellLinked_emplace c (root c) l unitSymbol Hwl) as Hwl0.
  assert (Hcu : compilationUnits (emplace unitSymbol c).2 = compilationUnits c /\
                finalized (emplace unitSymbol c).2 = finalized c /\
                root (emplace unitSymbol c).2 = root c)
    by (repeat split).
  destruct (emplace unitSymbol c) as [unit c0]. cbn [fst snd] in *.
  destruct Hcu as (Hcu & Hfin & Hroot).
  assert (Hover0 : forall a, last l = Some a -> indexOf c0 a < UINT32_MAX).
  { intros a Ha. unfold indexOf. rewrite Hother; [apply Hover; exact Ha|].
    intros ->. apply last_Some_elem_of in Ha.
    pose proof (wl_parent _ _ _ Hwl) as Hpar. rewrite Forall_forall in Hpar.
    destruct (Hpar unit Ha) as (x & Hx & _). congruence. }
  rewrite Hroot.
  destruct (addMember_spec c0 (root c) l unit unitSymbol Hwl0 Hu Hp Hn Hover0)
    as (c' & s' & Hadd & Hwl' & Hs' & Hd' & _ & Hp' & _).
  rewrite Hadd. cbn [mbind Res_bind].
  exists unit, c', s'. split; [reflexivity|]. split; [exact Hfresh|].
  split; [exact Hwl'|]. split; [exact Hs'|].
  split; [unfold kind; rewrite Hd', Hdata; reflexivity|].
  split; [exact Hp'|].
  rewrite (addMember_unfold _ _ _ _ Hu) in Hadd. cbv zeta in Hadd.
  unfold exposedType in Hadd. rewrite Hdata in Hadd.
  destruct (insertMember_fields _ _ _ _ _ Hadd) as (H1 & H2 & _).
  split; congruence.
Qed.

Lemma createScriptScope_member_witness :
  exists unit c' s',
    createScriptScope (newSymbol CompilationUnitSymbol "" (mkLoc 0 0))
      (newCompilation 0) = Ok (unit, c') /\
    WellLinked c' 0%nat [unit] /\
    symbols c' !! unit = Some s' /\
    parentScope s' = Some 0%nat /\
    compilationUnits c' = [].
Proof.
  destruct (createScriptScope_member (newCompilation 0) []
              (newSymbol CompilationUnitSymbol "" (mkLoc 0 0)))
    as (unit & c' & s' & Hc & _ & Hwl & Hs & _ & Hp & Hcu & _).
  - apply WellLinked_nil; reflexivity.
  - reflexivity.
  - reflexivity.
  - reflexivity.
  - intros a [=].
  - exists unit, c', s'. split; [exact Hc|]. split; [exact Hwl|].
    split; [exact Hs|]. split; [exact Hp|exact Hcu].
Defined.




(** ** Lookups that climb to the parent scope *)

(** X24 (Scope::lookup, LookupRefPoint::after).  A local or scoped lookup
    that finds nothing in a scope goes on in the parent scope, looking
    from the point right after the symbol of the scope.  A member of the
    parent is therefore found from anywhere inside the child scope if its
    index is at most the index of the child, and it is not found by the
    direct search of the parent if its index is larger.  Where in the
    child the lookup started plays no part. *)
Theorem lookup_climbs (ext : External) (c : Compilation) (this : handle)
    (thisSym : Symbol) (parent : handle) (searchName : string) (m : handle)
    (msym : Symbol) (result : LookupResult) :
  symbols c !! this = Some thisSym ->
  kind thisSym <> SkRoot ->
  parentScope thisSym = Some parent ->
  0 <= indexInScope thisSym < UINT32_MAX ->
  deferredMemberIndex (getScope c this) = None ->
  nameMap (getScope c this) !! searchName = None ->
  importDataIndex (getScope c this) = None ->
  deferredMemberIndex (getScope c parent) = None ->
  nameMap (getScope c parent) !! searchName = Some m ->
  symbols c !! m = Some msym ->
  kind msym <> SkExplicitImport ->
  kind msym <> SkTransparentMember ->
  nameKind result = Local \/ nameKind result = Scoped ->
  let climbed :=
    LookupResult.set_referencePoint (LookupRefPoint.after thisSym) result in
  (indexInScope msym <= indexInScope thisSym ->
   forall fuel,
     Scope.lookup ext (S (S fuel)) this searchName result c
       = Ok (LookupResult.setSymbol m false climbed, c)) /\
  (indexInScope thisSym < indexInScope msym ->
   Scope.lookupLocal parent searchName climbed c = Ok None).
Proof.
  intros Hthis Hkind Hparent Hrange Hreal Hfree Hnoimp Hrealp Hbound Hm Hk1 Hk2
    Hnk climbed.
  assert (Hafter : index (LookupRefPoint.after thisSym) = indexInScope thisSym + 1).
  { unfold LookupRefPoint.after. cbn [index]. unfold u32.
    unfold UINT32_MAX in Hrange. apply Z.mod_small. lia. }
  assert (Hlocal : Scope.lookupLocal parent searchName climbed c =
            if indexInScope msym <? indexInScope thisSym + 1
            then Ok (Some (LookupResult.setSymbol m false climbed))
            else Ok None).
  { rewrite (lookupLocal_entry parent searchName climbed c m msym Hbound Hm).
    assert (Hmat : LookupResult.referencePointMatters climbed = true).
    { unfold LookupResult.referencePointMatters, climbed.
      cbn [nameKind LookupResult.set_referencePoint].
      destruct Hnk as [-> | ->]; reflexivity. }
    rewrite Hmat. unfold LookupRefPoint.lt, LookupRefPoint.before. cbn [index].
    unfold climbed at 1. cbn [referencePoint LookupResult.set_referencePoint].
    rewrite Hafter.
    destruct (indexInScope msym <? indexInScope thisSym + 1); [|reflexivity].
    rewrite setFound_plain by assumption. reflexivity. }
  split.
  - intros Hle fuel. rewrite lookup_S.
    rewrite ensureMembers_realized by exact Hreal. cbn [mbind Res_bind].
    unfold Scope.lookupLocal at 1. rewrite Hfree. cbn [mbind Res_bind].
    rewrite Hnoimp. cbn [queryImports Scope.lookupImports mbind Res_bind].
    unfold getSymbol, readSymbol. rewrite Hthis. cbn [mbind Res_bind].
    rewrite bool_decide_eq_false_2 by exact Hkind.
    rewrite Hparent. cbn [deref mbind Res_bind]. fold climbed.
    apply (lookup_local_returns ext fuel parent searchName climbed c c).
    + apply ensureMembers_realized. exact Hrealp.
    + rewrite Hlocal.
      destruct (indexInScope msym <? indexInScope thisSym + 1) eqn:Hlt;
        [reflexivity|]. apply Z.ltb_ge in Hlt. lia.
  - intros Hgt. rewrite Hlocal.
    destruct (indexInScope msym <? indexInScope thisSym + 1) eqn:Hlt;
      [|reflexivity]. apply Z.ltb_lt in Hlt. lia.
Qed.

Lemma lookup_climbs_witness :
  let from :=
    lookupFrom Local (LookupRefPoint.startOfScope NestedInstance.defM) in
  Scope.lookup noExternal 2 NestedInstance.defM "M" from NestedInstance.state
  = Ok (LookupResult.setSymbol NestedInstance.defM false
          (LookupResult.set_referencePoint
             {| scope := Some 0%nat; index := 2 |} from),
        NestedInstance.state).
Proof.
  intros from.
  apply (proj1 (lookup_climbs noExternal NestedInstance.state NestedInstance.defM
                  (mkSymbol (DefinitionSymbol DkModule []) "M" (mkLoc 1 0)
                     (Some 0%nat) (Some NestedInstance.top) 1)
                  0%nat "M" NestedInstance.defM
                  (mkSymbol (DefinitionSymbol DkModule []) "M" (mkLoc 1 0)
                     (Some 0%nat) (Some NestedInstance.top) 1)
                  from
                  ltac:(vm_compute; reflexivity) ltac:(discriminate) eq_refl
                  ltac:(cbn; unfold UINT32_MAX; lia) eq_refl
                  ltac:(vm_compute; reflexivity) eq_refl eq_refl
                  ltac:(vm_compute; reflexivity) ltac:(vm_compute; reflexivity)
                  ltac:(discriminate) ltac:(discriminate)
                  (or_introl eq_refl))).
  cbn. lia.
Defined.

(** ** Diagnostics reported from a definition *)

(** X25 (Compilation::addDiag, Compilation::getSemanticDiagnostics).  A
    diagnostic that is reported from inside a definition, that is whose
    symbol or one of its parents is a definition before any instance is
    met, takes over its group: the definition index of the group points at
    it, and the group is issued as this very diagnostic, without a count
    and whatever the instance counts and the other occurrences are. *)
Theorem definition_diagnostic_wins (fuel fuel' : nat) (diag : Diagnostic)
    (c c' : Compilation) (r : DiagRef) (ic : gmap handle Z) (d : handle)
    (dsym : Symbol) :
  addDiag fuel diag c = Ok (r, c') ->
  isSuppressed fuel (symbols c) (diagSymbol diag) = Ok false ->
  getInstanceOrDef fuel (symbols c) (diagSymbol diag) = Ok (Some d) ->
  symbols c !! d = Some dsym ->
  kind dsym = SkDefinition ->
  Z.of_nat (length (occurrences c (code diag, diagLocation diag))) < SIZE_MAX ->
  exists g,
    diagMap c' !! (code diag, diagLocation diag) = Some g /\
    last g.1 = Some diag /\
    g.2 = Z.of_nat (length g.1) - 1 /\
    coalesceGroup fuel' (symbols c') ic g = Ok diag.
Proof.
  intros Hadd Hsup Hinst Hd Hk Hlen.
  assert (Hdef : isDefinitionHandle (symbols c) (Some d) = true).
  { unfold isDefinitionHandle. rewrite Hd. apply bool_decide_eq_true_2. exact Hk. }
  apply addDiag_cases in Hadd as (_ & _ & [(Hs & _)|(_ & inst & Hi & H)]);
    [congruence|].
  rewrite Hinst in Hi. injection Hi as <-. cbv zeta in H. rewrite Hdef in H.
  unfold occurrences in Hlen.
  destruct H as [(diagList & defIndex & Hg & _ & ->)|(Hg & _ & ->)];
    rewrite Hg in Hlen; cbn [fst length] in Hlen;
    eexists; (split; [cbn [diagMap set_diagMap]; apply lookup_insert_eq|]);
    cbn [fst snd].
  - assert (Hu : usize (Z.of_nat (length (diagList ++ [diag])) - 1)
                 = Z.of_nat (length diagList)).
    { rewrite length_app. cbn [length]. unfold usize, SIZE_MAX in *.
      rewrite Z.mod_small by lia. lia. }
    split; [apply last_snoc|]. split.
    { rewrite Hu, length_app. cbn [length]. lia. }
    unfold coalesceGroup. rewrite Hu.
    assert (Hlt : (Z.of_nat (length diagList)
                   <? Z.of_nat (length (diagList ++ [diag]))) = true).
    { apply Z.ltb_lt. rewrite length_app. cbn [length]. lia. }
    rewrite Hlt, Nat2Z.id, lookup_app_r by lia.
    rewrite Nat.sub_diag. reflexivity.
  - split; [reflexivity|]. split; [reflexivity|]. reflexivity.
Qed.

(** X26 (Scope::lookup, the loop over the wildcard imports).  The order
    rule of the wildcard imports holds for callable names too.  A lookup
    of a callable name, for which the direct search disregards the
    reference point, does not search the package of a wildcard import that
    is declared at or after the reference point: at a root scope that
    holds no member of the name it reports nothing, whatever the imported
    packages declare. *)
Theorem callable_imports_need_order (ext : External) (c : Compilation)
    (this : handle) (rootSym : Symbol) (imp : handle) (isym : Symbol)
    (rest : list handle) (searchName : string) (result : LookupResult) :
  nameKind result = Callable ->
  symbols c !! this = Some rootSym ->
  kind rootSym = SkRoot ->
  deferredMemberIndex (getScope c this) = None ->
  nameMap (getScope c this) !! searchName = None ->
  queryImports c (importDataIndex (getScope c this)) = imp :: rest ->
  symbols c !! imp = Some isym ->
  0 <= indexInScope isym < UINT32_MAX ->
  index (referencePoint result) <= indexInScope isym ->
  forall fuel,
    Scope.lookup ext (S fuel) this searchName result c = Ok (result, c).
Proof.
  intros Hnk Hthis Hkind Hreal Hfree Himps Himp Hrange Hle fuel.
  rewrite lookup_S. rewrite ensureMembers_realized by exact Hreal.
  cbn [mbind Res_bind]. unfold Scope.lookupLocal. rewrite Hfree.
  cbn [mbind Res_bind]. rewrite Himps. cbn [Scope.lookupImports].
  unfold getSymbol, readSymbol. rewrite Himp. cbn [mbind Res_bind].
  assert (Hlt : LookupRefPoint.lt (referencePoint result)
                  (LookupRefPoint.after isym) = true).
  { unfold LookupRefPoint.lt, LookupRefPoint.after. cbn [index].
    apply Z.ltb_lt. unfold u32. unfold UINT32_MAX in Hrange.
    rewrite Z.mod_small by lia. lia. }
  rewrite Hlt. cbn [mbind Res_bind]. rewrite Hthis. cbn [mbind Res_bind].
  rewrite bool_decide_eq_true_2 by exact Hkind. rewrite Hnk. reflexivity.
Qed.

Lemma definition_diagnostic_wins_witness :
  exists g,
    diagMap InDefinition.state !! (11%N, mkLoc 1 40) = Some g /\
    last g.1 = Some InDefinition.diag /\
    g.2 = Z.of_nat (length g.1) - 1 /\
    coalesceGroup 0 (symbols InDefinition.state) Coalescing.counts g
      = Ok InDefinition.diag.
Proof.
  apply (definition_diagnostic_wins 8 0 InDefinition.diag Coalescing.state
           InDefinition.state InDefinition.ref Coalescing.counts Coalescing.defM
           (newSymbol (DefinitionSymbol DkModule []) "M" (mkLoc 1 30))).
  - vm_compute. reflexivity.
  - vm_compute. reflexivity.
  - vm_compute. reflexivity.
  - vm_compute. reflexivity.
  - reflexivity.
  - vm_compute. reflexivity.
Defined.

Lemma callable_imports_need_order_witness :
  let from := lookupFrom Callable {| scope := Some 0%nat; index := 2 |} in
  Scope.lookup noExternal 1 0%nat "f" from RootImport.state
  = Ok (from, RootImport.state).
Proof.
  intros from.
  apply (callable_imports_need_order noExternal RootImport.state 0%nat
           (mkSymbol RootSymbol "" (mkLoc 0 0) None None 0)
           RootImport.import RootImport.symImport [] "f" from).
  - reflexivity.
  - vm_compute. reflexivity.
  - reflexivity.
  - reflexivity.
  - vm_compute. reflexivity.
  - vm_compute. reflexivity.
  - vm_compute. reflexivity.
  - cbn. unfold UINT32_MAX. lia.
  - cbn. lia.
Defined.

(** ** Diagnostics in a hierarchy that ends *)

Lemma isSuppressed_step fuel syms h s :
  syms !! h = Some s ->
  (data s = GenerateBlockSymbol false /\
   isSuppressed (S fuel) syms (Some h) = Ok true) \/
  (data s <> GenerateBlockSymbol false /\
   isSuppressed (S fuel) syms (Some h) = isSuppressed fuel syms (parentScope s)).
Proof.
  intros Hs. cbn [isSuppressed]. unfold readSymbol. rewrite Hs.
  cbn [mbind Res_bind].
  destruct (data s) as [| | | | | | |[|]| | | | | | | | | | | | | |];
    try (right; split; [discriminate|reflexivity]).
  left. split; reflexivity.
Qed.

Lemma isSuppressed_total syms n h :
  Depth syms n h ->
  forall fuel, (n + 1 < fuel)%nat ->
    exists b, isSuppressed fuel syms (Some h) = Ok b /\
      (b = true <-> exists k, InUninstantiatedBlock syms k h).
Proof.
  induction 1 as [h s Hs Hp|n h s p Hs Hp Hd IH]; intros fuel Hfuel.
  - destruct fuel as [|[|fuel]]; [lia|lia|].
    destruct (isSuppressed_step (S fuel) syms h s Hs) as [[Hdata ->]|[Hdata ->]].
    + exists true. split; [reflexivity|]. split; [|reflexivity].
      intros _. exists 0%nat. econstructor; eassumption.
    + rewrite Hp. exists false. split; [reflexivity|].
      split; [discriminate|].
      intros [k Hk]. inversion Hk; subst; congruence.
  - destruct fuel as [|fuel]; [lia|].
    destruct (IH fuel ltac:(lia)) as (b & Hb & Hiff).
    destruct (isSuppressed_step fuel syms h s Hs) as [[Hdata ->]|[Hdata ->]].
    + exists true. split; [reflexivity|]. split; [|reflexivity].
      intros _. exists 0%nat. econstructor; eassumption.
    + rewrite Hp. exists b. split; [exact Hb|]. rewrite Hiff. split.
      * intros [k Hk]. exists (S k). eapply uninst_parent; eassumption.
      * intros [k Hk]. inversion Hk; subst.
        -- congruence.
        -- assert (p0 = p) by congruence. subst. eauto.
Qed.

Lemma getInstanceOrDef_total syms n h :
  Depth syms n h ->
  forall fuel, (n + 1 < fuel)%nat ->
    exists r, getInstanceOrDef fuel syms (Some h) = Ok r.
Proof.
  induction 1 as [h s Hs Hp|n h s p Hs Hp Hd IH]; intros fuel Hfuel.
  - destruct fuel as [|[|fuel]]; [lia|lia|].
    cbn [getInstanceOrDef]. unfold readSymbol. rewrite Hs. cbn [mbind Res_bind].
    destruct (bool_decide (kind s ≠ SkDefinition)
              && negb (InstanceSymbol_isKind (kind s))); [|eauto].
    rewrite Hp. eauto.
  - destruct fuel as [|fuel]; [lia|].
    destruct (IH fuel ltac:(lia)) as (r & Hr).
    cbn [getInstanceOrDef]. unfold readSymbol. rewrite Hs. cbn [mbind Res_bind].
    destruct (bool_decide (kind s ≠ SkDefinition)
              && negb (InstanceSymbol_isKind (kind s))); [|eauto].
    rewrite Hp. eauto.
Qed.

(** X27 (Compilation::addDiag and its helpers [isSuppressed] and
    [getInstanceOrDef]).  [addDiag] returns for every diagnostic that has a
    valid location and a symbol whose parent scopes end: the two walks up
    the hierarchy finish.  The diagnostic goes to the scratch slot exactly
    when its symbol or a symbol above it is a generate block that was not
    instantiated, and is stored in the diagnostic map otherwise. *)
Theorem addDiag_returns (c : Compilation) (diag : Diagnostic) (h : handle)
    (n : nat) (fuel : nat) :
  diagSymbol diag = Some h ->
  validLocation (diagLocation diag) = true ->
  Depth (symbols c) n h ->
  (n + 1 < fuel)%nat ->
  exists r c',
    addDiag fuel diag c = Ok (r, c') /\
    (isStored r = false <-> exists k, InUninstantiatedBlock (symbols c) k h) /\
    (isStored r = true ->
     is_Some (diagMap c' !! (code diag, diagLocation diag))).
Proof.
  intros Hsym Hloc Hdepth Hfuel.
  destruct (isSuppressed_total _ _ _ Hdepth fuel Hfuel) as (b & Hb & Hiff).
  destruct (getInstanceOrDef_total _ _ _ Hdepth fuel Hfuel) as (inst & Hinst).
  unfold addDiag. rewrite Hsym, Hloc.
  rewrite bool_decide_eq_true_2 by discriminate.
  cbn [ASSERT mbind Res_bind]. rewrite Hb. cbn [mbind Res_bind].
  destruct b.
  - eexists _, _. split; [reflexivity|]. cbn [isStored].
    split; [|discriminate]. split; [intros _; apply Hiff; reflexivity|reflexivity].
  - rewrite Hinst. cbn [mbind Res_bind].
    assert (Hno : ~ exists k, InUninstantiatedBlock (symbols c) k h)
      by (intros Hk; apply Hiff in Hk; discriminate).
    destruct (diagMap c !! (code diag, diagLocation diag)) as [[diagList defIndex]|];
      eexists _, _; (split; [reflexivity|]); cbn [isStored];
      (split; [split; [discriminate|intros Hk; contradiction]|]);
      intros _; cbn [diagMap set_diagMap]; rewrite lookup_insert_eq; eauto.
Qed.

Lemma addDiag_returns_witness :
  exists r c',
    addDiag 5 (Coalescing.diagAt Coalescing.v1) Coalescing.state = Ok (r, c') /\
    (isStored r = false <->
     exists k, InUninstantiatedBlock (symbols Coalescing.state) k Coalescing.v1).
Proof.
  destruct (addDiag_returns Coalescing.state (Coalescing.diagAt Coalescing.v1)
              Coalescing.v1 3 5 eq_refl eq_refl)
    as (r & c' & Hadd & Hiff & _).
  - eapply depth_up; [vm_compute; reflexivity|reflexivity|].
    eapply depth_up; [vm_compute; reflexivity|reflexivity|].
    eapply depth_up; [vm_compute; reflexivity|reflexivity|].
    eapply depth_top; [vm_compute; reflexivity|reflexivity].
  - lia.
  - exists r, c'. split; [exact Hadd|exact Hiff].
Defined.
